(** * pyBOAT core: a shallow embedding of [pyboat/core.py]

    The numerical engine of pyBOAT works on numpy arrays of floats.  Here
    arrays are lists, floats are modelled by the real numbers of the
    Standard Library (exact arithmetic: rounding, infinities and NaN are out
    of the model), integers and array indices by [Z] and [nat], and Python
    exceptions by the error side of a small result monad.  Functions of
    numpy, scipy and pandas that the module only calls are either written
    out from their documented behaviour (indexing, masks, [np.convolve]) or
    taken as a parameter ([scipy.signal.savgol_filter]). *)

From Stdlib Require Import Reals Lra Lia ZArith List Bool.
Import ListNotations.

Open Scope R_scope.

(** ** Exceptions as results *)

Inductive exn : Type :=
| IndexError
| ValueError
| AssertionError
| ZeroDivisionError
| NameError
| AttributeError.

Inductive result (A : Type) : Type :=
| Ok (a : A)
| Raise (e : exn).

Arguments Ok {A} a.
Arguments Raise {A} e.

Definition bind {A B : Type} (m : result A) (k : A -> result B) : result B :=
  match m with
  | Ok a => k a
  | Raise e => Raise e
  end.

Notation "x <- m ;; k" := (bind m (fun x => k))
  (at level 61, m at next level, right associativity).

Definition is_ok {A : Type} (m : result A) : bool :=
  match m with Ok _ => true | Raise _ => false end.

(** ** numpy arrays as lists *)

Module Np.

(** [a[i]] for a Python integer [i]: negative indices count from the end,
    anything outside [-len, len) raises IndexError. *)
Definition getitem {A : Type} (a : list A) (i : Z) : result A :=
  let n := Z.of_nat (length a) in
  let j := if (i <? 0)%Z then (i + n)%Z else i in
  if ((0 <=? j)%Z && (j <? n)%Z)%bool
  then match nth_error a (Z.to_nat j) with
       | Some x => Ok x
       | None => Raise IndexError
       end
  else Raise IndexError.

(** [a[idx]] for an integer index array [idx] (fancy indexing). *)
Fixpoint take {A : Type} (a : list A) (idx : list Z) : result (list A) :=
  match idx with
  | [] => Ok []
  | i :: rest =>
      x <- getitem a i ;;
      xs <- take a rest ;;
      Ok (x :: xs)
  end.

(** The elements of [a] at which the mask holds; lengths already checked. *)
Fixpoint compress {A : Type} (mask : list bool) (a : list A) : list A :=
  match mask, a with
  | m :: ms, x :: xs => if m then x :: compress ms xs else compress ms xs
  | _, _ => []
  end.

(** [a[mask]] for a boolean array [mask]: the lengths must agree. *)
Definition mask_index {A : Type} (a : list A) (mask : list bool)
  : result (list A) :=
  if Nat.eqb (length mask) (length a)
  then Ok (compress mask a)
  else Raise IndexError.

(** [m[rows, cols]] for two index arrays of one length: the element
    [m[rows[k]][cols[k]]] for each [k]. *)
Fixpoint gather_pairs {A : Type} (m : list (list A)) (rows cols : list Z)
  : result (list A) :=
  match rows, cols with
  | r :: rs, c :: cs =>
      row <- getitem m r ;;
      x <- getitem row c ;;
      xs <- gather_pairs m rs cs ;;
      Ok (x :: xs)
  | _, _ => Ok []
  end.

(** [np.arange(n)] as indices. *)
Definition arange (n : nat) : list Z := map Z.of_nat (seq 0 n).

(** Broadcasting of two one-dimensional index arrays: equal lengths, or
    one of them of length one, which is repeated. *)
Definition broadcast2 (rows cols : list Z) : result (list Z * list Z) :=
  if Nat.eqb (length rows) (length cols) then Ok (rows, cols)
  else match rows, cols with
       | [r], _ => Ok (repeat r (length cols), cols)
       | _, [c] => Ok (rows, repeat c (length rows))
       | _, _ => Raise IndexError
       end.

(** [m[rows, cols]] with broadcasting. *)
Definition fancy2 {A : Type} (m : list (list A)) (rows cols : list Z)
  : result (list A) :=
  rc <- broadcast2 rows cols ;;
  gather_pairs m (fst rc) (snd rc).

(** [m.shape[1]] of a two-dimensional array given by its rows. *)
Definition shape1 {A : Type} (m : list (list A)) : nat :=
  match m with
  | [] => 0%nat
  | row :: _ => length row
  end.

Definition sum (a : list R) : R := fold_right Rplus 0 a.

Definition mean (a : list R) : R := sum a / INR (length a).

(** [np.var]: the population variance. *)
Definition var (a : list R) : R :=
  let mu := mean a in
  mean (map (fun x => (x - mu) * (x - mu)) a).

(** [a op b] elementwise on arrays of one length. *)
Fixpoint zip_with {A B C : Type} (f : A -> B -> C)
  (a : list A) (b : list B) : list C :=
  match a, b with
  | x :: xs, y :: ys => f x y :: zip_with f xs ys
  | _, _ => []
  end.

End Np.

(** ** Wavelet scales (ScaleConverter) *)

Definition omega0 : R := 2 * PI.

(** [scales_from_periods(periods, sfreq, omega0)]: the array expression is
    evaluated elementwise; [scale_of_period] is its value at one period. *)
Definition scale_of_period (period sfreq w0 : R) : R :=
  (w0 + sqrt (2 + w0 ^ 2)) * period * sfreq / (4 * PI).

Definition scales_from_periods (periods : list R) (sfreq w0 : R) : list R :=
  map (fun p => scale_of_period p sfreq w0) periods.

(** [Morlet_COI(omega0)]: slope of the e-folding time. *)
Definition Morlet_COI (w0 : R) : R :=
  4 * PI / (sqrt 2 * (w0 + sqrt (2 + w0 ^ 2))).

(** [pi ** -0.25]. *)
Definition pi_pow_m025 : R := Rpower PI (- (1 / 4)).

(** [power_to_amplitude(periods, powers, signal_std, dt)]. *)
Definition power_to_amplitude (periods powers : list R) (signal_std dt : R)
  : list R :=
  let scales := scales_from_periods periods (1 / dt) omega0 in
  let kappa := map (fun s => 1 / sqrt s * pi_pow_m025) scales in
  let kappa := map (fun k => k * signal_std * sqrt 2) kappa in
  Np.zip_with (fun p k => sqrt p * k) powers kappa.

(** ** Real comparisons as the booleans numpy computes *)

Definition Rgtb (x y : R) : bool := if Rgt_dec x y then true else false.
Definition Rltb (x y : R) : bool := if Rlt_dec x y then true else false.
Definition Reqb (x y : R) : bool := if Req_dec_T x y then true else false.

(** ** Complex wavelet coefficients *)

Definition complex : Type := (R * R)%type.

(** [np.abs(z)]. *)
Definition Cabs (z : complex) : R := sqrt (fst z ^ 2 + snd z ^ 2).

(** [math.atan2(y, x)], the value of [np.angle] at [x + iy]. *)
Definition atan2 (y x : R) : R :=
  if Rlt_dec 0 x then atan (y / x)
  else if Rlt_dec x 0
       then (if Rlt_dec y 0 then atan (y / x) - PI else atan (y / x) + PI)
       else if Rlt_dec 0 y then PI / 2
            else if Rlt_dec y 0 then - (PI / 2) else 0.

Definition angle (z : complex) : R := atan2 (snd z) (fst z).

(** [x % m] on floats: the remainder has the sign of [m]. *)
Definition fmod (x m : R) : R := x - IZR (Int_part (x / m)) * m.

(** ** Ridge evaluation (RidgeEvaluator) *)

(** The table [eval_ridge] returns, column by column; the row labels are the
    positions 0 .. n-1 (a RangeIndex). *)
Record RidgeData : Type := mkRidgeData {
  rd_time : list R;
  rd_periods : list R;
  rd_phase : list R;
  rd_amplitude : list R;
  rd_power : list R;
  rd_frequencies : list R
}.

Definition nrows (rd : RidgeData) : nat := length (rd_time rd).

(** The window the sanitising branch of [eval_ridge] computes into its local
    variable [smoothing]: bound only when the ridge is shorter than the
    requested window. *)
Definition shrunk_window (Ntt smoothing_wsize : Z) : option Z :=
  if (Ntt <? smoothing_wsize)%Z
  then Some (if (Ntt mod 2 =? 1)%Z then Ntt else (Ntt - 1)%Z)
  else None.

(** Position of the first maximum, [np.argmax] on a non-empty array. *)
Fixpoint argmax_from (best : R) (besti : nat) (i : nat) (a : list R) : nat :=
  match a with
  | [] => besti
  | x :: xs =>
      if Rgtb x best then argmax_from x i (S i) xs
      else argmax_from best besti (S i) xs
  end.

(** [np.nanargmax]: ValueError on an empty array. *)
Definition nanargmax (a : list R) : result Z :=
  match a with
  | [] => Raise ValueError
  | x :: xs => Ok (Z.of_nat (argmax_from x 0 1 xs))
  end.

Section EvalRidge.

(** [scipy.signal.savgol_filter(x, window_length, polyorder)]. *)
Variable savgol_filter : list R -> Z -> Z -> result (list R).

(** [eval_ridge(ridge_y, wlet, signal, periods, tvec, power_thresh,
    smoothing_wsize)].  The powers are quotients by the variance of the
    signal, here quotients of reals: for a signal of variance zero numpy's
    powers are infinite or not numbers, so the statements about the powers
    of a returned table assume a positive variance. *)
Definition eval_ridge (ridge_y : list Z) (wlet : list (list complex))
  (signal periods tvec : list R) (power_thresh : R)
  (smoothing_wsize : option Z) : result RidgeData :=
  let sigma2 := Np.var signal in
  let modulus := map (map (fun z => Cabs z ^ 2 / sigma2)) wlet in
  t1 <- Np.getitem tvec 1 ;;
  t0 <- Np.getitem tvec 0 ;;
  let dt := t1 - t0 in
  let Nt := Np.shape1 modulus in
  ridge_per <- Np.take periods ridge_y ;;
  ridge_z <- Np.fancy2 wlet ridge_y (Np.arange Nt) ;;
  ridge_power <- Np.fancy2 modulus ridge_y (Np.arange Nt) ;;
  let inds := map (fun p => Rgtb p power_thresh) ridge_power in
  sign_per <- Np.mask_index ridge_per inds ;;
  ridge_t <- Np.mask_index tvec inds ;;
  phi <- Np.mask_index (map angle ridge_z) inds ;;
  let ridge_phi := map (fun a => fmod a (2 * PI)) phi in
  sign_power <- Np.mask_index ridge_power inds ;;
  let sign_amplitudes :=
    power_to_amplitude sign_per sign_power (sqrt sigma2) dt in
  sign_per <-
    match smoothing_wsize with
    | None => Ok sign_per
    | Some wsize =>
        let Ntt := Z.of_nat (length ridge_per) in
        let smoothing := shrunk_window Ntt wsize in
        smoothed <- savgol_filter ridge_per wsize 3 ;;
        Np.mask_index smoothed inds
    end ;;
  let ridge_data :=
    mkRidgeData ridge_t sign_per ridge_phi sign_amplitudes sign_power
      (map (fun p => 1 / p) sign_per) in
  imax <- nanargmax ridge_power ;;
  MaxPowerPer <- Np.getitem ridge_per imax ;;
  Ok ridge_data.

End EvalRidge.

(** [find_COI_crossing(rd)]: the row labels of the last point outside the
    left cone of influence and of the first point outside the right one. *)
Definition coi_left_mask (rd : RidgeData) : list bool :=
  let coi_left := map (fun t => Morlet_COI omega0 * t) (rd_time rd) in
  Np.zip_with (fun c p => negb (Rgtb c p)) coi_left (rd_periods rd).

Definition coi_right_mask (rd : RidgeData) : list bool :=
  let coi_right := map (fun t => Morlet_COI omega0 * t) (rev (rd_time rd)) in
  Np.zip_with (fun c p => Rltb c p) coi_right (rd_periods rd).

Definition find_COI_crossing (rd : RidgeData) : result (Z * Z) :=
  let index := Np.arange (nrows rd) in
  t_left <- Np.getitem (Np.compress (coi_left_mask rd) index) (-1) ;;
  t_right <- Np.getitem (Np.compress (coi_right_mask rd) index) 0 ;;
  Ok (t_left, t_right).

(** ** Simulated-annealing ridge search (RidgeTracer) *)

Module Anneal.

(** What one iteration draws from numpy's generator: raw entropy for the
    time position ([randint]) and for the jump ([choice]), and the sample
    of [uniform()], a real in [0, 1). *)
Record draw : Type := mkDraw {
  d_pos : nat;
  d_jump : nat;
  d_u : R
}.

(** [randint(0, n, size=1)]: ValueError when the range is empty. *)
Definition randint (n : nat) (r : nat) : result nat :=
  if Nat.eqb n 0 then Raise ValueError else Ok (Nat.modulo r n).

(** [choice(a, size=1)]: ValueError on an empty array. *)
Definition choice (a : list Z) (r : nat) : result Z :=
  match a with
  | [] => Raise ValueError
  | x :: _ => Ok (nth (Nat.modulo r (length a)) a x)
  end.

(** [np.arange(lo, hi)] on integers. *)
Definition zrange (lo hi : Z) : list Z :=
  map (fun i => (lo + Z.of_nat i)%Z) (seq 0 (Z.to_nat (hi - lo))).

(** [incr]: the possible jumps, zero removed. *)
Definition incr (mx_jump : Z) : list Z :=
  filter (fun e => negb (e =? 0)%Z) (zrange (- mx_jump) (mx_jump + 1)).

(** [np.diff(ys, 1)]. *)
Fixpoint diff (ys : list Z) : list Z :=
  match ys with
  | a :: ((b :: _) as rest) => (b - a)%Z :: diff rest
  | _ => []
  end.

Definition sum_abs (ds : list Z) : Z :=
  fold_right (fun d acc => (Z.abs d + acc)%Z) 0%Z ds.

(** [cost_func_anneal(ys, t_inds, landscape, l, m)]. *)
Definition cost_func_anneal (ys t_inds : list Z) (landscape : list (list R))
  (l m : R) : result R :=
  let N := length ys in
  vals <- Np.fancy2 landscape ys t_inds ;;
  let D := - Np.sum vals in
  let S1 := l * IZR (sum_abs (diff ys)) in
  let S2 := m * IZR (sum_abs (diff (diff ys))) in
  if Nat.eqb N 0 then Raise ZeroDivisionError
  else Ok ((D + S1 + S2) / INR N).

(** [ys[pos] = v], in place. *)
Fixpoint setitem (ys : list Z) (pos : nat) (v : Z) : list Z :=
  match ys, pos with
  | [], _ => []
  | _ :: rest, O => v :: rest
  | y :: rest, S p => y :: setitem rest p v
  end.

(** The jump of one iteration: a forced step at the boundaries of the scale
    domain, a random element of [incr] elsewhere. *)
Definition propose (Ns mx_jump y : Z) (r : nat) : result Z :=
  if (y >=? Ns - mx_jump - 1)%Z then Ok (-1)%Z
  else if (y <? mx_jump)%Z then Ok 1%Z
  else choice (incr mx_jump) r.

(** The acceptance test: [accept] stays True unless the move is worse and
    the uniform sample exceeds the Boltzmann factor.  The quotient by the
    temperature is that of the reals: at [T_k = 0] numpy divides to minus
    infinity, so the statements about a worse move assume [T_k <> 0]. *)
Definition metropolis_accept (F F_c T_k u : R) : bool :=
  if Rgtb F_c F
  then (if Rgtb u (exp (- (F_c - F) / T_k)) then false else true)
  else true.

(** The loop's variables; [a_printed] collects what [print(T_k)] writes,
    oldest first, and [a_F_c] is unbound before the first iteration. *)
Record state : Type := mkState {
  a_ys : list Z;
  a_F_c : option R;
  a_Nrej : nat;
  a_T_k : R;
  a_printed : list R
}.

Section Run.

Variable landscape : list (list R).
Variable mx_jump : Z.
(** [T_ini] and [curve_pen] after the multiplication by [tfac]. *)
Variable T_ini curve_pen : R.
Variable rng : nat -> draw.

Definition Nt : nat := Np.shape1 landscape.
Definition Ns : Z := Z.of_nat (length landscape).
Definition t_inds : list Z := Np.arange Nt.

(** The candidate of one iteration: [ys] after [ys[pos] = ys[pos] + eps],
    with the position and the jump. *)
Definition candidate (k : nat) (ys : list Z)
  : result (nat * Z * list Z) :=
  pos <- randint (length ys) (d_pos (rng k)) ;;
  y <- Np.getitem ys (Z.of_nat pos) ;;
  eps <- propose Ns mx_jump y (d_jump (rng k)) ;;
  Ok (pos, eps, setitem ys pos (y + eps)%Z).

(** The body of [for k in range(Nsteps)]. *)
Definition anneal_step (k : nat) (st : state) : result state :=
  let ys := a_ys st in
  F <- cost_func_anneal ys t_inds landscape 0 curve_pen ;;
  c <- candidate k ys ;;
  let '(pos, eps, ys) := c in
  F_c <- cost_func_anneal ys t_inds landscape 0 curve_pen ;;
  let accept := metropolis_accept F F_c (a_T_k st) (d_u (rng k)) in
  ys <- (if accept then Ok ys
         else y <- Np.getitem ys (Z.of_nat pos) ;;
              Ok (setitem ys pos (y - eps)%Z)) ;;
  let Nrej := if accept then 0%nat else S (a_Nrej st) in
  let printed := a_printed st ++ [a_T_k st] in
  let T_k := T_ini / ln (IZR (2 + Z.of_nat k)) in
  Ok (mkState ys (Some F_c) Nrej T_k printed).

Fixpoint anneal_loop (ks : list nat) (st : state) : result state :=
  match ks with
  | [] => Ok st
  | k :: rest => st' <- anneal_step k st ;; anneal_loop rest st'
  end.

End Run.

Definition tfac : R := 1 / 100.

(** The state in which [find_ridge_anneal] leaves its loop. *)
Definition anneal_run (landscape : list (list R)) (y0 : Z) (T_ini : R)
  (Nsteps : nat) (mx_jump : Z) (curve_pen : R) (rng : nat -> draw)
  : result state :=
  let ys := repeat y0 (Nt landscape) in
  let T_ini := T_ini * tfac in
  let curve_pen := curve_pen * tfac in
  anneal_loop landscape mx_jump T_ini curve_pen rng (seq 0 Nsteps)
    (mkState ys None 0 T_ini []).

(** [find_ridge_anneal(landscape, y0, T_ini, Nsteps, mx_jump, curve_pen)]:
    the ridge and its cost; with no iteration [F_c] is unbound when it is
    printed. *)
Definition find_ridge_anneal (landscape : list (list R)) (y0 : Z)
  (T_ini : R) (Nsteps : nat) (mx_jump : Z) (curve_pen : R)
  (rng : nat -> draw) : result (list Z * R) :=
  st <- anneal_run landscape y0 T_ini Nsteps mx_jump curve_pen rng ;;
  match a_F_c st with
  | Some F_c => Ok (a_ys st, F_c)
  | None => Raise NameError
  end.

End Anneal.

(** ** Python slices and [np.convolve] *)

Module Slice.

(** Bound of a slice with step -1 on a sequence of length [n]. *)
Definition clip_rev (n i : Z) : Z :=
  let j := if (i <? 0)%Z then (i + n)%Z else i in
  if (j <? 0)%Z then (-1)%Z
  else if (j >=? n)%Z then (n - 1)%Z else j.

(** [x[start:stop:-1]]: the elements at [start], [start-1], ... down to,
    and without, [stop]. *)
Definition rev_slice {A : Type} (x : list A) (start stop : Z) : list A :=
  let n := Z.of_nat (length x) in
  let a := clip_rev n start in
  let b := clip_rev n stop in
  rev (firstn (Z.to_nat (a - b)) (skipn (Z.to_nat (b + 1)) x)).

(** Bound of a slice with step 1. *)
Definition clip_fwd (n i : Z) : Z :=
  let j := if (i <? 0)%Z then (i + n)%Z else i in
  if (j <? 0)%Z then 0%Z
  else if (j >? n)%Z then n else j.

(** [x[start:stop]]. *)
Definition slice {A : Type} (x : list A) (start stop : Z) : list A :=
  let n := Z.of_nat (length x) in
  let a := clip_fwd n start in
  let b := clip_fwd n stop in
  firstn (Z.to_nat (b - a)) (skipn (Z.to_nat a) x).

End Slice.

(** The "valid" part of the convolution of [long] with a kernel [short] that
    is not longer: one value for each full overlap. *)
Definition convolve_valid_core (long short : list R) : list R :=
  let m := length short in
  map (fun i =>
         Np.sum (Np.zip_with Rmult short (rev (firstn m (skipn i long)))))
      (seq 0 (length long - m + 1)).

(** [np.convolve(a, v, mode="valid")]: the arguments are swapped when [v] is
    the longer one; an empty argument is a ValueError. *)
Definition convolve_valid (a v : list R) : result (list R) :=
  match a, v with
  | [], _ | _, [] => Raise ValueError
  | _, _ =>
      if (length a <? length v)%nat then Ok (convolve_valid_core v a)
      else Ok (convolve_valid_core a v)
  end.

(** ** Sinc filter and detrending (SincFilter) *)

(** The [window] argument of [smooth]. *)
Inductive window_kind : Type :=
| Flat
| Extern
| OtherWindow.

(** [smooth(x, window_len, window, data)].  [window_len % 2 is 0] compares
    small integers, for which identity is equality. *)
Definition smooth (x : list R) (window_len : Z) (window : window_kind)
  (data : option (list R)) : result (list R) :=
  let window_len :=
    match data with
    | Some d => Z.of_nat (length d)
    | None => window_len
    end in
  let window := match data with Some _ => Extern | None => window end in
  if (Z.of_nat (length x) <? window_len)%Z then Raise ValueError
  else if (window_len <? 3)%Z then Raise ValueError
  else if (window_len mod 2 =? 0)%Z then Raise ValueError
  else
    match window with
    | OtherWindow => Raise ValueError
    | _ =>
        let s := Slice.rev_slice x (window_len - 1) 0 ++ x
                 ++ Slice.rev_slice x (-1) (- window_len) in
        w <- match window, data with
             | Flat, _ => Ok (repeat 1 (Z.to_nat window_len))
             | _, Some d => Ok d
             | _, None => Raise AttributeError
             end ;;
        let wsum := Np.sum w in
        y <- convolve_valid (map (fun c => c / wsum) w) s ;;
        let h := Z.quot (window_len - 1) 2 in
        Ok (Slice.slice y h (Z.of_nat (length y) - h))
    end.

(** One tap of the windowed sinc filter. *)
Definition sinc_tap (M : Z) (f_c : R) (x : Z) : R :=
  let half := IZR M / 2 in
  if Reqb (IZR x) half then 2 * PI * f_c
  else
    let r := sin (2 * PI * f_c * (IZR x - half)) / (IZR x - half) in
    r * (42 / 100 - 5 / 10 * cos (2 * PI * IZR x / IZR M)
         + 8 / 100 * cos (4 * PI * IZR x / IZR M)).

(** [sinc_filter(M, f_c)]: [M] must be even, the result has length M+1. *)
Definition sinc_filter (M : Z) (f_c : R) : result (list R) :=
  if negb (M mod 2 =? 0)%Z then Raise AssertionError
  else
    let res := map (sinc_tap M f_c) (Anneal.zrange 0 (M + 1)) in
    let total := Np.sum res in
    Ok (map (fun r => r / total) res).

(** [sinc_smooth(raw_signal, T_c, dt, M)]; [dt / T_c] divides Python
    floats, so a zero [T_c] raises ZeroDivisionError. *)
Definition sinc_smooth (raw_signal : list R) (T_c dt : R) (M : option Z)
  : result (list R) :=
  let signal := raw_signal in
  f_c <- (if Reqb T_c 0 then Raise ZeroDivisionError else Ok (dt / T_c)) ;;
  let M :=
    match M with
    | Some M => M
    | None =>
        let M := (Z.of_nat (length signal) - 1)%Z in
        if negb (M mod 2 =? 0)%Z then (M - 1)%Z else M
    end in
  w <- sinc_filter M f_c ;;
  smooth signal 11 Flat (Some w).

(** ** Amplitude envelope (EnvelopeEstimator) *)

Definition list_max (row : list R) : R :=
  match row with
  | [] => 0
  | x :: xs => fold_left Rmax xs x
  end.

Definition list_min (row : list R) : R :=
  match row with
  | [] => 0
  | x :: xs => fold_left Rmin xs x
  end.

(** [vector[-k:]] for [k] at most the length. *)
Definition lastn {A : Type} (k : nat) (v : list A) : list A :=
  skipn (length v - k) v.

Section Envelope.

Variable savgol_filter : list R -> Z -> Z -> result (list R).

(** [sliding_window_amplitude(signal, window_size, SGsmooth)].  The rows of
    the rolling matrix are kept without their NaN filling, which
    [nanmax] and [nanmin] skip. *)
Definition sliding_window_amplitude (signal : list R) (window_size : Z)
  (SGsmooth : bool) : result (list R) :=
  let vector := signal in
  let window_size :=
    if negb (window_size mod 2 =? 1)%Z then (window_size + 1)%Z
    else window_size in
  let n := Z.of_nat (length vector) in
  if ((n - window_size + 1 <? 0)%Z || (window_size <? 0)%Z)%bool
  then Raise ValueError
  else
    let ws := Z.to_nat window_size in
    let aa := map (fun j => firstn ws (skipn j vector))
                  (seq 0 (length vector + 1 - ws)) in
    let b_size := (ws / 2)%nat in
    let b_left := map (fun i => firstn (b_size + 1 + i) vector)
                      (seq 0 b_size) in
    let b_right := map (fun r => lastn (2 * b_size - r) vector)
                       (seq 0 b_size) in
    let rm := b_left ++ aa ++ b_right in
    let amplitudes := map (fun row => (list_max row - list_min row) / 2) rm in
    if SGsmooth then savgol_filter amplitudes window_size 3
    else Ok amplitudes.

(** [normalize_with_envelope(dsignal, window_size)]. *)
Definition normalize_with_envelope (dsignal : list R) (window_size : Z)
  : result (list R) :=
  let mu := Np.mean dsignal in
  let signal := map (fun x => x - mu) dsignal in
  env <- sliding_window_amplitude signal window_size true ;;
  if Nat.eqb (length env) (length dsignal)
  then Ok (Np.zip_with (fun e d => 1 / e * d) env dsignal)
  else Raise ValueError.

End Envelope.

(** * Vocabulary of the statements *)

(** The selections of [find_COI_crossing] are as long as the table. *)
Definition table_ok (rd : RidgeData) : Prop :=
  length (rd_periods rd) = length (rd_time rd).

(** A ridge kept only in the middle of the record, at a short period: every
    row lies inside the left cone. *)
Definition rd_inside_coi : RidgeData :=
  mkRidgeData [50; 51] [10; 10] [0; 0] [1; 1] [1; 1] [1 / 10; 1 / 10].

(** [i] indexes a sequence of length [n], from the front or from the end. *)
Definition valid_index (n : nat) (i : Z) : Prop :=
  (- Z.of_nat n <= i < Z.of_nat n)%Z.

(** Inputs on which [eval_ridge] is meant to run: a transform of P rows and
    N >= 2 columns, one period per row, one time and one ridge entry per
    column, the ridge entries being row indices. *)
Record ridge_inputs_ok (ridge_y : list Z) (wlet : list (list complex))
  (periods tvec : list R) : Prop := mk_ridge_inputs_ok {
  ok_rows : wlet <> [];
  ok_rect : Forall (fun row => length row = length tvec) wlet;
  ok_tvec : (2 <= length tvec)%nat;
  ok_ridge_len : length ridge_y = length tvec;
  ok_ridge_rows : Forall (valid_index (length wlet)) ridge_y;
  ok_periods : length periods = length wlet
}.

(** The power along the ridge, [ridge_power] in [eval_ridge]. *)
Definition ridge_power_of (ridge_y : list Z) (wlet : list (list complex))
  (signal : list R) : result (list R) :=
  let sigma2 := Np.var signal in
  let modulus := map (map (fun z => Cabs z ^ 2 / sigma2)) wlet in
  Np.fancy2 modulus ridge_y (Np.arange (Np.shape1 modulus)).

(** The table without rows. *)
Definition empty_ridge_data : RidgeData := mkRidgeData [] [] [] [] [] [].

(** [savgol_filter] in its default mode "interp" refuses a window that is
    longer than the data; [core] stands for what it computes otherwise. *)
Definition savgol_guarded (core : list R -> Z -> Z -> result (list R))
  (x : list R) (window_length polyorder : Z) : result (list R) :=
  if (Z.of_nat (length x) <? window_length)%Z then Raise ValueError
  else core x window_length polyorder.

(** The smoothing step of [eval_ridge] goes through: no smoothing asked, or
    a filter that returns an array as long as the ridge it is given. *)
Definition smoothing_succeeds
  (savgol_filter : list R -> Z -> Z -> result (list R))
  (sw : option Z) (n : nat) : Prop :=
  match sw with
  | None => True
  | Some wsize =>
      forall x, length x = n ->
        exists y, savgol_filter x wsize 3%Z = Ok y /\ length y = n
  end.

(** A filter that is never called. *)
Definition no_savgol (x : list R) (window_length polyorder : Z)
  : result (list R) := Raise ValueError.

(** A transform of two periods over five time points, its signal, its time
    axis and a ridge that leaves the first row once. *)
Definition wlet_2x5 : list (list complex) :=
  [[(1, 0); (2, 0); (1, 0); (1, 0); (1, 0)];
   [(0, 1); (0, 1); (0, 3); (0, 1); (0, 1)]].

Definition signal_5 : list R := [1; -1; 0; 1; -1].
Definition periods_2 : list R := [10; 20].
Definition tvec_5 : list R := [0; 1; 2; 3; 4].
Definition ridge_5 : list Z := [0; 0; 1; 0; 0]%Z.

(** [savgol_filter] on five samples with window 5 and order 3.  The filter
    returns the least-squares cubic through the samples, which is the data
    minus its component along the fourth difference (1, -4, 6, -4, 1); calls
    of another shape are not part of this instance. *)
Definition savgol_five (x : list R) (window_length polyorder : Z)
  : result (list R) :=
  match x with
  | [a; b; c; d; e] =>
      if ((window_length =? 5)%Z && (polyorder =? 3)%Z)%bool
      then let r := (a - 4 * b + 6 * c - 4 * d + e) / 70 in
           Ok [a - r; b + 4 * r; c - 6 * r; d + 4 * r; e - r]
      else Raise ValueError
  | _ => Raise ValueError
  end.

(** Row indices of a landscape with [n] rows. *)
Definition in_rows (n : Z) (y : Z) : Prop := (0 <= y < n)%Z.

(** A landscape as [find_ridge_anneal] expects it: at least one time point,
    all rows of one length. *)
Definition landscape_ok (landscape : list (list R)) : Prop :=
  (1 <= Anneal.Nt landscape)%nat
  /\ Forall (fun row => length row = Anneal.Nt landscape) landscape.

(** The temperature in force during iteration [k], for the pre-scaled
    initial temperature [T]: the initial value in the first iteration, then
    the value computed at the end of the iteration before. *)
Definition temperature_used (T : R) (k : nat) : R :=
  match k with
  | O => T
  | S j => T / ln (IZR (2 + Z.of_nat j))
  end.

(** The schedule as the specification words it: iteration [k] runs at
    T / ln(2 + k), the sequence decreases and never reaches zero. *)
Definition schedule_as_specified (T : R) (temps : list R) : Prop :=
  (forall k, (k < length temps)%nat ->
     nth k temps 0 = T / ln (IZR (2 + Z.of_nat k)))
  /\ (forall i j, (i < j < length temps)%nat -> nth j temps 0 < nth i temps 0)
  /\ (forall k, (k < length temps)%nat -> nth k temps 0 <> 0).

(** A flat landscape of three scales and two time points, and a generator
    that always returns the same draw. *)
Definition flat_3x2 : list (list R) := [[0; 0]; [0; 0]; [0; 0]].

Definition rng_const (k : nat) : Anneal.draw := Anneal.mkDraw 0 0 (1 / 2).

(** The loop invariant of the annealing: a full-length ridge of row
    indices. *)
Definition ridge_inv (landscape : list (list R)) (st : Anneal.state) : Prop :=
  length (Anneal.a_ys st) = Anneal.Nt landscape
  /\ Forall (in_rows (Anneal.Ns landscape)) (Anneal.a_ys st).

(** A landscape with a crest on its middle row. *)
Definition crest_3x2 : list (list R) := [[0; 0]; [1; 1]; [0; 0]].

(** A generator whose uniform sample is always [u]. *)
Definition rng_u (u : R) (k : nat) : Anneal.draw := Anneal.mkDraw 0 0 u.

(** The annealing state on the crest at temperature one. *)
Definition on_crest : Anneal.state := Anneal.mkState [1; 1]%Z None 0 1 [].

(** The default kernel order in the words of the specification:
    len(signal) - 1 rounded down to even. *)
Definition default_M (n : nat) : Z := (2 * ((Z.of_nat n - 1) / 2))%Z.

(** The signal mirrored at both ends for a window of [wl] taps: the
    reflection of the [wl - 1] samples after the first in front, of the
    [wl - 1] samples before the last behind. *)
Definition mirror_pad (x : list R) (wl : nat) : list R :=
  rev (firstn (wl - 1) (skipn 1 x)) ++ x
  ++ rev (skipn (length x - wl + 1) x).

Section EnvelopeSpec.

Variable savgol_filter : list R -> Z -> Z -> result (list R).

(** Normalisation in the words of the specification: the mean-subtracted
    signal divided pointwise by the sliding amplitude envelope of the
    mean-subtracted signal. *)
Definition normalize_as_specified (dsignal : list R) (window_size : Z)
  : result (list R) :=
  let mu := Np.mean dsignal in
  let signal := map (fun x => x - mu) dsignal in
  env <- sliding_window_amplitude savgol_filter signal window_size true ;;
  if Nat.eqb (length env) (length dsignal)
  then Ok (Np.zip_with (fun e s => s / e) env signal)
  else Raise ValueError.

End EnvelopeSpec.

(** A signal oscillating between 1 and 3 around the mean 11/5. *)
Definition signal_13 : list R := [3; 1; 3; 1; 3].

(** * The rest of the engine *)

(** ** The non-admissible scale conversion *)

(** [scales_from_periodsNA(periods, sfreq, omega0)], at one period. *)
Definition scale_of_periodNA (period sfreq w0 : R) : R :=
  w0 * period * sfreq / (2 * PI).

Definition scales_from_periodsNA (periods : list R) (sfreq w0 : R) : list R :=
  map (fun p => scale_of_periodNA p sfreq w0) periods.

(** ** The Morlet wavelet (MorletKernel) *)

(** [np.exp(1j * theta)]. *)
Definition Cexp_i (theta : R) : complex := (cos theta, sin theta).

(** A real factor times a complex number. *)
Definition Cscale (r : R) (z : complex) : complex := (r * fst z, r * snd z).

Definition Cadd (a b : complex) : complex := (fst a + fst b, snd a + snd b).

Definition Cmul (a b : complex) : complex :=
  (fst a * fst b - snd a * snd b, fst a * snd b + snd a * fst b).

(** [mk_Morlet(omega0)(t, scale)]. *)
Definition Morlet (w0 t scale : R) : complex :=
  let res :=
    Cscale (exp (- (1 / 2) * (t / scale) ^ 2))
      (Cscale pi_pow_m025 (Cexp_i (w0 * t / scale))) in
  Cscale (1 / sqrt scale) res.

(** [gauss_envelope(t, scale)]. *)
Definition gauss_envelope (t scale : R) : R :=
  1 / sqrt scale * pi_pow_m025 * exp (- (1 / 2) * (t / scale) ^ 2).

(** [inverse_gauss(y, scale)]. *)
Definition inverse_gauss (y scale : R) : R :=
  let a := pi_pow_m025 * 1 / sqrt scale in
  scale * sqrt (-2 * ln (y / a)).

(** The module constant [peak_fraction = 1e6]. *)
Definition peak_fraction : R := 1000000.

(** ** Greedy ridge (RidgeTracer) *)

(** [f] on every element, stopping at the first exception. *)
Fixpoint mapM {A B : Type} (f : A -> result B) (l : list A)
  : result (list B) :=
  match l with
  | [] => Ok []
  | x :: rest =>
      y <- f x ;;
      ys <- mapM f rest ;;
      Ok (y :: ys)
  end.

(** [m[:, t]]. *)
Definition column {A : Type} (m : list (list A)) (t : Z) : result (list A) :=
  mapM (fun row => Np.getitem row t) m.

(** [np.argmax]: the position of the first maximum, ValueError on an empty
    array. *)
Definition argmax (a : list R) : result Z :=
  match a with
  | [] => Raise ValueError
  | x :: xs => Ok (Z.of_nat (argmax_from x 0 1 xs))
  end.

(** [get_maxRidge(modulus)]. *)
Definition get_maxRidge (modulus : list (list R)) : result (list Z) :=
  let Nt := Np.shape1 modulus in
  mapM (fun t => col <- column modulus t ;; argmax col) (Np.arange Nt).

(** ** AR1 spectrum and simulation *)

(** [ar1_powerspec(alpha, periods, dt)]. *)
Definition ar1_powerspec (alpha : R) (periods : list R) (dt : R) : list R :=
  map (fun p =>
         (1 - alpha ^ 2)
         / (1 + alpha ^ 2 - 2 * alpha * cos (2 * PI * dt / p)))
      periods.

(** The loop of [ar1_sim]: the values after [prev], one per draw. *)
Fixpoint ar1_loop (alpha sigma prev : R) (draws : list R) : list R :=
  match draws with
  | [] => []
  | e :: rest =>
      let x := alpha * prev + sigma * e in
      x :: ar1_loop alpha sigma x rest
  end.

(** [ar1_sim(alpha, N, sigma, x0)].  [randn] is the stream of standard
    normal samples in the order they are drawn: the start value first when
    [x0] is None, then one per step. *)
Definition ar1_sim (alpha : R) (N : Z) (sigma : R) (x0 : option R)
  (randn : nat -> R) : result (list R) :=
  if (N <? 0)%Z then Raise ValueError
  else
    let first := match x0 with Some _ => 0%nat | None => 1%nat end in
    let x0 := match x0 with Some v => v | None => randn 0%nat end in
    if (N =? 0)%Z then Raise IndexError
    else Ok (x0 :: ar1_loop alpha sigma x0
                     (map randn (seq first (Z.to_nat N - 1)))).

(** The entry of a matrix given by its rows, zero outside. *)
Definition entry (m : list (list R)) (y t : nat) : R := nth t (nth y m []) 0.

(** A matrix of [P] rows of [n] entries each. *)
Definition has_shape {A : Type} (m : list (list A)) (P n : nat) : Prop :=
  length m = P /\ Forall (fun row => length row = n) m.

(** The modulus of the five-point example transform. *)
Definition modulus_2x5 : list (list R) :=
  [[5 / 4; 5; 5 / 4; 5 / 4; 5 / 4]; [5 / 4; 5 / 4; 45 / 4; 5 / 4; 5 / 4]].

(** Three rows at period 10 at the start of the record. *)
Definition rd_outside_coi : RidgeData :=
  mkRidgeData [0; 1; 2] [10; 10; 10] [0; 0; 0] [1; 1; 1] [1; 1; 1]
    [1 / 10; 1 / 10; 1 / 10].

(** A transform of three periods over two time points. *)
Definition wlet_3x2 : list (list complex) :=
  [[(1, 0); (0, 1)]; [(2, 0); (0, 2)]; [(1, 1); (1, 1)]].

(** The window length [sliding_window_amplitude] works with: an even
    request is raised by one. *)
Definition odd_window (window_size : Z) : Z :=
  if negb (window_size mod 2 =? 1)%Z then (window_size + 1)%Z else window_size.

(** ** The continuous wavelet transform (CWTEngine) *)

(** [int(x)] on a float: truncation toward zero. *)
Definition trunc (r : R) : Z :=
  if Rlt_dec r 0 then (- Int_part (- r))%Z else Int_part r.

(** The smallest integer not below [r]. *)
Definition Rceil (r : R) : Z := (- Int_part (- r))%Z.

(** [np.arange(lo, hi)] with step one: ceil(hi - lo) values from [lo]. *)
Definition arange_R (lo hi : R) : list R :=
  map (fun k => lo + INR k) (seq 0 (Z.to_nat (Rceil (hi - lo)))).

Definition Czero : complex := (0, 0).

Definition Csum (l : list complex) : complex := fold_right Cadd Czero l.

(** The full discrete convolution: entry k sums a[j] * v[k - j]. *)
Definition convolve_full (a v : list complex) : list complex :=
  map (fun k =>
         Csum (map (fun j => Cmul (nth j a Czero) (nth (k - j) v Czero))
                 (seq 0 (S k))))
      (seq 0 (length a + length v - 1)).

(** [np.convolve(a, v, mode="same")]: the centred part of the full
    convolution, as long as the longer argument; an empty argument is a
    ValueError. *)
Definition convolve_same (a v : list complex) : result (list complex) :=
  match a, v with
  | [], _ | _, [] => Raise ValueError
  | _, _ =>
      let n := Nat.max (length a) (length v) in
      let m := Nat.min (length a) (length v) in
      Ok (firstn n (skipn ((m - 1) / 2) (convolve_full a v)))
  end.

(** The sample offsets at which [CWT] evaluates the wavelet of one scale. *)
Definition cwt_support (n : nat) (scale : R) (clip_support : bool) : list R :=
  let y0 := gauss_envelope 0 scale in
  let x_max :=
    if clip_support
    then IZR (trunc (inverse_gauss (y0 / peak_fraction) scale))
    else INR n / 2 in
  if Rgtb (2 * x_max) (INR n)
  then arange_R (- INR n / 2) (INR n / 2)
  else arange_R (- x_max) x_max.

(** One pass of the loop of [CWT]: the row of one scale, stored into a row
    of the output of the length of the signal. *)
Definition cwt_row (signal : list R) (wavelet : R -> R -> complex)
  (clip_support : bool) (scale : R) : result (list complex) :=
  let vec := cwt_support (length signal) scale clip_support in
  let wavelet_data := map (fun t => wavelet t scale) vec in
  row <- convolve_same (map (fun x => (x, 0)) signal) wavelet_data ;;
  if Nat.eqb (length row) (length signal) then Ok row else Raise ValueError.

(** [CWT(signal, wavelet, scales, clip_support)] for a complex wavelet. *)
Definition CWT (signal : list R) (wavelet : R -> R -> complex)
  (scales : list R) (clip_support : bool) : result (list (list complex)) :=
  mapM (cwt_row signal wavelet clip_support) scales.

(** What [compute_spectrum] returns, with the two warnings it may print. *)
Record spectrum : Type := mkSpectrum {
  sp_modulus : list (list R);
  sp_wlet : list (list complex);
  sp_warn_nyquist : bool;
  sp_warn_long : bool
}.

(** [compute_spectrum(signal, dt, periods)]. *)
Definition compute_spectrum (signal : list R) (dt : R) (periods : list R)
  : result spectrum :=
  p0 <- Np.getitem periods 0 ;;
  let warn_nyquist := Rltb p0 (2 * dt) in
  let mu := Np.mean signal in
  let signal := map (fun x => x - mu) signal in
  sfreq <- (if Reqb dt 0 then Raise ZeroDivisionError else Ok (1 / dt)) ;;
  let scales := scales_from_periods periods sfreq omega0 in
  let mx_per := dt * INR (length signal) in
  let warn_long := Rgtb (list_max periods) mx_per in
  wlet <- CWT signal (Morlet omega0) scales true ;;
  let sig2 := Np.var signal in
  let modulus := map (map (fun z => Cabs z ^ 2 / sig2)) wlet in
  Ok (mkSpectrum modulus wlet warn_nyquist warn_long).

(** The value of a call that returned, transformed. *)
Definition result_map {A B : Type} (f : A -> B) (r : result A) : result B :=
  match r with Ok x => Ok (f x) | Raise e => Raise e end.

(** ** The Fourier spectrum *)

(** [rfft(x, norm="ortho")]: the first n // 2 + 1 terms of the discrete
    Fourier transform, sum over m of x[m] exp(-2 pi i k m / n), scaled by
    1 / sqrt(n). *)
Definition rfft_ortho (x : list R) : list complex :=
  let n := length x in
  map (fun k =>
         Cscale (1 / sqrt (INR n))
           (Csum (map (fun m =>
                         Cscale (nth m x 0)
                           (Cexp_i (- 2 * PI * INR k * INR m / INR n)))
                    (seq 0 n))))
      (seq 0 (n / 2 + 1)).

(** [rfftfreq(n, d)]: the frequencies k / (n d) for k up to n // 2. *)
Definition rfftfreq (n : nat) (d : R) : list R :=
  let val := 1 / (INR n * d) in
  map (fun k => INR k * val) (seq 0 (n / 2 + 1)).

(** [compute_fourier(signal, dt)]. *)
Definition compute_fourier (signal : list R) (dt : R)
  : result (list R * list R) :=
  let N := length signal in
  if Reqb (INR N * dt) 0 then Raise ZeroDivisionError
  else
    let rf := rfft_ortho signal in
    let fft_freqs := rfftfreq (length signal) dt in
    let fpower := map (fun z => Cabs z ^ 2 / Np.var signal) rf in
    Ok (fft_freqs, fpower).

(** * Properties *)

(** ** The array model on small inputs *)

Example getitem_from_end : Np.getitem [10; 20; 30]%Z (-1) = Ok 30%Z.
Proof. reflexivity. Qed.

Example getitem_out_of_range : Np.getitem [10; 20; 30]%Z 3 = Raise IndexError.
Proof. reflexivity. Qed.

Example mask_index_mismatch :
  Np.mask_index [1; 2; 3]%Z [true; false] = Raise IndexError.
Proof. reflexivity. Qed.

Example rev_slice_front_example :
  Slice.rev_slice [0; 1; 2; 3; 4]%Z 2 0 = [2; 1]%Z.
Proof. reflexivity. Qed.

Example rev_slice_back_example :
  Slice.rev_slice [0; 1; 2; 3; 4]%Z (-1) (-3) = [4; 3]%Z.
Proof. reflexivity. Qed.

Example incr_two : Anneal.incr 2 = [-2; -1; 1; 2]%Z.
Proof. reflexivity. Qed.

Example shrunk_window_odd : shrunk_window 5 7 = Some 5%Z.
Proof. reflexivity. Qed.

Example shrunk_window_even : shrunk_window 6 7 = Some 5%Z.
Proof. reflexivity. Qed.

Example shrunk_window_unbound : shrunk_window 9 7 = None.
Proof. reflexivity. Qed.

Example propose_upper_edge : Anneal.propose 5 2 2 0 = Ok (-1)%Z.
Proof. reflexivity. Qed.

Example propose_lower_edge : Anneal.propose 6 2 1 0 = Ok 1%Z.
Proof. reflexivity. Qed.

Example propose_inside : Anneal.propose 7 2 2 3 = Ok 2%Z.
Proof. reflexivity. Qed.

(** ** ScaleConverter *)

Lemma admissible_factor_pos (w0 : R) : 0 < w0 + sqrt (2 + w0 ^ 2).
Proof.
  assert (Hsq : 0 <= w0 ^ 2) by apply pow2_ge_0.
  assert (Hlt : sqrt (w0 ^ 2) < sqrt (2 + w0 ^ 2)).
  { apply sqrt_lt_1; lra. }
  replace (w0 ^ 2) with (w0²) in Hlt at 1 by (unfold Rsqr; ring).
  rewrite sqrt_Rsqr_abs in Hlt.
  pose proof (Rle_abs (- w0)) as Habs.
  rewrite Rabs_Ropp in Habs.
  lra.
Qed.

Lemma scale_of_period_increasing (sfreq w0 p q : R) :
  0 < sfreq -> p < q -> scale_of_period p sfreq w0 < scale_of_period q sfreq w0.
Proof.
  intros Hs Hpq.
  unfold scale_of_period.
  pose proof (admissible_factor_pos w0) as Hc.
  pose proof PI_RGT_0 as Hpi.
  apply Rmult_lt_compat_r.
  - apply Rinv_0_lt_compat; lra.
  - apply Rmult_lt_compat_r; [exact Hs|].
    apply Rmult_lt_compat_l; assumption.
Qed.

(** C7: [scales_from_periods] maps every period to
    (omega0 + sqrt(2 + omega0^2)) * period * sfreq / (4 pi), and for a
    positive sampling frequency a larger period has a strictly larger
    scale, entry by entry of the returned array. *)
Theorem scales_from_periods_increasing (periods : list R) (sfreq w0 : R) :
  0 < sfreq ->
  scales_from_periods periods sfreq w0
  = map (fun p => (w0 + sqrt (2 + w0 ^ 2)) * p * sfreq / (4 * PI)) periods
  /\ length (scales_from_periods periods sfreq w0) = length periods
  /\ (forall p q, p < q ->
        scale_of_period p sfreq w0 < scale_of_period q sfreq w0)
  /\ (forall i j, (i < length periods)%nat -> (j < length periods)%nat ->
        nth i periods 0 < nth j periods 0 ->
        nth i (scales_from_periods periods sfreq w0) 0
        < nth j (scales_from_periods periods sfreq w0) 0).
Proof.
  intros Hs.
  split; [reflexivity|].
  split; [apply length_map|].
  split; [intros p q; apply scale_of_period_increasing; exact Hs|].
  intros i j Hi Hj Hlt.
  unfold scales_from_periods.
  rewrite !(nth_indep _ 0 (scale_of_period 0 sfreq w0))
    by (rewrite length_map; assumption).
  rewrite !(map_nth (fun p => scale_of_period p sfreq w0)).
  apply scale_of_period_increasing; assumption.
Qed.

Lemma scales_from_periods_increasing_witness :
  0 < 1
  /\ nth 0 (scales_from_periods [10; 20; 40] 1 omega0) 0
     < nth 2 (scales_from_periods [10; 20; 40] 1 omega0) 0.
Proof.
  split; [lra|].
  apply (scales_from_periods_increasing [10; 20; 40] 1 omega0); simpl; try lia; lra.
Defined.

(** ** Cone-of-influence crossing *)

(** Case analysis on the integer comparisons of a goal, innermost first. *)
Ltac no_if t :=
  lazymatch t with
  | context [if _ then _ else _] => fail
  | _ => idtac
  end.

Ltac zcases :=
  repeat match goal with
         | |- context [(?a >=? ?b)%Z] => rewrite (Z.geb_leb a b)
         | |- context [(?a >? ?b)%Z] => rewrite (Z.gtb_ltb a b)
         | |- context [(?a <? ?b)%Z] =>
             no_if a; no_if b; destruct (Z.ltb_spec a b)
         | |- context [(?a <=? ?b)%Z] =>
             no_if a; no_if b; destruct (Z.leb_spec a b)
         | |- context [(?a =? ?b)%Z] =>
             no_if a; no_if b; destruct (Z.eqb_spec a b)
         end;
  cbn [andb orb negb]; try lia.

Lemma getitem_nil {A : Type} (i : Z) : Np.getitem (@nil A) i = Raise IndexError.
Proof.
  unfold Np.getitem; simpl length; zcases; try reflexivity.
Qed.

Lemma compress_all_false {A : Type} (mask : list bool) (a : list A) :
  existsb (fun b => b) mask = false -> Np.compress mask a = [].
Proof.
  revert a; induction mask as [|m ms IH]; intros a H; [reflexivity|].
  simpl in H. apply orb_false_iff in H as [Hm Hms].
  subst m. destruct a as [|x xs]; [reflexivity|].
  simpl. apply IH; exact Hms.
Qed.

Lemma compress_some_true {A : Type} (mask : list bool) (a : list A) :
  length mask = length a -> existsb (fun b => b) mask = true ->
  Np.compress mask a <> [].
Proof.
  revert a; induction mask as [|m ms IH]; intros a Hlen H; [discriminate|].
  destruct a as [|x xs]; [discriminate|].
  simpl. destruct m; [discriminate|].
  simpl in H. apply IH; [simpl in Hlen; lia | exact H].
Qed.

Lemma getitem_first {A : Type} (x : A) (xs : list A) :
  Np.getitem (x :: xs) 0 = Ok x.
Proof.
  unfold Np.getitem.
  change (0 <? 0)%Z with false. cbv beta iota zeta.
  assert (H : ((0 <=? 0)%Z && (0 <? Z.of_nat (length (x :: xs)))%Z)%bool = true).
  { simpl length. zcases; try reflexivity. }
  rewrite H. reflexivity.
Qed.

Lemma getitem_last {A : Type} (a : list A) (x : A) :
  Np.getitem (a ++ [x]) (-1) = Ok x.
Proof.
  unfold Np.getitem.
  change (-1 <? 0)%Z with true. cbv beta iota zeta.
  rewrite length_app; simpl length.
  replace (-1 + Z.of_nat (length a + 1))%Z with (Z.of_nat (length a)) by lia.
  assert (H : ((0 <=? Z.of_nat (length a))%Z
               && (Z.of_nat (length a) <? Z.of_nat (length a + 1))%Z)%bool = true).
  { zcases; try reflexivity. }
  rewrite H, Nat2Z.id.
  rewrite nth_error_app2 by lia.
  rewrite Nat.sub_diag. reflexivity.
Qed.

Lemma getitem_last_ok {A : Type} (a : list A) :
  a <> [] -> exists x, Np.getitem a (-1) = Ok x.
Proof.
  intros Hne.
  destruct (exists_last Hne) as [a' [x ->]].
  exists x. apply getitem_last.
Qed.

Lemma zip_with_length {A B C : Type} (f : A -> B -> C) (a : list A) (b : list B) :
  length a = length b -> length (Np.zip_with f a b) = length a.
Proof.
  revert b; induction a as [|x xs IH]; intros [|y ys] H; simpl in *;
    try reflexivity; try discriminate.
  f_equal. apply IH. lia.
Qed.

Lemma arange_length (n : nat) : length (Np.arange n) = n.
Proof. unfold Np.arange. rewrite length_map, length_seq. reflexivity. Qed.

(** Both selections non-empty: the pair is returned. *)
Lemma find_COI_crossing_returns (rd : RidgeData) :
  table_ok rd ->
  existsb (fun b => b) (coi_left_mask rd) = true ->
  existsb (fun b => b) (coi_right_mask rd) = true ->
  exists t_left t_right, find_COI_crossing rd = Ok (t_left, t_right).
Proof.
  intros Hok Hl Hr.
  unfold find_COI_crossing.
  assert (Hll : length (coi_left_mask rd) = length (Np.arange (nrows rd))).
  { unfold coi_left_mask, nrows. rewrite arange_length.
    rewrite zip_with_length; rewrite length_map; [reflexivity|].
    symmetry; exact Hok. }
  assert (Hlr : length (coi_right_mask rd) = length (Np.arange (nrows rd))).
  { unfold coi_right_mask, nrows. rewrite arange_length.
    rewrite zip_with_length; rewrite length_map, length_rev; [reflexivity|].
    symmetry; exact Hok. }
  destruct (getitem_last_ok _ (compress_some_true _ _ Hll Hl)) as [tl Htl].
  rewrite Htl. simpl.
  pose proof (compress_some_true _ _ Hlr Hr) as Hne.
  destruct (Np.compress (coi_right_mask rd) (Np.arange (nrows rd)))
    as [|tr rest] eqn:Hc; [contradiction|].
  rewrite getitem_first. simpl.
  exists tl, tr. reflexivity.
Qed.

(** C10: [find_COI_crossing] is partial.  When no row of the ridge data is
    selected as outside the left cone of influence, or none as outside the
    right one, indexing the empty selection raises IndexError and no
    (t_left, t_right) pair is returned. *)
Theorem find_COI_crossing_partial (rd : RidgeData) :
  existsb (fun b => b) (coi_left_mask rd) = false
  \/ existsb (fun b => b) (coi_right_mask rd) = false ->
  find_COI_crossing rd = Raise IndexError.
Proof.
  intros H.
  unfold find_COI_crossing.
  destruct (existsb (fun b => b) (coi_left_mask rd)) eqn:Hl.
  - destruct H as [H|H]; [discriminate|].
    destruct (Np.getitem (Np.compress (coi_left_mask rd) (Np.arange (nrows rd))) (-1))
      as [tl|e] eqn:Htl.
    + simpl. rewrite (compress_all_false _ _ H), getitem_nil. reflexivity.
    + simpl.
      unfold Np.getitem in Htl.
      repeat match type of Htl with
             | context [if ?c then _ else _] => destruct c
             | context [match ?c with _ => _ end] => destruct c
             end; try discriminate; inversion Htl; reflexivity.
  - rewrite (compress_all_false _ _ Hl), getitem_nil. reflexivity.
Qed.

Lemma Morlet_COI_lower : 2 / 5 < Morlet_COI omega0.
Proof.
  unfold Morlet_COI, omega0.
  pose proof PI2_3_2 as Hlo. unfold PI2 in Hlo.
  pose proof PI_4 as Hhi.
  pose proof (admissible_factor_pos (2 * PI)) as Hpos.
  assert (H2 : sqrt 2 < 3 / 2).
  { replace (3 / 2) with (sqrt ((3 / 2) * (3 / 2))).
    - apply sqrt_lt_1; lra.
    - rewrite sqrt_square; lra. }
  assert (Hs2 : 0 < sqrt 2) by (apply sqrt_lt_R0; lra).
  assert (H9 : sqrt (2 + (2 * PI) ^ 2) < 9).
  { replace 9 with (sqrt (9 * 9)) by (rewrite sqrt_square; lra).
    apply sqrt_lt_1; nra. }
  set (d := sqrt 2 * (2 * PI + sqrt (2 + (2 * PI) ^ 2))).
  assert (Hd : 0 < d) by (unfold d; apply Rmult_lt_0_compat; assumption).
  assert (Hd' : d < 26) by (unfold d; nra).
  assert (Hinv : / 26 < / d) by (apply Rinv_lt_contravar; nra).
  unfold Rdiv.
  apply Rlt_trans with (12 * / 26); [lra|].
  apply Rmult_gt_0_lt_compat.
  - apply Rinv_0_lt_compat; lra.
  - lra.
  - lra.
  - exact Hinv.
Qed.

Lemma find_COI_crossing_partial_witness :
  find_COI_crossing rd_inside_coi = Raise IndexError.
Proof.
  apply find_COI_crossing_partial.
  left.
  pose proof Morlet_COI_lower as Hm.
  unfold coi_left_mask, rd_inside_coi; simpl.
  unfold Rgtb.
  destruct (Rgt_dec (Morlet_COI omega0 * 50) 10) as [_|Hn]; [|exfalso; lra].
  destruct (Rgt_dec (Morlet_COI omega0 * 51) 10) as [_|Hn]; [|exfalso; lra].
  reflexivity.
Defined.

(** ** Indexing lemmas *)

Lemma getitem_ok {A : Type} (a : list A) (i : Z) :
  valid_index (length a) i ->
  exists x, Np.getitem a i = Ok x /\ In x a.
Proof.
  unfold valid_index, Np.getitem. intros Hi.
  set (j := if (i <? 0)%Z then (i + Z.of_nat (length a))%Z else i).
  assert (Hj : (0 <= j < Z.of_nat (length a))%Z).
  { unfold j. destruct (Z.ltb_spec i 0); lia. }
  assert (Hb : ((0 <=? j)%Z && (j <? Z.of_nat (length a))%Z)%bool = true).
  { apply andb_true_iff; split; [apply Z.leb_le | apply Z.ltb_lt]; lia. }
  rewrite Hb.
  destruct (nth_error a (Z.to_nat j)) as [x|] eqn:Hn.
  - exists x. split; [reflexivity|]. eapply nth_error_In; eassumption.
  - apply nth_error_None in Hn. lia.
Qed.

Lemma take_ok {A : Type} (a : list A) (idx : list Z) :
  Forall (valid_index (length a)) idx ->
  exists l, Np.take a idx = Ok l /\ length l = length idx.
Proof.
  induction 1 as [|i rest Hi _ IH]; simpl.
  - exists []. split; reflexivity.
  - destruct (getitem_ok a i Hi) as [x [Hx _]].
    destruct IH as [l [Hl Hlen]].
    rewrite Hx, Hl. simpl.
    exists (x :: l). split; [reflexivity | simpl; congruence].
Qed.

Lemma gather_pairs_ok {A : Type} (m : list (list A)) (n : nat) :
  Forall (fun row => length row = n) m ->
  forall rows cols,
    Forall (valid_index (length m)) rows ->
    Forall (valid_index n) cols ->
    length rows = length cols ->
    exists l, Np.gather_pairs m rows cols = Ok l /\ length l = length rows.
Proof.
  intros Hrect rows.
  induction rows as [|r rs IH]; intros cols Hr Hc Hlen.
  - exists []. split; reflexivity.
  - destruct cols as [|c cs]; [discriminate|].
    inversion Hr as [|? ? Hr1 Hr2]; subst.
    inversion Hc as [|? ? Hc1 Hc2]; subst.
    destruct (getitem_ok m r Hr1) as [row [Hrow Hin]].
    assert (Hrl : length row = n).
    { rewrite Forall_forall in Hrect. apply Hrect; exact Hin. }
    rewrite <- Hrl in Hc1.
    destruct (getitem_ok row c Hc1) as [x [Hx _]].
    destruct (IH cs Hr2 Hc2) as [l [Hl Hll]]; [simpl in Hlen; lia|].
    simpl. rewrite Hrow. simpl. rewrite Hx. simpl. rewrite Hl. simpl.
    exists (x :: l). split; [reflexivity | simpl; congruence].
Qed.

Lemma arange_valid (n : nat) : Forall (valid_index n) (Np.arange n).
Proof.
  unfold Np.arange. apply Forall_forall. intros z Hz.
  apply in_map_iff in Hz as [k [<- Hk]].
  apply in_seq in Hk. unfold valid_index. lia.
Qed.

Lemma fancy2_ok {A : Type} (m : list (list A)) (n : nat) (rows : list Z) :
  Forall (fun row => length row = n) m ->
  Forall (valid_index (length m)) rows ->
  length rows = n ->
  exists l, Np.fancy2 m rows (Np.arange n) = Ok l /\ length l = n.
Proof.
  intros Hrect Hrows Hlen.
  unfold Np.fancy2, Np.broadcast2.
  rewrite arange_length, Hlen, Nat.eqb_refl. simpl.
  destruct (gather_pairs_ok m n Hrect rows (Np.arange n) Hrows (arange_valid n))
    as [l [Hl Hll]].
  - rewrite arange_length; exact Hlen.
  - exists l. split; [exact Hl | congruence].
Qed.

Lemma mask_index_ok {A : Type} (a : list A) (mask : list bool) :
  length mask = length a -> Np.mask_index a mask = Ok (Np.compress mask a).
Proof.
  intros H. unfold Np.mask_index. rewrite H, Nat.eqb_refl. reflexivity.
Qed.

Lemma argmax_from_bound (a : list R) :
  forall best besti i n,
    (besti < n)%nat -> (i + length a = n)%nat ->
    (argmax_from best besti i a < n)%nat.
Proof.
  induction a as [|x xs IH]; intros best besti i n Hb Hn; simpl.
  - exact Hb.
  - simpl in Hn. destruct (Rgtb x best); apply IH; lia.
Qed.

Lemma nanargmax_ok (a : list R) :
  a <> [] ->
  exists i, nanargmax a = Ok i /\ valid_index (length a) i.
Proof.
  destruct a as [|x xs]; [congruence|]. intros _.
  eexists. split; [reflexivity|].
  pose proof (argmax_from_bound xs x 0%nat 1%nat (length (x :: xs))) as H.
  unfold valid_index. simpl length in *. lia.
Qed.

(** ** Ridge evaluation *)

Lemma shape1_rect {A : Type} (m : list (list A)) (n : nat) :
  m <> [] -> Forall (fun row => length row = n) m -> Np.shape1 m = n.
Proof.
  destruct m as [|row rest]; [congruence|].
  intros _ H. inversion H; subst. reflexivity.
Qed.

Lemma map_map_rect {A B : Type} (f : A -> B) (m : list (list A)) (n : nat) :
  Forall (fun row => length row = n) m ->
  Forall (fun row => length row = n) (map (map f) m).
Proof.
  intros H. apply Forall_forall. intros row Hin.
  apply in_map_iff in Hin as [row0 [<- Hin0]].
  rewrite length_map. rewrite Forall_forall in H. apply H; exact Hin0.
Qed.

(** On well-formed inputs every indexing step of [eval_ridge] succeeds; what
    is left is the optional smoothing and the assembly of the table. *)
Lemma eval_ridge_unfold
  (savgol_filter : list R -> Z -> Z -> result (list R))
  (ridge_y : list Z) (wlet : list (list complex))
  (signal periods tvec : list R) (power_thresh : R) (sw : option Z) :
  ridge_inputs_ok ridge_y wlet periods tvec ->
  exists t0 t1 ridge_per ridge_z ridge_power,
    Np.getitem tvec 0 = Ok t0 /\ Np.getitem tvec 1 = Ok t1
    /\ Np.take periods ridge_y = Ok ridge_per
    /\ length ridge_per = length tvec
    /\ Np.fancy2 wlet ridge_y (Np.arange (length tvec)) = Ok ridge_z
    /\ ridge_power_of ridge_y wlet signal = Ok ridge_power
    /\ length ridge_power = length tvec
    /\ eval_ridge savgol_filter ridge_y wlet signal periods tvec power_thresh sw
       = (let inds := map (fun p => Rgtb p power_thresh) ridge_power in
          sign_per <-
            match sw with
            | None => Ok (Np.compress inds ridge_per)
            | Some wsize =>
                smoothed <- savgol_filter ridge_per wsize 3%Z ;;
                Np.mask_index smoothed inds
            end ;;
          Ok (mkRidgeData
                (Np.compress inds tvec) sign_per
                (map (fun a => fmod a (2 * PI))
                     (Np.compress inds (map angle ridge_z)))
                (power_to_amplitude (Np.compress inds ridge_per)
                   (Np.compress inds ridge_power)
                   (sqrt (Np.var signal)) (t1 - t0))
                (Np.compress inds ridge_power)
                (map (fun p => 1 / p) sign_per))).
Proof.
  intros [Hrows Hrect Htvec Hlen Hidx Hper].
  set (n := length tvec) in *.
  destruct (getitem_ok tvec 0) as [t0 [Ht0 _]]; [unfold valid_index; lia|].
  destruct (getitem_ok tvec 1) as [t1 [Ht1 _]]; [unfold valid_index; lia|].
  assert (Hidx' : Forall (valid_index (length periods)) ridge_y)
    by (rewrite Hper; exact Hidx).
  destruct (take_ok periods ridge_y Hidx') as [ridge_per [Hrp Hrpl]].
  destruct (fancy2_ok wlet n ridge_y Hrect Hidx Hlen) as [ridge_z [Hrz Hrzl]].
  set (f := fun z : complex => Cabs z ^ 2 / Np.var signal).
  assert (Hmrect : Forall (fun row => length row = n) (map (map f) wlet))
    by (apply map_map_rect; exact Hrect).
  assert (Hmidx : Forall (valid_index (length (map (map f) wlet))) ridge_y)
    by (rewrite length_map; exact Hidx).
  destruct (fancy2_ok (map (map f) wlet) n ridge_y Hmrect Hmidx Hlen)
    as [ridge_power [Hpw Hpwl]].
  assert (Hshape : Np.shape1 (map (map f) wlet) = n).
  { apply shape1_rect; [|exact Hmrect].
    destruct wlet; [congruence | discriminate]. }
  exists t0, t1, ridge_per, ridge_z, ridge_power.
  repeat split; try assumption; try congruence.
  - unfold ridge_power_of. fold f. rewrite Hshape. exact Hpw.
  - unfold eval_ridge. fold f.
    rewrite Ht1, Ht0, Hrp, Hshape, Hrz, Hpw.
    cbv beta iota zeta delta [bind].
    set (inds := map (fun p => Rgtb p power_thresh) ridge_power).
    assert (Hil : length inds = n) by (unfold inds; rewrite length_map; exact Hpwl).
    rewrite (mask_index_ok ridge_per inds) by congruence.
    rewrite (mask_index_ok tvec inds) by exact Hil.
    rewrite (mask_index_ok (map angle ridge_z) inds)
      by (rewrite length_map; congruence).
    rewrite (mask_index_ok ridge_power inds) by congruence.
    assert (Hne : ridge_power <> []).
    { intros ->. simpl in Hpwl. lia. }
    destruct (nanargmax_ok ridge_power Hne) as [imax [Him Hiv]].
    assert (Hiv' : valid_index (length ridge_per) imax)
      by (rewrite Hrpl, Hlen, <- Hpwl; exact Hiv).
    destruct (getitem_ok ridge_per imax Hiv') as [mp [Hmp _]].
    destruct sw as [wsize|].
    + destruct (savgol_filter ridge_per wsize 3%Z) as [smoothed|e]; [|reflexivity].
      destruct (Np.mask_index smoothed inds) as [sp|e]; [|reflexivity].
      rewrite Him, Hmp. reflexivity.
    + rewrite Him, Hmp. reflexivity.
Qed.

Lemma compress_pairs {A B : Type} (f : B -> bool) (a : list A) (b : list B) :
  length a = length b ->
  combine (Np.compress (map f b) a) (Np.compress (map f b) b)
  = filter (fun tp => f (snd tp)) (combine a b).
Proof.
  revert b; induction a as [|x xs IH]; intros [|y ys] H; simpl in *;
    try reflexivity; try discriminate.
  destruct (f y); simpl; rewrite IH by lia; reflexivity.
Qed.

Lemma compress_map_filter {B : Type} (f : B -> bool) (b : list B) :
  Np.compress (map f b) b = filter f b.
Proof.
  induction b as [|y ys IH]; simpl; [reflexivity|].
  destruct (f y); rewrite IH; reflexivity.
Qed.

Lemma compress_length {A B : Type} (mask : list bool) (a : list A) (b : list B) :
  length a = length mask -> length b = length mask ->
  length (Np.compress mask a) = length (Np.compress mask b).
Proof.
  revert a b; induction mask as [|m ms IH]; intros [|x xs] [|y ys] Ha Hb;
    simpl in *; try reflexivity; try discriminate.
  destruct m; simpl; rewrite (IH xs ys) by lia; reflexivity.
Qed.

Lemma Rgtb_true (x y : R) : Rgtb x y = true <-> y < x.
Proof.
  unfold Rgtb. destruct (Rgt_dec x y) as [H|H]; split; intros H'.
  - exact H.
  - reflexivity.
  - discriminate.
  - contradiction.
Qed.

Lemma Rgtb_false (x y : R) : Rgtb x y = false <-> x <= y.
Proof.
  unfold Rgtb. destruct (Rgt_dec x y) as [H|H]; split; intros H'.
  - discriminate.
  - unfold Rgt in H. lra.
  - unfold Rgt in H. lra.
  - reflexivity.
Qed.

Lemma mask_all_below (thresh : R) (powers : list R) :
  (forall p, In p powers -> p <= thresh) ->
  existsb (fun b => b) (map (fun p => Rgtb p thresh) powers) = false.
Proof.
  induction powers as [|p ps IH]; intros H; simpl; [reflexivity|].
  apply orb_false_iff. split.
  - apply Rgtb_false. apply H. left; reflexivity.
  - apply IH. intros q Hq. apply H. right; exact Hq.
Qed.

Lemma power_to_amplitude_length (periods powers : list R) (s dt : R) :
  length periods = length powers ->
  length (power_to_amplitude periods powers s dt) = length powers.
Proof.
  intros H. unfold power_to_amplitude, scales_from_periods.
  rewrite zip_with_length; [reflexivity|].
  rewrite !length_map. symmetry; exact H.
Qed.

(** C4: on well-formed inputs and for a signal of positive variance
    [eval_ridge] returns a table whose (time, power) rows are, in order,
    exactly the time points whose ridge power is strictly above
    [power_thresh]; a point whose power equals the threshold is not among
    them; all columns have one length; and when the threshold is at or above
    every ridge power the call still returns, with the table without rows.
    The variance is positive because the powers are quotients by it: for a
    constant or empty signal numpy's powers are not numbers. *)
Theorem eval_ridge_threshold
  (savgol_filter : list R -> Z -> Z -> result (list R))
  (ridge_y : list Z) (wlet : list (list complex))
  (signal periods tvec : list R) (power_thresh : R) (sw : option Z) :
  0 < Np.var signal ->
  ridge_inputs_ok ridge_y wlet periods tvec ->
  smoothing_succeeds savgol_filter sw (length tvec) ->
  exists ridge_power rd,
    ridge_power_of ridge_y wlet signal = Ok ridge_power
    /\ length ridge_power = length tvec
    /\ eval_ridge savgol_filter ridge_y wlet signal periods tvec power_thresh sw
       = Ok rd
    /\ combine (rd_time rd) (rd_power rd)
       = filter (fun tp => Rgtb (snd tp) power_thresh) (combine tvec ridge_power)
    /\ rd_power rd = filter (fun p => Rgtb p power_thresh) ridge_power
    /\ (forall t p, In (t, p) (combine (rd_time rd) (rd_power rd)) <->
          In (t, p) (combine tvec ridge_power) /\ power_thresh < p)
    /\ (forall t, ~ In (t, power_thresh) (combine (rd_time rd) (rd_power rd)))
    /\ (length (rd_periods rd) = nrows rd /\ length (rd_phase rd) = nrows rd
        /\ length (rd_amplitude rd) = nrows rd /\ length (rd_power rd) = nrows rd
        /\ length (rd_frequencies rd) = nrows rd)
    /\ ((forall p, In p ridge_power -> p <= power_thresh) ->
        rd = empty_ridge_data /\ nrows rd = 0%nat).
Proof.
  intros _ Hok Hsm.
  destruct (eval_ridge_unfold savgol_filter ridge_y wlet signal periods tvec
              power_thresh sw Hok)
    as (t0 & t1 & ridge_per & ridge_z & ridge_power
        & Ht0 & Ht1 & Hrp & Hrpl & Hrz & Hpw & Hpwl & Heval).
  set (inds := map (fun p => Rgtb p power_thresh) ridge_power) in *.
  assert (Hil : length inds = length tvec)
    by (unfold inds; rewrite length_map; exact Hpwl).
  assert (Hsp : exists sign_per,
             match sw with
             | None => Ok (Np.compress inds ridge_per)
             | Some wsize =>
                 smoothed <- savgol_filter ridge_per wsize 3%Z ;;
                 Np.mask_index smoothed inds
             end = Ok sign_per
             /\ exists src, length src = length tvec
                            /\ sign_per = Np.compress inds src).
  { destruct sw as [wsize|].
    - destruct (Hsm ridge_per Hrpl) as [y [Hy Hyl]].
      rewrite Hy. simpl. rewrite mask_index_ok by congruence.
      exists (Np.compress inds y). split; [reflexivity|].
      exists y. split; [exact Hyl | reflexivity].
    - exists (Np.compress inds ridge_per). split; [reflexivity|].
      exists ridge_per. split; [exact Hrpl | reflexivity]. }
  destruct Hsp as [sign_per [Hsp [src [Hsrcl ->]]]].
  cbv zeta in Heval. rewrite Hsp in Heval. simpl bind in Heval.
  assert (Hrzl : length ridge_z = length tvec).
  { pose proof Hrz as Hrz'. unfold Np.fancy2 in Hrz'.
    destruct Hok as [_ Hrect _ Hlen Hidx _].
    destruct (fancy2_ok wlet (length tvec) ridge_y Hrect Hidx Hlen)
      as [l [Hl Hll]].
    unfold Np.fancy2 in Hl. rewrite Hl in Hrz'. inversion Hrz'; subst.
    exact Hll. }
  eexists ridge_power, _.
  split; [exact Hpw|]. split; [exact Hpwl|]. split; [exact Heval|].
  cbn [rd_time rd_power rd_periods rd_phase rd_amplitude rd_frequencies nrows].
  assert (Hpairs : combine (Np.compress inds tvec) (Np.compress inds ridge_power)
                   = filter (fun tp => Rgtb (snd tp) power_thresh)
                       (combine tvec ridge_power)).
  { unfold inds.
    apply (compress_pairs (fun p => Rgtb p power_thresh) tvec ridge_power).
    congruence. }
  split; [exact Hpairs|].
  split; [unfold inds; apply (compress_map_filter (fun p => Rgtb p power_thresh))|].
  split.
  { intros t p. rewrite Hpairs, filter_In. simpl.
    rewrite Rgtb_true. reflexivity. }
  split.
  { intros t Hin. rewrite Hpairs in Hin. apply filter_In in Hin as [_ Hgt].
    simpl in Hgt. apply Rgtb_true in Hgt. lra. }
  split.
  { repeat split.
    - apply compress_length; congruence.
    - rewrite length_map. apply compress_length;
        rewrite ?length_map; congruence.
    - rewrite power_to_amplitude_length.
      + apply compress_length; congruence.
      + apply compress_length; congruence.
    - apply compress_length; congruence.
    - rewrite length_map. apply compress_length; congruence. }
  intros Hall.
  pose proof (mask_all_below power_thresh ridge_power Hall) as Hnone.
  fold inds in Hnone.
  rewrite !(compress_all_false inds) by exact Hnone.
  split; reflexivity.
Qed.

Lemma ridge_inputs_ok_example :
  ridge_inputs_ok ridge_5 wlet_2x5 periods_2 tvec_5.
Proof.
  constructor; simpl.
  - discriminate.
  - repeat constructor.
  - lia.
  - reflexivity.
  - repeat constructor; unfold valid_index; simpl; lia.
  - reflexivity.
Qed.

Lemma var_signal_5 : Np.var signal_5 = 4 / 5.
Proof.
  unfold Np.var, Np.mean, signal_5. simpl. field.
Qed.

Lemma Cabs_sq (z : complex) : Cabs z ^ 2 = fst z ^ 2 + snd z ^ 2.
Proof.
  unfold Cabs. rewrite pow2_sqrt; [reflexivity|].
  pose proof (pow2_ge_0 (fst z)). pose proof (pow2_ge_0 (snd z)). lra.
Qed.

(** Equality of two explicit lists of reals, entry by entry. *)
Ltac list_eq :=
  repeat (apply (f_equal2 (@cons R)); [try field; try lra|]);
  try reflexivity.

Lemma ridge_power_example :
  ridge_power_of ridge_5 wlet_2x5 signal_5
  = Ok [5 / 4; 5; 45 / 4; 5 / 4; 5 / 4].
Proof.
  unfold ridge_power_of, ridge_5, wlet_2x5.
  cbn [map]. rewrite !Cabs_sq, var_signal_5. cbn [fst snd].
  unfold Np.fancy2, Np.broadcast2. simpl.
  f_equal. list_eq.
Qed.

Lemma ridge_per_example :
  Np.take periods_2 ridge_5 = Ok [10; 10; 20; 10; 10].
Proof. reflexivity. Qed.

Lemma Rgtb_lt (x y : R) : y < x -> Rgtb x y = true.
Proof. apply Rgtb_true. Qed.

Lemma Rgtb_le (x y : R) : x <= y -> Rgtb x y = false.
Proof. apply Rgtb_false. Qed.

(** With the threshold at the power of the second point, only the third
    point is kept; with the threshold at the largest power the table has no
    row. *)
Lemma eval_ridge_threshold_witness :
  0 < Np.var signal_5
  /\ ridge_inputs_ok ridge_5 wlet_2x5 periods_2 tvec_5
  /\ (exists rd,
        eval_ridge no_savgol ridge_5 wlet_2x5 signal_5 periods_2 tvec_5 5 None
        = Ok rd
        /\ combine (rd_time rd) (rd_power rd) = [(2, 45 / 4)])
  /\ eval_ridge no_savgol ridge_5 wlet_2x5 signal_5 periods_2 tvec_5 (45 / 4) None
     = Ok empty_ridge_data.
Proof.
  assert (Hvar : 0 < Np.var signal_5) by (rewrite var_signal_5; lra).
  split; [exact Hvar|].
  split; [exact ridge_inputs_ok_example|].
  split.
  - destruct (eval_ridge_threshold no_savgol ridge_5 wlet_2x5 signal_5
                periods_2 tvec_5 5 None Hvar ridge_inputs_ok_example I)
      as (ridge_power & rd & H1 & _ & H3 & H4 & _).
    exists rd. split; [exact H3|].
    rewrite ridge_power_example in H1. inversion H1; subst ridge_power.
    rewrite H4. unfold tvec_5. simpl.
    rewrite !(Rgtb_le (5 / 4) 5), (Rgtb_le 5 5), (Rgtb_lt (45 / 4) 5) by lra.
    reflexivity.
  - destruct (eval_ridge_threshold no_savgol ridge_5 wlet_2x5 signal_5
                periods_2 tvec_5 (45 / 4) None Hvar ridge_inputs_ok_example I)
      as (ridge_power & rd & H1 & _ & H3 & _ & _ & _ & _ & _ & H9).
    rewrite ridge_power_example in H1. inversion H1; subst ridge_power.
    rewrite H3. f_equal. apply H9.
    intros p Hp. simpl in Hp.
    destruct Hp as [<-|[<-|[<-|[<-|[<-|[]]]]]]; lra.
Defined.

Lemma savgol_five_succeeds : smoothing_succeeds savgol_five (Some 5%Z) 5.
Proof.
  intros x Hx.
  destruct x as [|a [|b [|c [|d [|e [|? ?]]]]]]; try discriminate.
  simpl. eexists. split; reflexivity.
Qed.

(** C9: for a signal of positive variance and with a smoothing window, the
    amplitude column is computed from the masked, unsmoothed ridge periods,
    exactly as without smoothing, while the periods column holds the masked
    smoothed trace; wherever smoothing moved a retained period the two
    columns of that table come from different period values.  The variance
    is positive because the powers are quotients by it. *)
Theorem eval_ridge_amplitude_unsmoothed
  (savgol_filter : list R -> Z -> Z -> result (list R))
  (ridge_y : list Z) (wlet : list (list complex))
  (signal periods tvec : list R) (power_thresh : R) (wsize : Z) :
  0 < Np.var signal ->
  ridge_inputs_ok ridge_y wlet periods tvec ->
  smoothing_succeeds savgol_filter (Some wsize) (length tvec) ->
  exists t0 t1 ridge_per ridge_power smoothed rd rd0,
    Np.getitem tvec 0 = Ok t0 /\ Np.getitem tvec 1 = Ok t1
    /\ Np.take periods ridge_y = Ok ridge_per
    /\ ridge_power_of ridge_y wlet signal = Ok ridge_power
    /\ savgol_filter ridge_per wsize 3%Z = Ok smoothed
    /\ eval_ridge savgol_filter ridge_y wlet signal periods tvec power_thresh
         (Some wsize) = Ok rd
    /\ eval_ridge savgol_filter ridge_y wlet signal periods tvec power_thresh
         None = Ok rd0
    /\ (let inds := map (fun p => Rgtb p power_thresh) ridge_power in
        rd_periods rd = Np.compress inds smoothed
        /\ rd_periods rd0 = Np.compress inds ridge_per
        /\ rd_amplitude rd
           = power_to_amplitude (Np.compress inds ridge_per) (rd_power rd)
               (sqrt (Np.var signal)) (t1 - t0)
        /\ rd_amplitude rd = rd_amplitude rd0
        /\ (Np.compress inds smoothed <> Np.compress inds ridge_per ->
            rd_amplitude rd
            = power_to_amplitude (rd_periods rd0) (rd_power rd)
                (sqrt (Np.var signal)) (t1 - t0)
            /\ rd_periods rd <> rd_periods rd0)).
Proof.
  intros _ Hok Hsm.
  destruct (eval_ridge_unfold savgol_filter ridge_y wlet signal periods tvec
              power_thresh (Some wsize) Hok)
    as (t0 & t1 & ridge_per & ridge_z & ridge_power
        & Ht0 & Ht1 & Hrp & Hrpl & Hrz & Hpw & Hpwl & Heval).
  destruct (eval_ridge_unfold savgol_filter ridge_y wlet signal periods tvec
              power_thresh None Hok)
    as (t0' & t1' & ridge_per' & ridge_z' & ridge_power'
        & Ht0' & Ht1' & Hrp' & _ & Hrz' & Hpw' & _ & Heval0).
  rewrite Ht0 in Ht0'. rewrite Ht1 in Ht1'. rewrite Hrp in Hrp'.
  rewrite Hrz in Hrz'. rewrite Hpw in Hpw'.
  inversion Ht0'; inversion Ht1'; inversion Hrp'; inversion Hrz';
    inversion Hpw'; subst t0' t1' ridge_per' ridge_z' ridge_power'.
  destruct (Hsm ridge_per Hrpl) as [smoothed [Hs Hsl]].
  cbv zeta in Heval, Heval0.
  rewrite Hs in Heval. simpl bind in Heval, Heval0.
  rewrite mask_index_ok in Heval
    by (rewrite length_map; congruence).
  simpl bind in Heval.
  eexists t0, t1, ridge_per, ridge_power, smoothed, _, _.
  split; [exact Ht0|]. split; [exact Ht1|]. split; [exact Hrp|].
  split; [exact Hpw|]. split; [exact Hs|]. split; [exact Heval|].
  split; [exact Heval0|].
  cbv zeta. cbn [rd_periods rd_amplitude rd_power].
  split; [reflexivity|]. split; [reflexivity|]. split; [reflexivity|].
  split; [reflexivity|].
  intros Hdiff. split; [reflexivity | exact Hdiff].
Qed.

Lemma smoothed_example :
  savgol_five [10; 10; 20; 10; 10] 5 3
  = Ok [10 - 6 / 7; 10 + 24 / 7; 20 - 36 / 7; 10 + 24 / 7; 10 - 6 / 7].
Proof.
  unfold savgol_five. simpl. f_equal. list_eq.
Qed.

(** On the five-point example with window 5 every point is kept, the
    periods column is the smoothed trace and differs from the periods the
    amplitudes were computed from. *)
Lemma eval_ridge_amplitude_unsmoothed_witness :
  0 < Np.var signal_5
  /\ ridge_inputs_ok ridge_5 wlet_2x5 periods_2 tvec_5
  /\ smoothing_succeeds savgol_five (Some 5%Z) (length tvec_5)
  /\ exists rd rd0,
       eval_ridge savgol_five ridge_5 wlet_2x5 signal_5 periods_2 tvec_5 0
         (Some 5%Z) = Ok rd
       /\ eval_ridge savgol_five ridge_5 wlet_2x5 signal_5 periods_2 tvec_5 0
            None = Ok rd0
       /\ rd_amplitude rd = rd_amplitude rd0
       /\ rd_periods rd0 = [10; 10; 20; 10; 10]
       /\ rd_periods rd
          = [10 - 6 / 7; 10 + 24 / 7; 20 - 36 / 7; 10 + 24 / 7; 10 - 6 / 7].
Proof.
  assert (Hvar : 0 < Np.var signal_5) by (rewrite var_signal_5; lra).
  split; [exact Hvar|].
  split; [exact ridge_inputs_ok_example|].
  split; [exact savgol_five_succeeds|].
  destruct (eval_ridge_amplitude_unsmoothed savgol_five ridge_5 wlet_2x5
              signal_5 periods_2 tvec_5 0 5%Z Hvar ridge_inputs_ok_example
              savgol_five_succeeds)
    as (t0 & t1 & ridge_per & ridge_power & smoothed & rd & rd0
        & _ & _ & Hrp & Hpw & Hs & He & He0 & Hcols).
  rewrite ridge_per_example in Hrp. inversion Hrp; subst ridge_per.
  rewrite ridge_power_example in Hpw. inversion Hpw; subst ridge_power.
  rewrite smoothed_example in Hs. inversion Hs; subst smoothed.
  cbv zeta in Hcols. simpl map in Hcols.
  rewrite !(Rgtb_lt (5 / 4) 0), (Rgtb_lt 5 0), (Rgtb_lt (45 / 4) 0) in Hcols
    by lra.
  simpl Np.compress in Hcols.
  destruct Hcols as (Hp & Hp0 & _ & Ha & _).
  exists rd, rd0. repeat split; assumption.
Defined.

(** C1: the window that [eval_ridge] hands to the Savitzky-Golay filter is
    the requested one.  For a ridge shorter than the requested window the
    sanitising branch does compute the largest odd value not above the ridge
    length, but the periods column of any returned table is the masked
    output of the filter called with the requested window; with a filter
    that refuses windows longer than its data, the call raises ValueError. *)
Theorem eval_ridge_window_not_shrunk
  (savgol_filter core : list R -> Z -> Z -> result (list R))
  (ridge_y : list Z) (wlet : list (list complex))
  (signal periods tvec : list R) (power_thresh : R) (wsize : Z) :
  ridge_inputs_ok ridge_y wlet periods tvec ->
  (Z.of_nat (length ridge_y) < wsize)%Z ->
  exists ridge_per ridge_power s,
    Np.take periods ridge_y = Ok ridge_per
    /\ ridge_power_of ridge_y wlet signal = Ok ridge_power
    /\ shrunk_window (Z.of_nat (length ridge_per)) wsize = Some s
    /\ (s < wsize)%Z /\ (s mod 2 = 1)%Z
    /\ (Z.of_nat (length ridge_y) - 1 <= s <= Z.of_nat (length ridge_y))%Z
    /\ (forall rd,
          eval_ridge savgol_filter ridge_y wlet signal periods tvec
            power_thresh (Some wsize) = Ok rd ->
          exists smoothed,
            savgol_filter ridge_per wsize 3%Z = Ok smoothed
            /\ rd_periods rd
               = Np.compress (map (fun p => Rgtb p power_thresh) ridge_power)
                   smoothed)
    /\ eval_ridge (savgol_guarded core) ridge_y wlet signal periods tvec
         power_thresh (Some wsize) = Raise ValueError.
Proof.
  intros Hok Hshort.
  destruct (eval_ridge_unfold savgol_filter ridge_y wlet signal periods tvec
              power_thresh (Some wsize) Hok)
    as (t0 & t1 & ridge_per & ridge_z & ridge_power
        & Ht0 & Ht1 & Hrp & Hrpl & Hrz & Hpw & Hpwl & Heval).
  destruct (eval_ridge_unfold (savgol_guarded core) ridge_y wlet signal periods
              tvec power_thresh (Some wsize) Hok)
    as (t0' & t1' & ridge_per' & ridge_z' & ridge_power'
        & _ & _ & Hrp' & _ & _ & _ & _ & Hevalg).
  rewrite Hrp in Hrp'. inversion Hrp'; subst ridge_per'.
  pose proof (ok_ridge_len _ _ _ _ Hok) as Hlen.
  assert (Hn : length ridge_per = length ridge_y) by congruence.
  exists ridge_per, ridge_power.
  exists (if (Z.of_nat (length ridge_per) mod 2 =? 1)%Z
          then Z.of_nat (length ridge_per)
          else (Z.of_nat (length ridge_per) - 1)%Z).
  split; [exact Hrp|]. split; [exact Hpw|].
  split.
  { unfold shrunk_window. rewrite Hn.
    destruct (Z.ltb_spec (Z.of_nat (length ridge_y)) wsize); [reflexivity|lia]. }
  rewrite Hn.
  pose proof (ok_tvec _ _ _ _ Hok) as H2.
  destruct (Z.eqb_spec (Z.of_nat (length ridge_y) mod 2) 1) as [Hodd|Heven].
  - split; [lia|]. split; [exact Hodd|]. split; [lia|].
    split.
    + intros rd Hrd. rewrite Heval in Hrd. cbv zeta in Hrd.
      destruct (savgol_filter ridge_per wsize 3%Z) as [smoothed|e];
        [|discriminate].
      simpl bind in Hrd. unfold Np.mask_index in Hrd.
      destruct (Nat.eqb _ _); [|discriminate].
      simpl bind in Hrd. inversion Hrd; subst rd.
      exists smoothed. split; reflexivity.
    + rewrite Hevalg. cbv zeta. unfold savgol_guarded.
      rewrite Hn.
      destruct (Z.ltb_spec (Z.of_nat (length ridge_y)) wsize); [reflexivity|lia].
  - assert (Hm : (Z.of_nat (length ridge_y) mod 2 = 0)%Z).
    { pose proof (Z.mod_pos_bound (Z.of_nat (length ridge_y)) 2). lia. }
    split; [lia|].
    split.
    { rewrite Zminus_mod, Hm. reflexivity. }
    split; [lia|].
    split.
    + intros rd Hrd. rewrite Heval in Hrd. cbv zeta in Hrd.
      destruct (savgol_filter ridge_per wsize 3%Z) as [smoothed|e];
        [|discriminate].
      simpl bind in Hrd. unfold Np.mask_index in Hrd.
      destruct (Nat.eqb _ _); [|discriminate].
      simpl bind in Hrd. inversion Hrd; subst rd.
      exists smoothed. split; reflexivity.
    + rewrite Hevalg. cbv zeta. unfold savgol_guarded.
      rewrite Hn.
      destruct (Z.ltb_spec (Z.of_nat (length ridge_y)) wsize); [reflexivity|lia].
Qed.

(** A ridge of five points and a requested window of seven: the sanitised
    window would be five, on which the guarded filter succeeds, but the
    call raises. *)
Lemma eval_ridge_window_not_shrunk_witness :
  ridge_inputs_ok ridge_5 wlet_2x5 periods_2 tvec_5
  /\ shrunk_window 5 7 = Some 5%Z
  /\ is_ok (savgol_guarded savgol_five [10; 10; 20; 10; 10] 5 3) = true
  /\ eval_ridge (savgol_guarded savgol_five) ridge_5 wlet_2x5 signal_5
       periods_2 tvec_5 0 (Some 7%Z) = Raise ValueError.
Proof.
  split; [exact ridge_inputs_ok_example|].
  split; [reflexivity|].
  split; [reflexivity|].
  destruct (eval_ridge_window_not_shrunk no_savgol savgol_five ridge_5 wlet_2x5
              signal_5 periods_2 tvec_5 0 7%Z ridge_inputs_ok_example)
    as (ridge_per & ridge_power & s & _ & _ & _ & _ & _ & _ & _ & H);
    [simpl; lia | exact H].
Defined.

(** ** Simulated annealing *)

Lemma getitem_nat {A : Type} (a : list A) (i : nat) (x : A) :
  nth_error a i = Some x -> Np.getitem a (Z.of_nat i) = Ok x.
Proof.
  intros H. unfold Np.getitem.
  assert (Hlt : (i < length a)%nat) by (apply nth_error_Some; congruence).
  destruct (Z.ltb_spec (Z.of_nat i) 0); [lia|].
  assert (Hb : ((0 <=? Z.of_nat i)%Z
                && (Z.of_nat i <? Z.of_nat (length a))%Z)%bool = true).
  { apply andb_true_iff; split; [apply Z.leb_le | apply Z.ltb_lt]; lia. }
  rewrite Hb, Nat2Z.id, H. reflexivity.
Qed.

Lemma getitem_nat_inv {A : Type} (a : list A) (i : nat) (x : A) :
  Np.getitem a (Z.of_nat i) = Ok x -> nth_error a i = Some x.
Proof.
  unfold Np.getitem. intros H.
  destruct (Z.ltb_spec (Z.of_nat i) 0); [lia|].
  destruct (_ && _)%bool; [|discriminate].
  rewrite Nat2Z.id in H.
  destruct (nth_error a i); [congruence | discriminate].
Qed.

Lemma setitem_length (ys : list Z) (pos : nat) (v : Z) :
  length (Anneal.setitem ys pos v) = length ys.
Proof.
  revert pos; induction ys as [|y rest IH]; intros [|p]; simpl;
    try reflexivity.
  f_equal. apply IH.
Qed.

Lemma setitem_nth_same (ys : list Z) (pos : nat) (v : Z) :
  (pos < length ys)%nat -> nth_error (Anneal.setitem ys pos v) pos = Some v.
Proof.
  revert pos; induction ys as [|y rest IH]; intros [|p] H; simpl in *;
    try lia; try reflexivity.
  apply IH. lia.
Qed.

Lemma setitem_twice (ys : list Z) (pos : nat) (v w : Z) :
  Anneal.setitem (Anneal.setitem ys pos v) pos w = Anneal.setitem ys pos w.
Proof.
  revert pos; induction ys as [|y rest IH]; intros [|p]; simpl;
    try reflexivity.
  f_equal. apply IH.
Qed.

Lemma setitem_same (ys : list Z) (pos : nat) (y : Z) :
  nth_error ys pos = Some y -> Anneal.setitem ys pos y = ys.
Proof.
  revert pos; induction ys as [|z rest IH]; intros [|p] H; simpl in *;
    try discriminate.
  - congruence.
  - f_equal. apply IH. exact H.
Qed.

Lemma setitem_Forall (P : Z -> Prop) (ys : list Z) (pos : nat) (v : Z) :
  Forall P ys -> P v -> Forall P (Anneal.setitem ys pos v).
Proof.
  intros Hys Hv. revert pos.
  induction Hys as [|y rest Hy Hrest IH]; intros [|p]; simpl; constructor;
    try assumption.
  apply IH.
Qed.

Lemma randint_bound (n r pos : nat) :
  Anneal.randint n r = Ok pos -> (pos < n)%nat.
Proof.
  unfold Anneal.randint. destruct (Nat.eqb_spec n 0); [discriminate|].
  intros H. inversion H. apply Nat.mod_upper_bound. assumption.
Qed.

Lemma choice_In (a : list Z) (r : nat) (x : Z) :
  Anneal.choice a r = Ok x -> In x a.
Proof.
  unfold Anneal.choice. destruct a as [|z zs]; [discriminate|].
  intros H.
  assert (Hx : x = nth (Nat.modulo r (length (z :: zs))) (z :: zs) z)
    by congruence.
  rewrite Hx. apply nth_In.
  apply Nat.mod_upper_bound. discriminate.
Qed.

Lemma incr_spec (mx_jump e : Z) :
  In e (Anneal.incr mx_jump) <-> (e <> 0 /\ - mx_jump <= e <= mx_jump)%Z.
Proof.
  unfold Anneal.incr, Anneal.zrange.
  rewrite filter_In, in_map_iff. split.
  - intros [[i [<- Hi]] Hnz]. apply in_seq in Hi.
    apply negb_true_iff, Z.eqb_neq in Hnz. lia.
  - intros [Hnz Hr]. split.
    + exists (Z.to_nat (e + mx_jump)). split; [lia|].
      apply in_seq. lia.
    + apply negb_true_iff, Z.eqb_neq. exact Hnz.
Qed.

(** The jump of an iteration: forced inward by one at either edge, a
    non-zero element of [-mx_jump, mx_jump] elsewhere; the candidate row
    stays on the grid. *)
Lemma propose_spec (Ns mx_jump y : Z) (r : nat) (eps : Z) :
  (mx_jump + 2 <= Ns)%Z -> in_rows Ns y ->
  Anneal.propose Ns mx_jump y r = Ok eps ->
  in_rows Ns (y + eps) /\ eps <> 0%Z
  /\ ((Ns - mx_jump - 1 <= y)%Z -> eps = (-1)%Z)
  /\ ((y < Ns - mx_jump - 1)%Z -> (y < mx_jump)%Z -> eps = 1%Z)
  /\ ((mx_jump <= y < Ns - mx_jump - 1)%Z ->
      In eps (Anneal.incr mx_jump) /\ (Z.abs eps <= mx_jump)%Z)
  /\ ((1 <= mx_jump)%Z -> (Z.abs eps <= mx_jump)%Z).
Proof.
  unfold in_rows, Anneal.propose. intros HNs Hy.
  rewrite Z.geb_leb.
  destruct (Z.leb_spec (Ns - mx_jump - 1) y) as [Htop|Htop].
  - intros H; inversion H; subst eps. repeat split; lia.
  - destruct (Z.ltb_spec y mx_jump) as [Hbot|Hbot].
    + intros H; inversion H; subst eps. repeat split; lia.
    + intros H. apply choice_In in H.
      pose proof H as Hin. apply incr_spec in H.
      repeat split; try lia. exact Hin.
Qed.

Lemma propose_ok (Ns mx_jump y : Z) (r : nat) :
  (1 <= mx_jump)%Z -> exists eps, Anneal.propose Ns mx_jump y r = Ok eps.
Proof.
  intros Hmx. unfold Anneal.propose.
  destruct (y >=? Ns - mx_jump - 1)%Z; [eexists; reflexivity|].
  destruct (y <? mx_jump)%Z; [eexists; reflexivity|].
  assert (Hin : In 1%Z (Anneal.incr mx_jump)) by (apply incr_spec; lia).
  unfold Anneal.choice.
  destruct (Anneal.incr mx_jump) as [|z zs]; [contradiction|].
  eexists; reflexivity.
Qed.

Section AnnealFacts.

Variable landscape : list (list R).
Variable mx_jump : Z.
Variable T_ini curve_pen : R.
Variable rng : nat -> Anneal.draw.

Let Ns := Anneal.Ns landscape.
Let Nt := Anneal.Nt landscape.

Lemma cost_func_anneal_ok (ys : list Z) (l m : R) :
  landscape_ok landscape ->
  Forall (in_rows Ns) ys -> length ys = Nt ->
  exists F,
    Anneal.cost_func_anneal ys (Anneal.t_inds landscape) landscape l m = Ok F.
Proof.
  intros [Hn Hrect] Hys Hlen.
  assert (Hv : Forall (valid_index (length landscape)) ys).
  { eapply Forall_impl; [|exact Hys].
    unfold in_rows, valid_index, Ns, Anneal.Ns. intros; lia. }
  destruct (fancy2_ok landscape Nt ys Hrect Hv Hlen) as [vals [Hvals _]].
  unfold Anneal.cost_func_anneal, Anneal.t_inds. fold Nt.
  rewrite Hvals. simpl bind.
  destruct (Nat.eqb_spec (length ys) 0) as [H0|H0].
  - unfold Nt in Hlen. lia.
  - eexists; reflexivity.
Qed.

Lemma candidate_spec (k : nat) (ys : list Z) (pos : nat) (eps : Z)
  (cand : list Z) :
  Anneal.candidate landscape mx_jump rng k ys = Ok (pos, eps, cand) ->
  exists y,
    (pos < length ys)%nat /\ nth_error ys pos = Some y
    /\ Anneal.propose Ns mx_jump y (Anneal.d_jump (rng k)) = Ok eps
    /\ cand = Anneal.setitem ys pos (y + eps)%Z.
Proof.
  unfold Anneal.candidate. fold Ns.
  destruct (Anneal.randint (length ys) (Anneal.d_pos (rng k))) as [p|e] eqn:Hp;
    [|discriminate].
  simpl bind.
  destruct (Np.getitem ys (Z.of_nat p)) as [y|e] eqn:Hy; [|discriminate].
  simpl bind.
  destruct (Anneal.propose Ns mx_jump y (Anneal.d_jump (rng k))) as [e0|e] eqn:He;
    [|discriminate].
  simpl bind. intros H. inversion H; subst.
  exists y. repeat split.
  - eapply randint_bound; eassumption.
  - apply getitem_nat_inv; exact Hy.
  - exact He.
Qed.

Lemma candidate_ok (k : nat) (ys : list Z) :
  (1 <= mx_jump)%Z -> (1 <= length ys)%nat ->
  exists pos eps cand,
    Anneal.candidate landscape mx_jump rng k ys = Ok (pos, eps, cand).
Proof.
  intros Hmx Hlen. unfold Anneal.candidate, Anneal.randint.
  destruct (Nat.eqb_spec (length ys) 0) as [H0|H0]; [lia|].
  simpl bind.
  set (p := Nat.modulo (Anneal.d_pos (rng k)) (length ys)).
  assert (Hp : (p < length ys)%nat) by (apply Nat.mod_upper_bound; exact H0).
  destruct (nth_error ys p) as [y|] eqn:Hy.
  - rewrite (getitem_nat ys p y Hy). simpl bind.
    destruct (propose_ok (Anneal.Ns landscape) mx_jump y
                (Anneal.d_jump (rng k)) Hmx) as [eps He].
    rewrite He. simpl bind. do 3 eexists; reflexivity.
  - apply nth_error_None in Hy. lia.
Qed.

(** Undoing the wiggle restores the ridge. *)
Lemma revert_candidate (ys : list Z) (pos : nat) (y eps : Z) :
  nth_error ys pos = Some y ->
  (y' <- Np.getitem (Anneal.setitem ys pos (y + eps)%Z) (Z.of_nat pos) ;;
   Ok (Anneal.setitem (Anneal.setitem ys pos (y + eps)%Z) pos (y' - eps)%Z))
  = Ok ys.
Proof.
  intros Hy.
  assert (Hpos : (pos < length ys)%nat) by (apply nth_error_Some; congruence).
  rewrite (getitem_nat _ pos (y + eps)%Z (setitem_nth_same ys pos _ Hpos)).
  simpl bind. rewrite setitem_twice.
  replace (y + eps - eps)%Z with y by lia.
  rewrite (setitem_same ys pos y Hy). reflexivity.
Qed.

(** One iteration, once its two costs and its candidate are known. *)
Lemma anneal_step_unfold (k : nat) (st : Anneal.state) (F F_c : R)
  (pos : nat) (eps : Z) (cand : list Z) :
  Anneal.cost_func_anneal (Anneal.a_ys st) (Anneal.t_inds landscape)
    landscape 0 curve_pen = Ok F ->
  Anneal.candidate landscape mx_jump rng k (Anneal.a_ys st)
  = Ok (pos, eps, cand) ->
  Anneal.cost_func_anneal cand (Anneal.t_inds landscape) landscape 0 curve_pen
  = Ok F_c ->
  let accept :=
    Anneal.metropolis_accept F F_c (Anneal.a_T_k st) (Anneal.d_u (rng k)) in
  Anneal.anneal_step landscape mx_jump T_ini curve_pen rng k st
  = Ok (Anneal.mkState
          (if accept then cand else Anneal.a_ys st)
          (Some F_c)
          (if accept then 0%nat else S (Anneal.a_Nrej st))
          (T_ini / ln (IZR (2 + Z.of_nat k)))
          (Anneal.a_printed st ++ [Anneal.a_T_k st])).
Proof.
  intros HF Hc HFc accept.
  unfold Anneal.anneal_step.
  rewrite HF. simpl bind. rewrite Hc. simpl bind. rewrite HFc. simpl bind.
  fold accept.
  destruct accept; [reflexivity|].
  destruct (candidate_spec k _ pos eps cand Hc) as [y [_ [Hy [_ ->]]]].
  rewrite (revert_candidate _ pos y eps Hy). reflexivity.
Qed.

Lemma anneal_step_inv (k : nat) (st st' : Anneal.state) :
  Anneal.anneal_step landscape mx_jump T_ini curve_pen rng k st = Ok st' ->
  exists F F_c pos eps cand,
    Anneal.cost_func_anneal (Anneal.a_ys st) (Anneal.t_inds landscape)
      landscape 0 curve_pen = Ok F
    /\ Anneal.candidate landscape mx_jump rng k (Anneal.a_ys st)
       = Ok (pos, eps, cand)
    /\ Anneal.cost_func_anneal cand (Anneal.t_inds landscape) landscape 0
         curve_pen = Ok F_c.
Proof.
  unfold Anneal.anneal_step.
  destruct (Anneal.cost_func_anneal (Anneal.a_ys st) _ _ _ _) as [F|e] eqn:HF;
    [|discriminate].
  simpl bind.
  destruct (Anneal.candidate landscape mx_jump rng k (Anneal.a_ys st))
    as [[[pos eps] cand]|e] eqn:Hc; [|discriminate].
  simpl bind.
  destruct (Anneal.cost_func_anneal cand _ _ _ _) as [F_c|e] eqn:HFc;
    [|discriminate].
  intros _. exists F, F_c, pos, eps, cand.
  split; [reflexivity|]. split; [reflexivity | exact HFc].
Qed.

Let inv := ridge_inv landscape.

Lemma anneal_step_preserves (k : nat) (st st' : Anneal.state) :
  (mx_jump + 2 <= Ns)%Z -> inv st ->
  Anneal.anneal_step landscape mx_jump T_ini curve_pen rng k st = Ok st' ->
  inv st'.
Proof.
  intros HNs [Hlen Hrows] Hstep.
  destruct (anneal_step_inv k st st' Hstep)
    as (F & F_c & pos & eps & cand & HF & Hc & HFc).
  rewrite (anneal_step_unfold k st F F_c pos eps cand HF Hc HFc) in Hstep.
  inversion Hstep; subst st'; clear Hstep. unfold inv, ridge_inv; simpl. fold Ns Nt.
  destruct (candidate_spec k _ pos eps cand Hc) as [y [Hpos [Hy [Hp ->]]]].
  assert (Hyr : in_rows Ns y).
  { rewrite Forall_forall in Hrows. apply Hrows.
    eapply nth_error_In; eassumption. }
  destruct (propose_spec Ns mx_jump y _ eps HNs Hyr Hp) as [Hin _].
  destruct (Anneal.metropolis_accept _ _ _ _).
  - split; [rewrite setitem_length; exact Hlen|].
    apply setitem_Forall; assumption.
  - split; assumption.
Qed.

Lemma anneal_step_ok (k : nat) (st : Anneal.state) :
  landscape_ok landscape -> (1 <= mx_jump)%Z -> (mx_jump + 2 <= Ns)%Z ->
  inv st ->
  exists st',
    Anneal.anneal_step landscape mx_jump T_ini curve_pen rng k st = Ok st'.
Proof.
  intros Hl Hmx HNs [Hlen Hrows].
  destruct (cost_func_anneal_ok _ 0 curve_pen Hl Hrows Hlen) as [F HF].
  assert (H1 : (1 <= length (Anneal.a_ys st))%nat).
  { rewrite Hlen. destruct Hl as [Hn _]. exact Hn. }
  destruct (candidate_ok k _ Hmx H1) as (pos & eps & cand & Hc).
  destruct (candidate_spec k _ pos eps cand Hc) as [y [Hpos [Hy [Hp Hcand]]]].
  assert (Hyr : in_rows Ns y).
  { rewrite Forall_forall in Hrows. apply Hrows.
    eapply nth_error_In; eassumption. }
  destruct (propose_spec Ns mx_jump y _ eps HNs Hyr Hp) as [Hin _].
  assert (Hcr : Forall (in_rows Ns) cand)
    by (subst cand; apply setitem_Forall; assumption).
  assert (Hcl : length cand = Nt)
    by (subst cand; rewrite setitem_length; exact Hlen).
  destruct (cost_func_anneal_ok cand 0 curve_pen Hl Hcr Hcl) as [F_c HFc].
  eexists. apply (anneal_step_unfold k st F F_c pos eps cand HF Hc HFc).
Qed.

Lemma anneal_loop_preserves (ks : list nat) :
  (mx_jump + 2 <= Ns)%Z ->
  forall st st',
    inv st ->
    Anneal.anneal_loop landscape mx_jump T_ini curve_pen rng ks st = Ok st' ->
    inv st'.
Proof.
  intros HNs. induction ks as [|k rest IH]; intros st st' Hinv Hrun.
  - simpl in Hrun. inversion Hrun; subst; exact Hinv.
  - simpl in Hrun.
    destruct (Anneal.anneal_step landscape mx_jump T_ini curve_pen rng k st)
      as [st1|e] eqn:Hstep; [|discriminate].
    simpl bind in Hrun.
    apply (IH st1 st'); [|exact Hrun].
    eapply anneal_step_preserves; eassumption.
Qed.

Lemma anneal_loop_ok (ks : list nat) :
  landscape_ok landscape -> (1 <= mx_jump)%Z -> (mx_jump + 2 <= Ns)%Z ->
  forall st, inv st ->
    exists st',
      Anneal.anneal_loop landscape mx_jump T_ini curve_pen rng ks st = Ok st'.
Proof.
  intros Hl Hmx HNs. induction ks as [|k rest IH]; intros st Hinv.
  - eexists; reflexivity.
  - destruct (anneal_step_ok k st Hl Hmx HNs Hinv) as [st1 Hstep].
    simpl. rewrite Hstep. simpl bind.
    apply IH. eapply anneal_step_preserves; eassumption.
Qed.

(** The run of [j + m] iterations passes through the state of the run of
    [j] iterations. *)
Lemma anneal_loop_split (j m a : nat) (st : Anneal.state) :
  Anneal.anneal_loop landscape mx_jump T_ini curve_pen rng (seq a (j + m)) st
  = (st1 <- Anneal.anneal_loop landscape mx_jump T_ini curve_pen rng
              (seq a j) st ;;
     Anneal.anneal_loop landscape mx_jump T_ini curve_pen rng
       (seq (a + j) m) st1).
Proof.
  revert a st. induction j as [|j IH]; intros a st.
  - simpl. rewrite Nat.add_0_r. reflexivity.
  - replace (a + S j)%nat with (S a + j)%nat by lia.
    simpl.
    destruct (Anneal.anneal_step landscape mx_jump T_ini curve_pen rng a st)
      as [st1|e]; [|reflexivity].
    simpl bind. apply IH.
Qed.

End AnnealFacts.

Lemma boltzmann_factor_bounds (F F_c T_k : R) :
  F < F_c -> 0 < T_k ->
  0 < exp (- (F_c - F) / T_k) < 1.
Proof.
  intros HF HT. split; [apply exp_pos|].
  rewrite <- exp_0. apply exp_increasing.
  assert (Hq : 0 < (F_c - F) / T_k).
  { apply Rdiv_lt_0_compat; lra. }
  unfold Rdiv in *. rewrite Ropp_mult_distr_l_reverse. lra.
Qed.

Lemma metropolis_accept_spec (F F_c T_k u : R) :
  (F_c <= F -> Anneal.metropolis_accept F F_c T_k u = true)
  /\ (F < F_c -> u <= exp (- (F_c - F) / T_k) ->
      Anneal.metropolis_accept F F_c T_k u = true)
  /\ (F < F_c -> exp (- (F_c - F) / T_k) < u ->
      Anneal.metropolis_accept F F_c T_k u = false).
Proof.
  unfold Anneal.metropolis_accept.
  split; [|split].
  - intros H. rewrite (Rgtb_le F_c F H). reflexivity.
  - intros H Hu. rewrite (Rgtb_lt F_c F H), Rgtb_le by exact Hu. reflexivity.
  - intros H Hu. rewrite (Rgtb_lt F_c F H), Rgtb_lt by exact Hu. reflexivity.
Qed.

(** C5: in an iteration of the annealing whose costs are F (current ridge)
    and F_c (candidate, the ridge with one entry moved by eps), a candidate
    with F_c <= F is kept; at a temperature T_k that is not zero, a
    candidate with F_c > F is kept exactly when the uniform sample is at
    most exp(-(F_c - F)/T_k), a number strictly between 0 and 1 for a
    positive temperature, so with that probability for a sample uniform on
    the unit interval; otherwise the entry is reverted and the ridge after
    the iteration is the ridge before it.  At T_k = 0 numpy divides to
    minus infinity, which the reals do not have, and nothing is said about a
    worse candidate. *)
Theorem metropolis_step
  (landscape : list (list R)) (mx_jump : Z) (T_ini curve_pen : R)
  (rng : nat -> Anneal.draw) (k : nat) (st : Anneal.state)
  (F F_c : R) (pos : nat) (eps : Z) (cand : list Z) :
  Anneal.cost_func_anneal (Anneal.a_ys st) (Anneal.t_inds landscape)
    landscape 0 curve_pen = Ok F ->
  Anneal.candidate landscape mx_jump rng k (Anneal.a_ys st)
  = Ok (pos, eps, cand) ->
  Anneal.cost_func_anneal cand (Anneal.t_inds landscape) landscape 0 curve_pen
  = Ok F_c ->
  exists st',
    Anneal.anneal_step landscape mx_jump T_ini curve_pen rng k st = Ok st'
    /\ (exists y, nth_error (Anneal.a_ys st) pos = Some y
                  /\ cand = Anneal.setitem (Anneal.a_ys st) pos (y + eps)%Z)
    /\ (F_c <= F -> Anneal.a_ys st' = cand)
    /\ (F < F_c -> Anneal.a_T_k st <> 0 ->
        let p := exp (- (F_c - F) / Anneal.a_T_k st) in
        let u := Anneal.d_u (rng k) in
        (u <= p -> Anneal.a_ys st' = cand)
        /\ (p < u -> Anneal.a_ys st' = Anneal.a_ys st)
        /\ (0 < Anneal.a_T_k st -> 0 < p < 1)).
Proof.
  intros HF Hc HFc.
  eexists. split.
  { apply (anneal_step_unfold landscape mx_jump T_ini curve_pen rng k st
             F F_c pos eps cand HF Hc HFc). }
  destruct (metropolis_accept_spec F F_c (Anneal.a_T_k st)
              (Anneal.d_u (rng k))) as (Hle & Hacc & Hrej).
  cbn [Anneal.a_ys].
  split.
  { destruct (candidate_spec landscape mx_jump rng k _ pos eps cand Hc)
      as [y [_ [Hy [_ Hcand]]]].
    exists y. split; assumption. }
  split.
  { intros H. rewrite (Hle H). reflexivity. }
  intros H _. cbv zeta. split; [|split].
  - intros Hu. rewrite (Hacc H Hu). reflexivity.
  - intros Hu. rewrite (Hrej H Hu). reflexivity.
  - intros HT. apply boltzmann_factor_bounds; assumption.
Qed.

Lemma cost_on_crest :
  Anneal.cost_func_anneal [1; 1]%Z (Anneal.t_inds crest_3x2) crest_3x2 0 0
  = Ok (-1).
Proof.
  unfold Anneal.cost_func_anneal, Anneal.t_inds, crest_3x2, Np.fancy2,
    Np.broadcast2.
  simpl. f_equal. field.
Qed.

Lemma cost_off_crest :
  Anneal.cost_func_anneal [0; 1]%Z (Anneal.t_inds crest_3x2) crest_3x2 0 0
  = Ok (- (1 / 2)).
Proof.
  unfold Anneal.cost_func_anneal, Anneal.t_inds, crest_3x2, Np.fancy2,
    Np.broadcast2.
  simpl. f_equal. field.
Qed.

Lemma candidate_on_crest (u : R) :
  Anneal.candidate crest_3x2 1 (rng_u u) 0 [1; 1]%Z
  = Ok (0%nat, (-1)%Z, [0; 1]%Z).
Proof. reflexivity. Qed.

Lemma exp_minus_half : exp (- (1 / 2)) < 9 / 10.
Proof.
  rewrite exp_Ropp.
  pose proof (exp_ineq1_le (1 / 2)) as H.
  assert (Hpos : 0 < exp (1 / 2)) by apply exp_pos.
  apply Rlt_le_trans with (/ (10 / 9)).
  - apply Rinv_lt_contravar; [apply Rmult_lt_0_compat|]; lra.
  - rewrite Rinv_div. lra.
Qed.

(** On the crest a step off it is worse; with the sample 9/10, above the
    Boltzmann factor exp(-1/2), the step is rejected and the ridge is back
    on the crest. *)
Lemma metropolis_step_witness :
  exists st',
    Anneal.anneal_step crest_3x2 1 1 0 (rng_u (9 / 10)) 0 on_crest = Ok st'
    /\ Anneal.a_ys st' = [1; 1]%Z.
Proof.
  destruct (metropolis_step crest_3x2 1 1 0 (rng_u (9 / 10)) 0 on_crest
              (-1) (- (1 / 2)) 0%nat (-1)%Z [0; 1]%Z
              cost_on_crest (candidate_on_crest (9 / 10)) cost_off_crest)
    as (st' & Hstep & _ & _ & Hworse).
  exists st'. split; [exact Hstep|].
  destruct Hworse as (_ & Hrej & _); [lra | simpl; lra |].
  apply Hrej. simpl.
  replace (- (- (1 / 2) - -1) / 1) with (- (1 / 2)) by field.
  exact exp_minus_half.
Defined.

Lemma initial_ridge_inv (landscape : list (list R)) (y0 : Z) (T : R) :
  in_rows (Anneal.Ns landscape) y0 ->
  ridge_inv landscape
    (Anneal.mkState (repeat y0 (Anneal.Nt landscape)) None 0 T []).
Proof.
  intros Hy0. split; simpl.
  - apply repeat_length.
  - apply Forall_forall. intros y Hy. apply repeat_spec in Hy. subst y.
    exact Hy0.
Qed.

(** C6: with at least mx_jump + 2 rows and the start row on the grid, the
    ridge has full length and only row indices of the grid after any number
    of iterations; a jump is -1 at the upper edge, +1 at the lower edge and
    otherwise a non-zero element of [-mx_jump, mx_jump], so never zero and,
    for mx_jump >= 1, never longer than mx_jump, and the candidate row is on
    the grid; for mx_jump >= 1 and a rectangular landscape the iterations do
    not raise; the ridge [find_ridge_anneal] returns is on the grid. *)
Theorem anneal_ridge_on_grid
  (landscape : list (list R)) (y0 : Z) (T_ini : R) (mx_jump : Z)
  (curve_pen : R) (rng : nat -> Anneal.draw) :
  (mx_jump + 2 <= Anneal.Ns landscape)%Z ->
  in_rows (Anneal.Ns landscape) y0 ->
  (forall Nsteps st,
     Anneal.anneal_run landscape y0 T_ini Nsteps mx_jump curve_pen rng = Ok st ->
     length (Anneal.a_ys st) = Anneal.Nt landscape
     /\ Forall (in_rows (Anneal.Ns landscape)) (Anneal.a_ys st))
  /\ (forall y r eps,
        in_rows (Anneal.Ns landscape) y ->
        Anneal.propose (Anneal.Ns landscape) mx_jump y r = Ok eps ->
        in_rows (Anneal.Ns landscape) (y + eps) /\ eps <> 0%Z
        /\ ((Anneal.Ns landscape - mx_jump - 1 <= y)%Z -> eps = (-1)%Z)
        /\ ((y < Anneal.Ns landscape - mx_jump - 1)%Z -> (y < mx_jump)%Z ->
            eps = 1%Z)
        /\ ((mx_jump <= y < Anneal.Ns landscape - mx_jump - 1)%Z ->
            In eps (Anneal.incr mx_jump) /\ (Z.abs eps <= mx_jump)%Z)
        /\ ((1 <= mx_jump)%Z -> (Z.abs eps <= mx_jump)%Z))
  /\ ((1 <= mx_jump)%Z -> landscape_ok landscape ->
      forall Nsteps, exists st,
        Anneal.anneal_run landscape y0 T_ini Nsteps mx_jump curve_pen rng
        = Ok st)
  /\ (forall Nsteps ys F_c,
        Anneal.find_ridge_anneal landscape y0 T_ini Nsteps mx_jump curve_pen
          rng = Ok (ys, F_c) ->
        Forall (in_rows (Anneal.Ns landscape)) ys).
Proof.
  intros HNs Hy0.
  assert (Hinv : forall Nsteps st,
            Anneal.anneal_run landscape y0 T_ini Nsteps mx_jump curve_pen rng
            = Ok st ->
            length (Anneal.a_ys st) = Anneal.Nt landscape
            /\ Forall (in_rows (Anneal.Ns landscape)) (Anneal.a_ys st)).
  { intros Nsteps st Hrun. unfold Anneal.anneal_run in Hrun.
    apply (anneal_loop_preserves landscape mx_jump _ _ rng _ HNs _ st
             (initial_ridge_inv landscape y0 _ Hy0) Hrun). }
  split; [exact Hinv|].
  split; [|split].
  2: { intros Hmx Hl Nsteps. unfold Anneal.anneal_run.
       apply anneal_loop_ok; try assumption.
       apply initial_ridge_inv; exact Hy0. }
  2: { intros Nsteps ys F_c Hret. unfold Anneal.find_ridge_anneal in Hret.
       destruct (Anneal.anneal_run landscape y0 T_ini Nsteps mx_jump curve_pen
                   rng) as [st|e] eqn:Hrun; [|discriminate].
       simpl bind in Hret.
       destruct (Anneal.a_F_c st); [|discriminate].
       inversion Hret; subst ys.
       apply (Hinv Nsteps st Hrun). }
  intros y r eps Hy Hp. apply (propose_spec _ _ _ r); assumption.
Qed.

(** Without an iteration the cost is unbound when it is printed. *)
Lemma find_ridge_anneal_no_step
  (landscape : list (list R)) (y0 : Z) (T_ini : R) (mx_jump : Z)
  (curve_pen : R) (rng : nat -> Anneal.draw) :
  Anneal.find_ridge_anneal landscape y0 T_ini 0 mx_jump curve_pen rng
  = Raise NameError.
Proof. reflexivity. Qed.

Lemma flat_3x2_ok : landscape_ok flat_3x2.
Proof.
  split; [unfold Anneal.Nt, flat_3x2; simpl; lia|]. repeat constructor.
Qed.

Lemma anneal_ridge_on_grid_witness :
  (1 + 2 <= Anneal.Ns flat_3x2)%Z /\ in_rows (Anneal.Ns flat_3x2) 1
  /\ exists st,
       Anneal.anneal_run flat_3x2 1 100 10 1 0 rng_const = Ok st
       /\ Forall (in_rows 3) (Anneal.a_ys st).
Proof.
  assert (H3 : (1 + 2 <= Anneal.Ns flat_3x2)%Z)
    by (unfold Anneal.Ns, flat_3x2; simpl; lia).
  assert (Hy : in_rows (Anneal.Ns flat_3x2) 1)
    by (unfold in_rows, Anneal.Ns, flat_3x2; simpl; lia).
  split; [exact H3|]. split; [exact Hy|].
  destruct (anneal_ridge_on_grid flat_3x2 1 100 1 0 rng_const H3 Hy)
    as (Hinv & _ & Hret & _).
  destruct (Hret ltac:(lia) flat_3x2_ok 10%nat) as [st Hst].
  exists st. split; [exact Hst|].
  apply (Hinv 10%nat st Hst).
Defined.

(** ** The temperature schedule *)

Lemma ln_two_plus_pos (k : nat) : 0 < ln (IZR (2 + Z.of_nat k)).
Proof.
  rewrite <- ln_1. apply ln_increasing; [exact Rlt_0_1|].
  apply (IZR_lt 1). lia.
Qed.

Lemma temperature_used_pos (T : R) (k : nat) :
  0 < T -> 0 < temperature_used T k.
Proof.
  intros HT. destruct k as [|j]; cbn [temperature_used]; [exact HT|].
  apply Rdiv_lt_0_compat; [exact HT | apply ln_two_plus_pos].
Qed.

Lemma temperature_used_decreasing (T : R) (i j : nat) :
  0 < T -> (1 <= i < j)%nat -> temperature_used T j < temperature_used T i.
Proof.
  intros HT Hij.
  destruct i as [|i']; [lia|]. destruct j as [|j']; [lia|].
  cbn [temperature_used]. unfold Rdiv.
  apply Rmult_lt_compat_l; [exact HT|].
  apply Rinv_lt_contravar.
  - apply Rmult_lt_0_compat; apply ln_two_plus_pos.
  - apply ln_increasing; [apply (IZR_lt 0); lia|].
    apply IZR_lt. lia.
Qed.

Lemma ln_2_lt_1 : ln 2 < 1.
Proof.
  rewrite <- (ln_exp 1) at 1.
  apply ln_increasing; [lra|].
  pose proof (exp_ineq1 1). lra.
Qed.

Lemma temperature_first_rise (T : R) :
  0 < T -> temperature_used T 0 < temperature_used T 1.
Proof.
  intros HT. cbn [temperature_used].
  replace (IZR (2 + Z.of_nat 0)) with 2 by (simpl; reflexivity).
  pose proof ln_2_lt_1 as Hlt.
  assert (Hln : 0 < ln 2).
  { rewrite <- ln_1. apply ln_increasing; lra. }
  apply (Rmult_lt_reg_r (ln 2)); [exact Hln|].
  unfold Rdiv. rewrite Rmult_assoc, Rinv_l by lra. nra.
Qed.

Lemma anneal_loop_temperatures
  (landscape : list (list R)) (mx_jump : Z) (T cp : R)
  (rng : nat -> Anneal.draw) (n : nat) :
  forall a st st',
    Anneal.a_T_k st = temperature_used T a ->
    Anneal.anneal_loop landscape mx_jump T cp rng (seq a n) st = Ok st' ->
    Anneal.a_printed st'
    = Anneal.a_printed st ++ map (temperature_used T) (seq a n)
    /\ Anneal.a_T_k st' = temperature_used T (a + n).
Proof.
  induction n as [|n IH]; intros a st st' HT Hrun.
  - simpl in Hrun. inversion Hrun; subst st'. simpl.
    rewrite app_nil_r, Nat.add_0_r. split; [reflexivity | exact HT].
  - simpl in Hrun.
    destruct (Anneal.anneal_step landscape mx_jump T cp rng a st)
      as [st1|e] eqn:Hstep; [|discriminate].
    simpl bind in Hrun.
    destruct (anneal_step_inv landscape mx_jump T cp rng a st st1 Hstep)
      as (F & F_c & pos & eps & cand & HF & Hc & HFc).
    rewrite (anneal_step_unfold landscape mx_jump T cp rng a st F F_c pos eps
               cand HF Hc HFc) in Hstep.
    inversion Hstep as [Hst1]; clear Hstep.
    destruct (IH (S a) st1 st') as [Hp Hk].
    + rewrite <- Hst1. reflexivity.
    + exact Hrun.
    + split.
      * rewrite Hp, <- Hst1. simpl. rewrite <- app_assoc, HT. reflexivity.
      * rewrite Hk. f_equal. lia.
Qed.

Lemma nth_map_seq (f : nat -> R) (n k : nat) :
  (k < n)%nat -> nth k (map f (seq 0 n)) 0 = f k.
Proof.
  intros Hk.
  rewrite (nth_indep _ 0 (f 0%nat)) by (rewrite length_map, length_seq; exact Hk).
  rewrite map_nth, seq_nth by exact Hk. reflexivity.
Qed.

(** C2, as the code has it: the temperature of the acceptance test of an
    iteration is the one [print(T_k)] writes in that iteration.  Iteration 0
    runs at 0.01 * T_ini and iteration k >= 1 at 0.01 * T_ini / ln(1 + k),
    the value computed at the end of iteration k-1 from ln(2 + (k-1)).  For
    a positive T_ini every temperature is positive, the sequence is strictly
    decreasing from iteration 1 on and rises once, from iteration 0 to
    iteration 1; for a non-zero T_ini no temperature is zero. *)
Theorem anneal_temperature_schedule
  (landscape : list (list R)) (y0 : Z) (T_ini : R) (Nsteps : nat)
  (mx_jump : Z) (curve_pen : R) (rng : nat -> Anneal.draw)
  (st : Anneal.state) :
  Anneal.anneal_run landscape y0 T_ini Nsteps mx_jump curve_pen rng = Ok st ->
  Anneal.a_printed st
  = map (temperature_used (T_ini * Anneal.tfac)) (seq 0 Nsteps)
  /\ (forall k, (k < Nsteps)%nat ->
        nth k (Anneal.a_printed st) 0
        = temperature_used (T_ini * Anneal.tfac) k)
  /\ (0 < T_ini ->
      (forall k, (k < Nsteps)%nat -> 0 < nth k (Anneal.a_printed st) 0)
      /\ (forall i j, (1 <= i < j)%nat -> (j < Nsteps)%nat ->
            nth j (Anneal.a_printed st) 0 < nth i (Anneal.a_printed st) 0)
      /\ ((2 <= Nsteps)%nat ->
          nth 0 (Anneal.a_printed st) 0 < nth 1 (Anneal.a_printed st) 0))
  /\ (T_ini <> 0 ->
      forall k, (k < Nsteps)%nat -> nth k (Anneal.a_printed st) 0 <> 0).
Proof.
  intros Hrun. unfold Anneal.anneal_run in Hrun.
  destruct (anneal_loop_temperatures landscape mx_jump
              (T_ini * Anneal.tfac) (curve_pen * Anneal.tfac) rng Nsteps
              0%nat
              (Anneal.mkState (repeat y0 (Anneal.Nt landscape)) None 0
                 (T_ini * Anneal.tfac) [])
              st eq_refl Hrun) as [Hp _].
  simpl in Hp.
  assert (Hnth : forall k, (k < Nsteps)%nat ->
            nth k (Anneal.a_printed st) 0
            = temperature_used (T_ini * Anneal.tfac) k).
  { intros k Hk. rewrite Hp. apply nth_map_seq; exact Hk. }
  split; [exact Hp|]. split; [exact Hnth|].
  assert (Hfac : 0 < Anneal.tfac) by (unfold Anneal.tfac; lra).
  split.
  - intros HT.
    assert (HT' : 0 < T_ini * Anneal.tfac) by (apply Rmult_lt_0_compat; lra).
    split; [|split].
    + intros k Hk. rewrite (Hnth k Hk). apply temperature_used_pos; exact HT'.
    + intros i j Hij Hj. rewrite (Hnth i), (Hnth j) by lia.
      apply temperature_used_decreasing; assumption.
    + intros H2. rewrite (Hnth 0%nat), (Hnth 1%nat) by lia.
      apply temperature_first_rise; exact HT'.
  - intros HT k Hk. rewrite (Hnth k Hk).
    assert (HT' : T_ini * Anneal.tfac <> 0) by (apply Rmult_integral_contrapositive; lra).
    destruct k as [|j]; cbn [temperature_used]; [exact HT'|].
    pose proof (ln_two_plus_pos j) as Hln.
    unfold Rdiv. apply Rmult_integral_contrapositive. split; [exact HT'|].
    apply Rinv_neq_0_compat. lra.
Qed.

Lemma flat_run_returns (Nsteps : nat) :
  exists st, Anneal.anneal_run flat_3x2 1 100 Nsteps 1 0 rng_const = Ok st.
Proof.
  unfold Anneal.anneal_run.
  apply anneal_loop_ok.
  - exact flat_3x2_ok.
  - lia.
  - unfold Anneal.Ns, flat_3x2; simpl; lia.
  - apply initial_ridge_inv. unfold in_rows, Anneal.Ns, flat_3x2; simpl; lia.
Qed.

Lemma anneal_temperature_schedule_witness :
  exists st,
    Anneal.anneal_run flat_3x2 1 100 3 1 0 rng_const = Ok st
    /\ nth 2 (Anneal.a_printed st) 0 < nth 1 (Anneal.a_printed st) 0.
Proof.
  destruct (flat_run_returns 3) as [st Hst].
  exists st. split; [exact Hst|].
  destruct (anneal_temperature_schedule flat_3x2 1 100 3 1 0 rng_const st Hst)
    as (_ & _ & Hpos & _).
  destruct Hpos as (_ & Hdec & _); [lra|].
  apply Hdec; lia.
Defined.

(** The schedule of the specification fails on a run of two iterations: the
    first test runs at 0.01 * T_ini, not at 0.01 * T_ini / ln 2, and the
    second at the higher temperature 0.01 * T_ini / ln 2. *)
Lemma anneal_schedule_counterexample :
  exists st,
    Anneal.anneal_run flat_3x2 1 100 2 1 0 rng_const = Ok st
    /\ Anneal.a_printed st = [100 * Anneal.tfac; 100 * Anneal.tfac / ln 2]
    /\ nth 0 (Anneal.a_printed st) 0 < nth 1 (Anneal.a_printed st) 0
    /\ ~ schedule_as_specified (100 * Anneal.tfac) (Anneal.a_printed st).
Proof.
  destruct (flat_run_returns 2) as [st Hst].
  exists st. split; [exact Hst|].
  destruct (anneal_loop_temperatures flat_3x2 1 (100 * Anneal.tfac)
              (0 * Anneal.tfac) rng_const 2 0%nat
              (Anneal.mkState (repeat 1%Z (Anneal.Nt flat_3x2)) None 0
                 (100 * Anneal.tfac) [])
              st eq_refl Hst) as [Hp _].
  cbn [Anneal.a_printed app seq map temperature_used] in Hp.
  replace (IZR (2 + Z.of_nat 0)) with 2 in Hp by (simpl; reflexivity).
  pose proof ln_2_lt_1 as Hlt.
  assert (Hln : 0 < ln 2).
  { rewrite <- ln_1. apply ln_increasing; lra. }
  assert (Hup : 100 * Anneal.tfac < 100 * Anneal.tfac / ln 2).
  { unfold Anneal.tfac.
    replace (100 * (1 / 100)) with 1 by field.
    apply (Rmult_lt_reg_r (ln 2)); [exact Hln|].
    unfold Rdiv. rewrite Rmult_assoc, Rinv_l by lra. lra. }
  split; [exact Hp|].
  rewrite Hp. cbn [nth].
  split; [exact Hup|].
  intros (_ & Hdec & _).
  specialize (Hdec 0%nat 1%nat). cbn [nth length] in Hdec.
  assert (H01 : (0 < 1 < 2)%nat) by lia.
  specialize (Hdec H01). lra.
Qed.

(** ** Sinc filter *)

Lemma zrange_length (lo hi : Z) :
  length (Anneal.zrange lo hi) = Z.to_nat (hi - lo).
Proof. unfold Anneal.zrange. rewrite length_map, length_seq. reflexivity. Qed.

Lemma sinc_filter_length (M : Z) (f_c : R) :
  (M mod 2 = 0)%Z ->
  exists w, sinc_filter M f_c = Ok w /\ length w = Z.to_nat (M + 1).
Proof.
  intros Heven. unfold sinc_filter.
  rewrite Heven. simpl negb. cbv iota.
  eexists. split; [reflexivity|].
  rewrite !length_map, zrange_length. f_equal. lia.
Qed.

Lemma rev_slice_front (x : list R) (wl : nat) :
  (1 <= wl <= length x)%nat ->
  Slice.rev_slice x (Z.of_nat wl - 1) 0 = rev (firstn (wl - 1) (skipn 1 x)).
Proof.
  intros H. unfold Slice.rev_slice, Slice.clip_rev.
  zcases.
  replace (Z.to_nat (Z.of_nat wl - 1 - 0)) with (wl - 1)%nat by lia.
  reflexivity.
Qed.

Lemma rev_slice_back (x : list R) (wl : nat) :
  (1 <= wl <= length x)%nat ->
  Slice.rev_slice x (-1) (- Z.of_nat wl) = rev (skipn (length x - wl + 1) x).
Proof.
  intros H. unfold Slice.rev_slice, Slice.clip_rev.
  zcases.
  replace (Z.to_nat (-1 + Z.of_nat (length x)
                     - (- Z.of_nat wl + Z.of_nat (length x))))
    with (wl - 1)%nat by lia.
  replace (Z.to_nat (- Z.of_nat wl + Z.of_nat (length x) + 1))
    with (length x - wl + 1)%nat by lia.
  rewrite firstn_all2; [reflexivity|].
  rewrite length_skipn. lia.
Qed.

Lemma mirror_pad_length (x : list R) (wl : nat) :
  (1 <= wl <= length x)%nat ->
  length (mirror_pad x wl) = (length x + 2 * (wl - 1))%nat.
Proof.
  intros H. unfold mirror_pad.
  rewrite !length_app, !length_rev, length_firstn, !length_skipn. lia.
Qed.

Lemma convolve_valid_core_length (long short : list R) :
  length (convolve_valid_core long short)
  = (length long - length short + 1)%nat.
Proof.
  unfold convolve_valid_core. rewrite length_map, length_seq. reflexivity.
Qed.

Lemma slice_middle_length (y : list R) (h : Z) :
  (0 <= 2 * h <= Z.of_nat (length y))%Z ->
  length (Slice.slice y h (Z.of_nat (length y) - h))
  = Z.to_nat (Z.of_nat (length y) - 2 * h).
Proof.
  intros H. unfold Slice.slice, Slice.clip_fwd.
  zcases.
  rewrite length_firstn, length_skipn. lia.
Qed.

(** [smooth] with an external window of odd length between 3 and the length
    of the signal: the mirrored signal is convolved with the normalised
    window and trimmed back to the length of the signal. *)
Lemma smooth_extern (x w : list R) (window_len : Z) (window : window_kind) :
  (3 <= length w <= length x)%nat ->
  (Z.of_nat (length w) mod 2 = 1)%Z ->
  let kernel := map (fun c => c / Np.sum w) w in
  let y := convolve_valid_core (mirror_pad x (length w)) kernel in
  let h := Z.quot (Z.of_nat (length w) - 1) 2 in
  smooth x window_len window (Some w)
  = Ok (Slice.slice y h (Z.of_nat (length y) - h))
  /\ length y = (length x + length w - 1)%nat
  /\ length (Slice.slice y h (Z.of_nat (length y) - h)) = length x.
Proof.
  intros Hlen Hodd kernel y h.
  assert (Hkl : length kernel = length w) by (unfold kernel; apply length_map).
  assert (Hyl : length y = (length x + length w - 1)%nat).
  { unfold y. rewrite convolve_valid_core_length, mirror_pad_length, Hkl; lia. }
  assert (Hh : (2 * h = Z.of_nat (length w) - 1)%Z).
  { unfold h. rewrite Z.quot_div_nonneg by lia.
    pose proof (Z.div_mod (Z.of_nat (length w)) 2). 
    pose proof (Z.div_mod (Z.of_nat (length w) - 1) 2).
    pose proof (Z.mod_pos_bound (Z.of_nat (length w) - 1) 2).
    lia. }
  split; [|split].
  - unfold smooth.
    destruct (Z.ltb_spec (Z.of_nat (length x)) (Z.of_nat (length w))); [lia|].
    destruct (Z.ltb_spec (Z.of_nat (length w)) 3); [lia|].
    rewrite Hodd. cbn [Z.eqb].
    rewrite rev_slice_front, rev_slice_back by lia.
    fold (mirror_pad x (length w)).
    cbv beta iota zeta delta [bind]. fold kernel.
    unfold convolve_valid.
    assert (Hpl : length (mirror_pad x (length w))
                  = (length x + 2 * (length w - 1))%nat)
      by (apply mirror_pad_length; lia).
    destruct kernel as [|c0 kernel'] eqn:Hk; [simpl in Hkl; lia|].
    destruct (mirror_pad x (length w)) as [|p0 pad'] eqn:Hpad;
      [simpl in Hpl; lia|].
    destruct (Nat.ltb_spec (length (c0 :: kernel')) (length (p0 :: pad')));
      [reflexivity|].
    rewrite Hkl, Hpl in *. lia.
  - exact Hyl.
  - rewrite slice_middle_length by lia. lia.
Qed.

Lemma default_M_spec (n : nat) :
  (let M := (Z.of_nat n - 1)%Z in
   if negb (M mod 2 =? 0)%Z then (M - 1)%Z else M) = default_M n.
Proof.
  cbv zeta. unfold default_M.
  pose proof (Z.div_mod (Z.of_nat n - 1) 2).
  pose proof (Z.mod_pos_bound (Z.of_nat n - 1) 2).
  destruct (Z.eqb_spec ((Z.of_nat n - 1) mod 2) 0); simpl negb; cbv iota; lia.
Qed.

Lemma Reqb_neq (x y : R) : x <> y -> Reqb x y = false.
Proof.
  intros H. unfold Reqb. destruct (Req_dec_T x y); [contradiction|reflexivity].
Qed.

(** C8: for a signal of N >= 3 samples and a non-zero cut-off period,
    [sinc_smooth] with the default kernel order (N - 1 rounded down to even)
    returns a trend of exactly N samples: the signal mirrored at both ends,
    convolved in "valid" mode with the windowed-sinc kernel normalised to
    unit sum, and trimmed by half the kernel at either end. *)
Theorem sinc_smooth_length (signal : list R) (T_c dt : R) :
  (3 <= length signal)%nat -> T_c <> 0 ->
  exists w trend,
    sinc_filter (default_M (length signal)) (dt / T_c) = Ok w
    /\ length w = Z.to_nat (default_M (length signal) + 1)
    /\ sinc_smooth signal T_c dt None = Ok trend
    /\ length trend = length signal
    /\ (let kernel := map (fun c => c / Np.sum w) w in
        let y := convolve_valid_core (mirror_pad signal (length w)) kernel in
        let h := Z.quot (Z.of_nat (length w) - 1) 2 in
        length y = (length signal + length w - 1)%nat
        /\ trend = Slice.slice y h (Z.of_nat (length y) - h)).
Proof.
  intros HN HT.
  assert (HM : (default_M (length signal) mod 2 = 0)%Z).
  { unfold default_M. rewrite Z.mul_comm. apply Z.mod_mul. lia. }
  destruct (sinc_filter_length (default_M (length signal)) (dt / T_c) HM)
    as [w [Hw Hwl]].
  assert (HMb : (Z.of_nat (length signal) - 2 <= default_M (length signal)
                 <= Z.of_nat (length signal) - 1)%Z).
  { unfold default_M.
    pose proof (Z.div_mod (Z.of_nat (length signal) - 1) 2).
    pose proof (Z.mod_pos_bound (Z.of_nat (length signal) - 1) 2). lia. }
  assert (Hlen : (3 <= length w <= length signal)%nat).
  { rewrite Hwl. unfold default_M in *.
    pose proof (Z.div_mod (Z.of_nat (length signal) - 1) 2).
    pose proof (Z.mod_pos_bound (Z.of_nat (length signal) - 1) 2). lia. }
  assert (Hodd : (Z.of_nat (length w) mod 2 = 1)%Z).
  { rewrite Hwl, Z2Nat.id by lia.
    rewrite Z.add_mod, HM by lia. reflexivity. }
  destruct (smooth_extern signal w 11 Flat Hlen Hodd) as (Hs & Hyl & Htl).
  exists w. eexists.
  split; [exact Hw|]. split; [exact Hwl|].
  split.
  { unfold sinc_smooth. rewrite (Reqb_neq T_c 0 HT). simpl bind.
    rewrite default_M_spec, Hw. simpl bind. exact Hs. }
  split; [exact Htl|].
  cbv zeta. split; [exact Hyl | reflexivity].
Qed.

Lemma sinc_smooth_length_witness :
  (3 <= length [1; 2; 4; 8])%nat /\ 10 <> 0
  /\ exists trend,
       sinc_smooth [1; 2; 4; 8] 10 1 None = Ok trend /\ length trend = 4%nat.
Proof.
  assert (H3 : (3 <= length [1; 2; 4; 8])%nat) by (simpl; lia).
  assert (H10 : 10 <> 0) by lra.
  split; [exact H3|]. split; [exact H10|].
  destruct (sinc_smooth_length [1; 2; 4; 8] 10 1 H3 H10)
    as (w & trend & _ & _ & Ht & Hl & _).
  exists trend. split; [exact Ht | exact Hl].
Defined.

(** ** Envelope normalisation *)

(** C3: what [normalize_with_envelope] returns is the raw input divided by
    the envelope of the mean-subtracted signal: the mean is subtracted for
    the envelope only, the numerator keeps it.  The specified result, with
    the mean-subtracted signal as numerator, is given next to it. *)
Theorem normalize_with_envelope_raw
  (savgol_filter : list R -> Z -> Z -> result (list R))
  (dsignal : list R) (window_size : Z) (env : list R) :
  sliding_window_amplitude savgol_filter
    (map (fun x => x - Np.mean dsignal) dsignal) window_size true = Ok env ->
  length env = length dsignal ->
  normalize_with_envelope savgol_filter dsignal window_size
  = Ok (Np.zip_with (fun e d => 1 / e * d) env dsignal)
  /\ normalize_as_specified savgol_filter dsignal window_size
     = Ok (Np.zip_with (fun e d => (d - Np.mean dsignal) / e) env dsignal).
Proof.
  intros Henv Hlen.
  unfold normalize_with_envelope, normalize_as_specified.
  cbv zeta. rewrite Henv. simpl bind. rewrite Hlen, Nat.eqb_refl.
  split; [reflexivity|].
  f_equal. clear Henv. revert env Hlen.
  induction dsignal as [|d ds IH]; intros [|e es] Hlen; simpl in *;
    try reflexivity; try discriminate.
  f_equal.
  set (mu := Np.mean (d :: ds)).
  assert (Hgen : forall (l : list R) (es' : list R),
             Np.zip_with (fun e0 s => s / e0) es' (map (fun x => x - mu) l)
             = Np.zip_with (fun e0 d0 => (d0 - mu) / e0) es' l).
  { clear. intros l. induction l as [|a l IHl]; intros [|e0 es']; simpl;
      try reflexivity. f_equal. apply IHl. }
  apply Hgen.
Qed.

Lemma mean_signal_13 : Np.mean signal_13 = 11 / 5.
Proof. unfold Np.mean, signal_13. simpl. field. Qed.

(** Evaluation of the maxima and minima of explicit reals. *)
Ltac eval_minmax :=
  repeat match goal with
         | |- context [Rmax ?a ?b] =>
             first [rewrite (Rmax_left a b) by lra
                   | rewrite (Rmax_right a b) by lra]
         | |- context [Rmin ?a ?b] =>
             first [rewrite (Rmin_left a b) by lra
                   | rewrite (Rmin_right a b) by lra]
         end.

Lemma envelope_signal_13 :
  sliding_window_amplitude savgol_five
    (map (fun x => x - Np.mean signal_13) signal_13) 5 true
  = Ok [1; 1; 1; 1; 1].
Proof.
  rewrite mean_signal_13.
  unfold sliding_window_amplitude, signal_13, lastn, list_max, list_min.
  simpl. eval_minmax.
  f_equal. list_eq.
Qed.

(** On the oscillating signal the envelope is 1 everywhere, so the call
    returns the signal itself, mean included, where the specified result
    oscillates around zero. *)
Lemma normalize_with_envelope_raw_witness :
  normalize_with_envelope savgol_five signal_13 5 = Ok [3; 1; 3; 1; 3]
  /\ normalize_as_specified savgol_five signal_13 5
     = Ok [4 / 5; - (6 / 5); 4 / 5; - (6 / 5); 4 / 5].
Proof.
  destruct (normalize_with_envelope_raw savgol_five signal_13 5 [1; 1; 1; 1; 1]
              envelope_signal_13 eq_refl) as [Hcode Hspec].
  split.
  - rewrite Hcode. unfold signal_13. simpl. f_equal. list_eq.
  - rewrite Hspec, mean_signal_13. unfold signal_13. simpl. f_equal. list_eq.
Defined.

(** * Further properties of the engine *)

(** ** Scales and the Morlet wavelet *)

Lemma sqrt_two_plus_sq_gt (w0 : R) : w0 < sqrt (2 + w0 ^ 2).
Proof.
  assert (Hlt : sqrt (w0 ^ 2) < sqrt (2 + w0 ^ 2)).
  { apply sqrt_lt_1; pose proof (pow2_ge_0 w0); lra. }
  replace (w0 ^ 2) with (w0²) in Hlt at 1 by (unfold Rsqr; ring).
  rewrite sqrt_Rsqr_abs in Hlt.
  pose proof (Rle_abs w0). lra.
Qed.

(** X1: with the default central frequency the non-admissible scale of a
    period is the period counted in samples, and for positive period and
    sampling frequency the admissible scale is strictly larger than the
    non-admissible one, whatever the central frequency. *)
Theorem scale_admissible_above_NA (p sfreq w0 : R) :
  0 < p -> 0 < sfreq ->
  scale_of_periodNA p sfreq omega0 = p * sfreq
  /\ scale_of_periodNA p sfreq w0 < scale_of_period p sfreq w0.
Proof.
  intros Hp Hs. pose proof PI_RGT_0 as Hpi.
  split.
  - unfold scale_of_periodNA, omega0. field. lra.
  - unfold scale_of_periodNA, scale_of_period.
    pose proof (sqrt_two_plus_sq_gt w0) as Hw.
    assert (Hps : 0 < p * sfreq) by (apply Rmult_lt_0_compat; assumption).
    apply (Rmult_lt_reg_r (4 * PI)); [lra|].
    replace (w0 * p * sfreq / (2 * PI) * (4 * PI)) with (2 * w0 * (p * sfreq))
      by (field; lra).
    replace ((w0 + sqrt (2 + w0 ^ 2)) * p * sfreq / (4 * PI) * (4 * PI))
      with ((w0 + sqrt (2 + w0 ^ 2)) * (p * sfreq)) by (field; lra).
    apply Rmult_lt_compat_r; lra.
Qed.

Lemma scale_admissible_above_NA_witness :
  scale_of_periodNA 50 1 omega0 = 50 * 1
  /\ scale_of_periodNA 50 1 omega0 < scale_of_period 50 1 omega0.
Proof.
  apply (scale_admissible_above_NA 50 1 omega0); lra.
Defined.

Lemma Morlet_COI_times_scale_aux (w0 : R) :
  0 < Morlet_COI w0 /\ 0 < sqrt 2.
Proof.
  pose proof PI_RGT_0 as Hpi.
  pose proof (admissible_factor_pos w0) as Hc.
  assert (Hs2 : 0 < sqrt 2) by (apply sqrt_lt_R0; lra).
  split; [|exact Hs2].
  unfold Morlet_COI. apply Rdiv_lt_0_compat; [lra|].
  apply Rmult_lt_0_compat; assumption.
Qed.

(** X2: the cone-of-influence slope is positive and is the inverse of the
    period-to-scale factor up to sqrt 2: slope times the admissible scale of
    a period is the period in samples divided by sqrt 2. *)
Theorem Morlet_COI_times_scale (p sfreq w0 : R) :
  0 < Morlet_COI w0
  /\ Morlet_COI w0 * scale_of_period p sfreq w0 = p * sfreq / sqrt 2.
Proof.
  pose proof PI_RGT_0 as Hpi.
  pose proof (admissible_factor_pos w0) as Hc.
  assert (Hs2 : 0 < sqrt 2) by (apply sqrt_lt_R0; lra).
  split.
  - unfold Morlet_COI. apply Rdiv_lt_0_compat; [lra|].
    apply Rmult_lt_0_compat; assumption.
  - unfold Morlet_COI, scale_of_period. field.
    repeat split; lra.
Qed.

Lemma pi_pow_m025_pos : 0 < pi_pow_m025.
Proof. unfold pi_pow_m025, Rpower. apply exp_pos. Qed.

Lemma envelope_peak_pos (scale : R) :
  0 < scale -> 0 < pi_pow_m025 * 1 / sqrt scale.
Proof.
  intros Hs. pose proof pi_pow_m025_pos.
  apply Rdiv_lt_0_compat; [lra | apply sqrt_lt_R0; exact Hs].
Qed.

(** X3: [inverse_gauss] inverts the right branch of the envelope: for a
    positive scale the offset recovered from the envelope value at [t] is
    the distance of [t] from the centre. *)
Theorem inverse_gauss_envelope (t scale : R) :
  0 < scale -> inverse_gauss (gauss_envelope t scale) scale = Rabs t.
Proof.
  intros Hs.
  pose proof (envelope_peak_pos scale Hs) as Ha.
  assert (Hsq : 0 < sqrt scale) by (apply sqrt_lt_R0; exact Hs).
  pose proof pi_pow_m025_pos as Hpi.
  unfold inverse_gauss, gauss_envelope.
  replace (1 / sqrt scale * pi_pow_m025 * exp (- (1 / 2) * (t / scale) ^ 2)
           / (pi_pow_m025 * 1 / sqrt scale))
    with (exp (- (1 / 2) * (t / scale) ^ 2)) by (field; lra).
  rewrite ln_exp.
  replace (-2 * (- (1 / 2) * (t / scale) ^ 2)) with ((t / scale)²)
    by (unfold Rsqr; field; lra).
  rewrite sqrt_Rsqr_abs.
  unfold Rdiv. rewrite Rabs_mult, (Rabs_right (/ scale)).
  - field. lra.
  - apply Rle_ge. left. apply Rinv_0_lt_compat. exact Hs.
Qed.

Lemma inverse_gauss_envelope_witness :
  0 < 4 /\ inverse_gauss (gauss_envelope (-3) 4) 4 = 3.
Proof.
  split; [lra|].
  rewrite (inverse_gauss_envelope (-3) 4) by lra.
  rewrite Rabs_left by lra. lra.
Defined.

(** X4: the modulus of the Morlet wavelet is its Gaussian envelope, for a
    positive scale and any central frequency. *)
Theorem Morlet_modulus_is_envelope (w0 t scale : R) :
  0 < scale -> Cabs (Morlet w0 t scale) = gauss_envelope t scale.
Proof.
  intros Hs.
  assert (Hsq : 0 < sqrt scale) by (apply sqrt_lt_R0; exact Hs).
  pose proof pi_pow_m025_pos as Hpi.
  pose proof (exp_pos (- (1 / 2) * (t / scale) ^ 2)) as He.
  unfold Cabs, Morlet, Cscale, Cexp_i, gauss_envelope. cbn [fst snd].
  set (E := exp (- (1 / 2) * (t / scale) ^ 2)) in *.
  set (th := w0 * t / scale).
  assert (Hk : 0 < 1 / sqrt scale * pi_pow_m025 * E).
  { apply Rmult_lt_0_compat; [apply Rmult_lt_0_compat|]; try assumption.
    apply Rdiv_lt_0_compat; lra. }
  replace ((1 / sqrt scale * (E * (pi_pow_m025 * cos th))) ^ 2
           + (1 / sqrt scale * (E * (pi_pow_m025 * sin th))) ^ 2)
    with ((1 / sqrt scale * pi_pow_m025 * E)²
          * ((sin th)² + (cos th)²))
    by (unfold Rsqr; field; lra).
  rewrite sin2_cos2, Rmult_1_r, sqrt_Rsqr; lra.
Qed.

Lemma Morlet_modulus_is_envelope_witness :
  0 < 2 /\ Cabs (Morlet omega0 1 2) = gauss_envelope 1 2.
Proof.
  split; [lra|]. apply Morlet_modulus_is_envelope. lra.
Defined.

Lemma exp_mult_nat (x : R) (n : nat) : exp (INR n * x) = exp x ^ n.
Proof.
  induction n as [|n IH].
  - simpl. rewrite Rmult_0_l. apply exp_0.
  - rewrite S_INR, Rmult_plus_distr_r, Rmult_1_l, exp_plus, IH. simpl. ring.
Qed.

Lemma ln_peak_fraction_bounds : 8 < ln peak_fraction < 18.
Proof.
  assert (Hpf : 0 < peak_fraction) by (unfold peak_fraction; lra).
  split; apply exp_lt_inv; rewrite exp_ln by exact Hpf.
  - replace 8 with (INR 8 * 1) by (simpl; lra). rewrite exp_mult_nat.
    apply Rle_lt_trans with (3 ^ 8).
    + apply pow_incr. split; [left; apply exp_pos | apply exp_le_3].
    + unfold peak_fraction. simpl. lra.
  - replace 18 with (INR 36 * (1 / 2)) by (simpl; lra). rewrite exp_mult_nat.
    apply Rlt_le_trans with ((3 / 2) ^ 36).
    + unfold peak_fraction. simpl. lra.
    + apply pow_incr. split; [lra|].
      left. replace (3 / 2) with (1 + 1 / 2) by lra. apply exp_ineq1. lra.
Qed.

Lemma support_factor_bounds : 4 < sqrt (2 * ln peak_fraction) < 6.
Proof.
  pose proof ln_peak_fraction_bounds as [Hlo Hhi].
  split.
  - replace 4 with (sqrt (4 ^ 2)) by (apply sqrt_pow2; lra).
    apply sqrt_lt_1; lra.
  - replace 6 with (sqrt (6 ^ 2)) by (apply sqrt_pow2; lra).
    apply sqrt_lt_1; lra.
Qed.

Lemma support_radius (scale : R) :
  0 < scale ->
  inverse_gauss (gauss_envelope 0 scale / peak_fraction) scale
  = scale * sqrt (2 * ln peak_fraction).
Proof.
  intros Hs.
  assert (Hsq : 0 < sqrt scale) by (apply sqrt_lt_R0; exact Hs).
  pose proof pi_pow_m025_pos as Hpi.
  assert (Hpf : 0 < peak_fraction) by (unfold peak_fraction; lra).
  unfold inverse_gauss, gauss_envelope.
  replace (- (1 / 2) * (0 / scale) ^ 2) with 0 by (field; lra).
  rewrite exp_0.
  replace (1 / sqrt scale * pi_pow_m025 * 1 / peak_fraction
           / (pi_pow_m025 * 1 / sqrt scale))
    with (/ peak_fraction) by (field; lra).
  rewrite ln_Rinv by exact Hpf.
  f_equal. f_equal. ring.
Qed.

(** X5: the offset at which the envelope has fallen to 1/peak_fraction of
    its peak, which [CWT] uses as support radius before truncation to an
    integer, is proportional to the scale: it is
    scale * sqrt(2 ln peak_fraction), which lies strictly between four and
    six scales. *)
Theorem support_radius_linear (scale : R) :
  0 < scale ->
  let r := inverse_gauss (gauss_envelope 0 scale / peak_fraction) scale in
  r = scale * sqrt (2 * ln peak_fraction)
  /\ 4 * scale < r < 6 * scale.
Proof.
  intros Hs r. unfold r.
  pose proof support_factor_bounds as [Hlo Hhi].
  rewrite support_radius by exact Hs.
  split; [reflexivity|]. split; nra.
Qed.

Lemma support_radius_linear_witness :
  0 < 3
  /\ inverse_gauss (gauss_envelope 0 3 / peak_fraction) 3
     = 3 * sqrt (2 * ln peak_fraction)
  /\ 4 * 3 < inverse_gauss (gauss_envelope 0 3 / peak_fraction) 3 < 6 * 3.
Proof.
  split; [lra|]. apply (support_radius_linear 3). lra.
Defined.

(** ** Greedy ridge *)

Lemma mapM_ok {A B : Type} (f : A -> result B) (g : A -> B) (l : list A) :
  (forall x, In x l -> f x = Ok (g x)) -> mapM f l = Ok (map g l).
Proof.
  induction l as [|x rest IH]; intros H; simpl; [reflexivity|].
  rewrite (H x) by (left; reflexivity). simpl bind.
  rewrite IH by (intros y Hy; apply H; right; exact Hy).
  reflexivity.
Qed.

Lemma getitem_nth (a : list R) (i : nat) :
  (i < length a)%nat -> Np.getitem a (Z.of_nat i) = Ok (nth i a 0).
Proof.
  intros Hi. apply getitem_nat.
  apply nth_error_nth'. exact Hi.
Qed.

Lemma column_rect (m : list (list R)) (n t : nat) :
  Forall (fun row => length row = n) m -> (t < n)%nat ->
  column m (Z.of_nat t) = Ok (map (fun row => nth t row 0) m).
Proof.
  intros Hrect Ht. unfold column. apply mapM_ok.
  intros row Hin. rewrite Forall_forall in Hrect.
  apply getitem_nth. rewrite (Hrect row Hin). exact Ht.
Qed.

Lemma argmax_from_spec (rest : list R) :
  forall pre best besti,
    (besti < length pre)%nat -> nth besti pre 0 = best ->
    (forall j, (j < length pre)%nat -> nth j pre 0 <= best) ->
    (forall j, (j < besti)%nat -> nth j pre 0 < best) ->
    let r := argmax_from best besti (length pre) rest in
    (r < length (pre ++ rest))%nat
    /\ (forall j, (j < length (pre ++ rest))%nat ->
          nth j (pre ++ rest) 0 <= nth r (pre ++ rest) 0)
    /\ (forall j, (j < r)%nat -> nth j (pre ++ rest) 0 < nth r (pre ++ rest) 0).
Proof.
  induction rest as [|x xs IH]; intros pre best besti Hb Hbest Hall Hfirst.
  - simpl. rewrite app_nil_r. rewrite Hbest.
    split; [exact Hb|]. split; assumption.
  - cbn [argmax_from].
    replace (pre ++ x :: xs) with ((pre ++ [x]) ++ xs)
      by (rewrite <- app_assoc; reflexivity).
    replace (S (length pre)) with (length (pre ++ [x]))
      by (rewrite length_app; simpl; lia).
    destruct (Rgtb x best) eqn:Hx.
    + apply Rgtb_true in Hx.
      apply IH.
      * rewrite length_app; simpl; lia.
      * rewrite app_nth2, Nat.sub_diag by lia. reflexivity.
      * intros j Hj. rewrite length_app in Hj; simpl in Hj.
        destruct (Nat.lt_ge_cases j (length pre)) as [Hlt|Hge].
        -- rewrite app_nth1 by exact Hlt. specialize (Hall j Hlt). lra.
        -- replace j with (length pre) by lia.
           rewrite app_nth2, Nat.sub_diag by lia. simpl. lra.
      * intros j Hj. rewrite app_nth1 by exact Hj.
        specialize (Hall j Hj). lra.
    + apply Rgtb_false in Hx.
      apply IH.
      * rewrite length_app; simpl; lia.
      * rewrite app_nth1 by exact Hb. exact Hbest.
      * intros j Hj. rewrite length_app in Hj; simpl in Hj.
        destruct (Nat.lt_ge_cases j (length pre)) as [Hlt|Hge].
        -- rewrite app_nth1 by exact Hlt. apply Hall; exact Hlt.
        -- replace j with (length pre) by lia.
           rewrite app_nth2, Nat.sub_diag by lia. simpl. exact Hx.
      * intros j Hj. rewrite app_nth1 by lia. apply Hfirst; exact Hj.
Qed.

Lemma argmax_spec (a : list R) :
  a <> [] ->
  exists r,
    argmax a = Ok (Z.of_nat r) /\ (r < length a)%nat
    /\ (forall j, (j < length a)%nat -> nth j a 0 <= nth r a 0)
    /\ (forall j, (j < r)%nat -> nth j a 0 < nth r a 0).
Proof.
  destruct a as [|x xs]; [congruence|]. intros _.
  exists (argmax_from x 0 1 xs). split; [reflexivity|].
  apply (argmax_from_spec xs [x] x 0%nat).
  - simpl; lia.
  - reflexivity.
  - intros j Hj. simpl in Hj. replace j with 0%nat by lia. simpl. lra.
  - intros j Hj. lia.
Qed.

Lemma column_argmax (modulus : list (list R)) (P n : nat) :
  has_shape modulus P n -> (1 <= P)%nat ->
  forall t, (t < n)%nat ->
    exists r,
      (col <- column modulus (Z.of_nat t) ;; argmax col) = Ok (Z.of_nat r)
      /\ (r < P)%nat
      /\ (forall y', (y' < P)%nat -> entry modulus y' t <= entry modulus r t)
      /\ (forall y', (y' < r)%nat -> entry modulus y' t < entry modulus r t).
Proof.
  intros [HP Hrect] H1 t Ht.
  rewrite (column_rect modulus n t Hrect Ht). simpl bind.
  set (col := map (fun row => nth t row 0) modulus).
  assert (Hcl : length col = P) by (unfold col; rewrite length_map; exact HP).
  assert (Hne : col <> []) by (intros E; rewrite E in Hcl; simpl in Hcl; lia).
  destruct (argmax_spec col Hne) as (r & Hr & Hlt & Hmax & Hfst).
  assert (Hent : forall y, entry modulus y t = nth y col 0).
  { intros y. unfold entry, col.
    destruct (Nat.lt_ge_cases y (length modulus)) as [Hy|Hy].
    - rewrite (nth_indep (map (fun row => nth t row 0) modulus) 0
                 (nth t [] 0)) by (rewrite length_map; exact Hy).
      rewrite (map_nth (fun row => nth t row 0)). reflexivity.
    - rewrite (nth_overflow modulus) by exact Hy.
      rewrite (nth_overflow (map (fun row => nth t row 0) modulus))
        by (rewrite length_map; exact Hy).
      destruct t; reflexivity. }
  exists r. split; [exact Hr|]. split; [lia|].
  split.
  - intros y' Hy'. rewrite !Hent. apply Hmax. lia.
  - intros y' Hy'. rewrite !Hent. apply Hfst. exact Hy'.
Qed.

(** The ridge over the columns a, a+1, ..., a+m-1. *)
Lemma maxRidge_columns (modulus : list (list R)) (P n : nat) :
  has_shape modulus P n -> (1 <= P)%nat ->
  forall m a, (a + m <= n)%nat ->
    exists ridge,
      mapM (fun t => col <- column modulus t ;; argmax col)
        (map Z.of_nat (seq a m)) = Ok (map Z.of_nat ridge)
      /\ length ridge = m
      /\ Forall (fun y => (y < P)%nat) ridge
      /\ forall k, (k < m)%nat ->
           let y := nth k ridge 0%nat in
           (forall y', (y' < P)%nat ->
              entry modulus y' (a + k) <= entry modulus y (a + k))
           /\ (forall y', (y' < y)%nat ->
                 entry modulus y' (a + k) < entry modulus y (a + k)).
Proof.
  intros Hs H1 m. induction m as [|m IH]; intros a Ham.
  - exists []. split; [reflexivity|]. split; [reflexivity|].
    split; [constructor|]. intros k Hk; lia.
  - destruct (column_argmax modulus P n Hs H1 a) as (r & Hr & HrP & Hrest);
      [lia|].
    destruct (IH (S a)) as (ridge & Hm & Hl & HP & Hprop); [lia|].
    exists (r :: ridge). split.
    + simpl. rewrite Hr. simpl bind. simpl in Hm. rewrite Hm. reflexivity.
    + split; [simpl; lia|]. split; [constructor; assumption|].
      intros [|k] Hk; cbn zeta.
      * rewrite Nat.add_0_r. simpl nth. exact Hrest.
      * simpl nth. replace (a + S k)%nat with (S a + k)%nat by lia.
        apply Hprop. lia.
Qed.

(** X6: on a modulus of P >= 1 rows and N columns [get_maxRidge] returns a
    ridge of N entries; the entry of a column is a row index, the modulus
    there is the largest of the column, and among equal maxima the row of
    smallest index is taken. *)
Theorem get_maxRidge_is_column_maximum (modulus : list (list R)) (P n : nat) :
  has_shape modulus P n -> (1 <= P)%nat ->
  exists ridge,
    get_maxRidge modulus = Ok (map Z.of_nat ridge)
    /\ length ridge = n
    /\ forall t, (t < n)%nat ->
         let y := nth t ridge 0%nat in
         (y < P)%nat
         /\ (forall y', (y' < P)%nat -> entry modulus y' t <= entry modulus y t)
         /\ (forall y', (y' < y)%nat -> entry modulus y' t < entry modulus y t).
Proof.
  intros Hs H1.
  assert (Hshape : Np.shape1 modulus = n).
  { destruct Hs as [HP Hrect].
    apply shape1_rect; [|exact Hrect]. intros ->. simpl in HP. lia. }
  destruct (maxRidge_columns modulus P n Hs H1 n 0%nat) as (ridge & Hm & Hl & HP & Hprop);
    [lia|].
  exists ridge. unfold get_maxRidge, Np.arange. rewrite Hshape.
  split; [exact Hm|]. split; [exact Hl|].
  intros t Ht. cbv zeta. split.
  - rewrite Forall_forall in HP. apply HP. apply nth_In. lia.
  - apply (Hprop t Ht).
Qed.

Lemma get_maxRidge_is_column_maximum_witness :
  exists ridge,
    get_maxRidge [[1; 5; 2]; [3; 5; 0]] = Ok (map Z.of_nat ridge)
    /\ length ridge = 3%nat.
Proof.
  assert (Hs : has_shape [[1; 5; 2]; [3; 5; 0]] 2 3).
  { split; [reflexivity|]. repeat constructor. }
  destruct (get_maxRidge_is_column_maximum _ 2 3 Hs) as (r & Hr & Hl & _);
    [lia|].
  exists r. split; assumption.
Defined.

Example get_maxRidge_ties :
  get_maxRidge [[1; 5; 2]; [3; 5; 0]] = Ok [1; 0; 0]%Z.
Proof.
  unfold get_maxRidge, column, argmax. simpl.
  rewrite (Rgtb_lt 3 1), (Rgtb_le 5 5), (Rgtb_le 0 2) by lra.
  reflexivity.
Qed.

(** ** Ridge evaluation, further *)

Lemma compress_length_le {A : Type} (mask : list bool) (a : list A) :
  (length (Np.compress mask a) <= length a)%nat.
Proof.
  revert a; induction mask as [|m ms IH]; intros [|x xs]; simpl; try lia.
  specialize (IH xs). destruct m; simpl; lia.
Qed.

Lemma has_shape_ridge_inputs (ridge_y : list Z) (wlet : list (list complex))
  (periods tvec : list R) (P : nat) :
  has_shape wlet P (length tvec) -> (1 <= P)%nat -> (2 <= length tvec)%nat ->
  length periods = P -> length ridge_y = length tvec ->
  Forall (valid_index P) ridge_y ->
  ridge_inputs_ok ridge_y wlet periods tvec.
Proof.
  intros [HP Hrect] H1 H2 Hper Hlen Hidx.
  constructor; try assumption.
  - intros ->. simpl in HP. lia.
  - rewrite HP. exact Hidx.
  - congruence.
Qed.

(** X7: the greedy pipeline does not raise.  For a signal of positive
    variance, a transform of P >= 1 periods over N >= 2 time points and a
    modulus of the same shape, the ridge of [get_maxRidge] is accepted by
    [eval_ridge], which returns a table of at most N rows, whatever the
    threshold. *)
Theorem maxRidge_then_eval_ridge
  (savgol_filter : list R -> Z -> Z -> result (list R))
  (modulus : list (list R)) (wlet : list (list complex))
  (signal periods tvec : list R) (power_thresh : R) (P : nat) :
  has_shape wlet P (length tvec) -> has_shape modulus P (length tvec) ->
  (1 <= P)%nat -> (2 <= length tvec)%nat -> length periods = P ->
  0 < Np.var signal ->
  exists ridge rd,
    get_maxRidge modulus = Ok ridge
    /\ eval_ridge savgol_filter ridge wlet signal periods tvec power_thresh
         None = Ok rd
    /\ (nrows rd <= length tvec)%nat.
Proof.
  intros Hw Hm H1 H2 Hper _.
  destruct (maxRidge_columns modulus P (length tvec) Hm H1 (length tvec) 0%nat)
    as (ridge & Hr & Hl & HP & _); [lia|].
  assert (Hshape : Np.shape1 modulus = length tvec).
  { destruct Hm as [HmP Hrect].
    apply shape1_rect; [|exact Hrect]. intros ->. simpl in HmP. lia. }
  assert (Hget : get_maxRidge modulus = Ok (map Z.of_nat ridge)).
  { unfold get_maxRidge, Np.arange. rewrite Hshape. exact Hr. }
  assert (Hidx : Forall (valid_index P) (map Z.of_nat ridge)).
  { apply Forall_forall. intros z Hz.
    apply in_map_iff in Hz as [y [<- Hy]].
    rewrite Forall_forall in HP. specialize (HP y Hy).
    unfold valid_index. lia. }
  assert (Hok : ridge_inputs_ok (map Z.of_nat ridge) wlet periods tvec).
  { apply (has_shape_ridge_inputs _ _ _ _ P); try assumption.
    rewrite length_map. exact Hl. }
  destruct (eval_ridge_unfold savgol_filter (map Z.of_nat ridge) wlet signal
              periods tvec power_thresh None Hok)
    as (t0 & t1 & ridge_per & ridge_z & ridge_power
        & _ & _ & _ & _ & _ & _ & Hpwl & Heval).
  cbv zeta in Heval. simpl bind in Heval.
  eexists _, _. split; [exact Hget|]. split; [exact Heval|].
  unfold nrows. cbn [rd_time].
  apply compress_length_le.
Qed.

Lemma maxRidge_then_eval_ridge_witness :
  exists ridge rd,
    get_maxRidge modulus_2x5 = Ok ridge
    /\ eval_ridge no_savgol ridge wlet_2x5 signal_5 periods_2 tvec_5 0 None
       = Ok rd.
Proof.
  assert (Hw : has_shape wlet_2x5 2 (length tvec_5)).
  { split; [reflexivity|]. repeat constructor. }
  assert (Hm : has_shape modulus_2x5 2 (length tvec_5)).
  { split; [reflexivity|]. repeat constructor. }
  destruct (maxRidge_then_eval_ridge no_savgol modulus_2x5 wlet_2x5 signal_5
              periods_2 tvec_5 0 2 Hw Hm)
    as (ridge & rd & Hr & He & _); try (simpl; lia); try reflexivity.
  - rewrite var_signal_5. lra.
  - exists ridge, rd. split; assumption.
Defined.

Lemma fmod_range (x m : R) : 0 < m -> 0 <= fmod x m < m.
Proof.
  intros Hm. unfold fmod.
  destruct (base_Int_part (x / m)) as [Hlo Hhi].
  set (k := IZR (Int_part (x / m))) in *.
  assert (Hx : x = x / m * m) by (field; lra).
  split.
  - assert (k * m <= x / m * m) by (apply Rmult_le_compat_r; lra). lra.
  - assert (x / m * m < (k + 1) * m) by (apply Rmult_lt_compat_r; lra). lra.
Qed.

(** What a returned table is made of. *)
Lemma eval_ridge_inv
  (savgol_filter : list R -> Z -> Z -> result (list R))
  (ridge_y : list Z) (wlet : list (list complex))
  (signal periods tvec : list R) (power_thresh : R) (sw : option Z)
  (rd : RidgeData) :
  eval_ridge savgol_filter ridge_y wlet signal periods tvec power_thresh sw
  = Ok rd ->
  exists ridge_z ridge_power sign_per phi,
    ridge_power_of ridge_y wlet signal = Ok ridge_power
    /\ Np.mask_index (map angle ridge_z)
         (map (fun p => Rgtb p power_thresh) ridge_power) = Ok phi
    /\ rd_phase rd = map (fun a => fmod a (2 * PI)) phi
    /\ rd_periods rd = sign_per
    /\ rd_frequencies rd = map (fun p => 1 / p) sign_per
    /\ Np.mask_index tvec (map (fun p => Rgtb p power_thresh) ridge_power)
       = Ok (rd_time rd)
    /\ Np.mask_index ridge_power
         (map (fun p => Rgtb p power_thresh) ridge_power) = Ok (rd_power rd).
Proof.
  unfold eval_ridge, ridge_power_of. intros H.
  repeat match type of H with
         | bind ?m _ = Ok _ =>
             let E := fresh "E" in
             destruct m eqn:E; [simpl bind in H | discriminate H]
         end.
  inversion H; subst rd; clear H. cbn [rd_phase rd_periods rd_frequencies
                                        rd_time rd_power].
  eexists _, _, _, _.
  split; [eassumption|].
  split; [eassumption|].
  repeat split; try reflexivity; eassumption.
Qed.

(** X8: every phase of a table returned by [eval_ridge] lies in [0, 2 pi). *)
Theorem eval_ridge_phase_range
  (savgol_filter : list R -> Z -> Z -> result (list R))
  (ridge_y : list Z) (wlet : list (list complex))
  (signal periods tvec : list R) (power_thresh : R) (sw : option Z)
  (rd : RidgeData) :
  eval_ridge savgol_filter ridge_y wlet signal periods tvec power_thresh sw
  = Ok rd ->
  Forall (fun phi => 0 <= phi < 2 * PI) (rd_phase rd)
  /\ length (rd_phase rd) = nrows rd.
Proof.
  intros H.
  destruct (eval_ridge_inv _ _ _ _ _ _ _ _ _ H)
    as (ridge_z & ridge_power & sign_per & phi
        & _ & Hphi & Hph & _ & _ & Ht & _).
  rewrite Hph. split.
  - apply Forall_forall. intros x Hx.
    apply in_map_iff in Hx as [a [<- _]].
    apply fmod_range. pose proof PI_RGT_0. lra.
  - rewrite length_map. unfold nrows.
    unfold Np.mask_index in Hphi, Ht.
    destruct (Nat.eqb_spec
                (length (map (fun p => Rgtb p power_thresh) ridge_power))
                (length (map angle ridge_z))) as [E1|]; [|discriminate].
    destruct (Nat.eqb_spec
                (length (map (fun p => Rgtb p power_thresh) ridge_power))
                (length tvec)) as [E2|]; [|discriminate].
    inversion Hphi; inversion Ht.
    apply compress_length; congruence.
Qed.

Lemma eval_ridge_phase_range_witness :
  exists rd,
    eval_ridge no_savgol ridge_5 wlet_2x5 signal_5 periods_2 tvec_5 0 None
    = Ok rd
    /\ Forall (fun phi => 0 <= phi < 2 * PI) (rd_phase rd).
Proof.
  destruct (eval_ridge_unfold no_savgol ridge_5 wlet_2x5 signal_5 periods_2
              tvec_5 0 None ridge_inputs_ok_example)
    as (t0 & t1 & ridge_per & ridge_z & ridge_power
        & _ & _ & _ & _ & _ & _ & _ & Heval).
  cbv zeta in Heval. simpl bind in Heval.
  eexists. split; [exact Heval|].
  apply (eval_ridge_phase_range _ _ _ _ _ _ _ _ _ Heval).
Defined.

Lemma eval_ridge_no_smoothing
  (savgol_filter : list R -> Z -> Z -> result (list R))
  (ridge_y : list Z) (wlet : list (list complex))
  (signal periods tvec : list R) (power_thresh : R) :
  ridge_inputs_ok ridge_y wlet periods tvec ->
  exists ridge_power rd,
    ridge_power_of ridge_y wlet signal = Ok ridge_power
    /\ length ridge_power = length tvec
    /\ eval_ridge savgol_filter ridge_y wlet signal periods tvec power_thresh
         None = Ok rd
    /\ rd_time rd
       = Np.compress (map (fun p => Rgtb p power_thresh) ridge_power) tvec
    /\ rd_power rd
       = Np.compress (map (fun p => Rgtb p power_thresh) ridge_power)
           ridge_power.
Proof.
  intros Hok.
  destruct (eval_ridge_unfold savgol_filter ridge_y wlet signal periods tvec
              power_thresh None Hok)
    as (t0 & t1 & ridge_per & ridge_z & ridge_power
        & _ & _ & _ & _ & _ & Hpw & Hpwl & Heval).
  cbv zeta in Heval. simpl bind in Heval.
  eexists ridge_power, _.
  split; [exact Hpw|]. split; [exact Hpwl|]. split; [exact Heval|].
  split; reflexivity.
Qed.

Lemma filter_stricter {A : Type} (f g : A -> bool) (l : list A) :
  (forall x, g x = true -> f x = true) ->
  (forall x, In x (filter g l) -> In x (filter f l))
  /\ (length (filter g l) <= length (filter f l))%nat.
Proof.
  intros Hfg. split.
  - intros x Hx. apply filter_In in Hx as [Hin Hg].
    apply filter_In. split; [exact Hin | apply Hfg; exact Hg].
  - induction l as [|x xs IH]; simpl; [lia|].
    destruct (g x) eqn:Hg.
    + rewrite (Hfg x Hg). simpl. lia.
    + destruct (f x); simpl; lia.
Qed.

(** X9: raising the threshold only removes rows.  On well-formed inputs and
    a signal of positive variance the (time, power) rows kept at a
    threshold are among those kept at any lower threshold, and there are no
    more of them. *)
Theorem eval_ridge_threshold_monotone
  (savgol_filter : list R -> Z -> Z -> result (list R))
  (ridge_y : list Z) (wlet : list (list complex))
  (signal periods tvec : list R) (lo hi : R) :
  ridge_inputs_ok ridge_y wlet periods tvec -> 0 < Np.var signal ->
  lo <= hi ->
  exists rd_lo rd_hi,
    eval_ridge savgol_filter ridge_y wlet signal periods tvec lo None
    = Ok rd_lo
    /\ eval_ridge savgol_filter ridge_y wlet signal periods tvec hi None
       = Ok rd_hi
    /\ (forall row, In row (combine (rd_time rd_hi) (rd_power rd_hi)) ->
          In row (combine (rd_time rd_lo) (rd_power rd_lo)))
    /\ (nrows rd_hi <= nrows rd_lo)%nat.
Proof.
  intros Hok _ Hle.
  destruct (eval_ridge_no_smoothing savgol_filter ridge_y wlet signal periods
              tvec lo Hok) as (pw & rd_lo & Hpw & Hpwl & Hlo & Htl & Hpl).
  destruct (eval_ridge_no_smoothing savgol_filter ridge_y wlet signal periods
              tvec hi Hok) as (pw' & rd_hi & Hpw' & _ & Hhi & Hth & Hph).
  rewrite Hpw in Hpw'. inversion Hpw'; subst pw'.
  exists rd_lo, rd_hi. split; [exact Hlo|]. split; [exact Hhi|].
  assert (Hpairs : forall th rd,
            rd_time rd = Np.compress (map (fun p => Rgtb p th) pw) tvec ->
            rd_power rd = Np.compress (map (fun p => Rgtb p th) pw) pw ->
            combine (rd_time rd) (rd_power rd)
            = filter (fun tp => Rgtb (snd tp) th) (combine tvec pw)).
  { intros th rd Ht Hp. rewrite Ht, Hp.
    apply (compress_pairs (fun p => Rgtb p th) tvec pw). congruence. }
  assert (Himp : forall tp : R * R,
            Rgtb (snd tp) hi = true -> Rgtb (snd tp) lo = true).
  { intros tp H. apply Rgtb_true in H. apply Rgtb_true. lra. }
  destruct (filter_stricter (fun tp : R * R => Rgtb (snd tp) lo)
              (fun tp => Rgtb (snd tp) hi) (combine tvec pw) Himp)
    as [Hsub Hlen].
  rewrite (Hpairs lo rd_lo Htl Hpl), (Hpairs hi rd_hi Hth Hph).
  split; [exact Hsub|].
  assert (Hn : forall th rd,
            rd_time rd = Np.compress (map (fun p => Rgtb p th) pw) tvec ->
            rd_power rd = Np.compress (map (fun p => Rgtb p th) pw) pw ->
            nrows rd
            = length (filter (fun tp => Rgtb (snd tp) th) (combine tvec pw))).
  { intros th rd Ht Hp. rewrite <- (Hpairs th rd Ht Hp).
    rewrite length_combine. unfold nrows.
    assert (length (rd_time rd) = length (rd_power rd)).
    { rewrite Ht, Hp. apply compress_length; rewrite length_map; congruence. }
    lia. }
  rewrite (Hn lo rd_lo Htl Hpl), (Hn hi rd_hi Hth Hph). exact Hlen.
Qed.

Lemma eval_ridge_threshold_monotone_witness :
  exists rd_lo rd_hi,
    eval_ridge no_savgol ridge_5 wlet_2x5 signal_5 periods_2 tvec_5 1 None
    = Ok rd_lo
    /\ eval_ridge no_savgol ridge_5 wlet_2x5 signal_5 periods_2 tvec_5 5 None
       = Ok rd_hi
    /\ (nrows rd_hi <= nrows rd_lo)%nat.
Proof.
  destruct (eval_ridge_threshold_monotone no_savgol ridge_5 wlet_2x5 signal_5
              periods_2 tvec_5 1 5 ridge_inputs_ok_example)
    as (rd_lo & rd_hi & H1 & H2 & _ & H4);
    [rewrite var_signal_5; lra | lra |].
  exists rd_lo, rd_hi. repeat split; assumption.
Defined.

Lemma getitem_invalid {A : Type} (a : list A) (i : Z) :
  ~ valid_index (length a) i -> Np.getitem a i = Raise IndexError.
Proof.
  unfold valid_index, Np.getitem. intros H.
  destruct (Z.ltb_spec i 0).
  - destruct (Z.leb_spec 0 (i + Z.of_nat (length a))); [lia|reflexivity].
  - destruct (Z.leb_spec 0 i); [|reflexivity].
    destruct (Z.ltb_spec i (Z.of_nat (length a))); [lia|reflexivity].
Qed.

Lemma getitem_raises_IndexError {A : Type} (a : list A) (i : Z) (e : exn) :
  Np.getitem a i = Raise e -> e = IndexError.
Proof.
  unfold Np.getitem.
  destruct (_ && _)%bool; [|congruence].
  destruct (nth_error a _); congruence.
Qed.

Lemma take_invalid {A : Type} (a : list A) (idx : list Z) :
  Exists (fun i => ~ valid_index (length a) i) idx ->
  Np.take a idx = Raise IndexError.
Proof.
  induction idx as [|i rest IH]; intros H; [inversion H|].
  simpl.
  destruct (Np.getitem a i) as [x|e] eqn:Hx.
  - simpl bind. inversion H as [? ? Hbad|? ? Hrest]; subst.
    + rewrite (getitem_invalid a i Hbad) in Hx. discriminate.
    + rewrite (IH Hrest). reflexivity.
  - apply getitem_raises_IndexError in Hx. subst e. reflexivity.
Qed.

(** X10: [eval_ridge] needs two time points and row indices that exist.
    With fewer than two entries in [tvec] it raises IndexError (the sampling
    interval is read off the first two), and with at least two it raises
    IndexError as soon as some ridge entry is not an index into [periods]
    (below -P or at least P). *)
Theorem eval_ridge_index_errors
  (savgol_filter : list R -> Z -> Z -> result (list R))
  (ridge_y : list Z) (wlet : list (list complex))
  (signal periods tvec : list R) (power_thresh : R) (sw : option Z) :
  ((length tvec < 2)%nat ->
   eval_ridge savgol_filter ridge_y wlet signal periods tvec power_thresh sw
   = Raise IndexError)
  /\ ((2 <= length tvec)%nat ->
      Exists (fun i => ~ valid_index (length periods) i) ridge_y ->
      eval_ridge savgol_filter ridge_y wlet signal periods tvec power_thresh
        sw = Raise IndexError).
Proof.
  split.
  - intros Hlen. unfold eval_ridge.
    rewrite (getitem_invalid tvec 1); [reflexivity|].
    unfold valid_index. lia.
  - intros Hlen Hbad. unfold eval_ridge.
    destruct (getitem_ok tvec 1) as [t1 [Ht1 _]]; [unfold valid_index; lia|].
    destruct (getitem_ok tvec 0) as [t0 [Ht0 _]]; [unfold valid_index; lia|].
    rewrite Ht1, Ht0. simpl bind.
    rewrite (take_invalid periods ridge_y Hbad). reflexivity.
Qed.

Lemma eval_ridge_index_errors_witness :
  eval_ridge no_savgol [0]%Z [[(1, 0)]] [1; -1] [10] [0] 0 None
  = Raise IndexError
  /\ eval_ridge no_savgol [0; 0; 7; 0; 0]%Z wlet_2x5 signal_5 periods_2 tvec_5
       0 None = Raise IndexError.
Proof.
  split.
  - apply (proj1 (eval_ridge_index_errors no_savgol [0]%Z [[(1, 0)]] [1; -1]
                    [10] [0] 0 None)).
    simpl. lia.
  - apply (proj2 (eval_ridge_index_errors no_savgol [0; 0; 7; 0; 0]%Z wlet_2x5
                    signal_5 periods_2 tvec_5 0 None)).
    + simpl. lia.
    + apply Exists_cons_tl, Exists_cons_tl, Exists_cons_hd.
      unfold valid_index. simpl. lia.
Defined.

Lemma getitem_In {A : Type} (a : list A) (i : Z) (x : A) :
  Np.getitem a i = Ok x -> In x a.
Proof.
  unfold Np.getitem.
  destruct (_ && _)%bool; [|discriminate].
  destruct (nth_error a _) eqn:Hn; [|discriminate].
  intros H; inversion H; subst. eapply nth_error_In; eassumption.
Qed.

Lemma gather_pairs_In {A : Type} (m : list (list A)) (rows cols : list Z) :
  forall l, Np.gather_pairs m rows cols = Ok l ->
    Forall (fun x => exists row, In row m /\ In x row) l.
Proof.
  revert cols; induction rows as [|r rs IH]; intros cols l H.
  - simpl in H. inversion H. constructor.
  - destruct cols as [|c cs]; simpl in H; [inversion H; constructor|].
    destruct (Np.getitem m r) as [row|e] eqn:Hrow; [|discriminate].
    simpl bind in H.
    destruct (Np.getitem row c) as [x|e] eqn:Hx; [|discriminate].
    simpl bind in H.
    destruct (Np.gather_pairs m rs cs) as [xs|e] eqn:Hxs; [|discriminate].
    simpl bind in H. inversion H; subst l.
    constructor.
    + exists row. split; eapply getitem_In; eassumption.
    + apply (IH cs). exact Hxs.
Qed.

Lemma ridge_power_nonneg (ridge_y : list Z) (wlet : list (list complex))
  (signal : list R) (ridge_power : list R) :
  0 < Np.var signal ->
  ridge_power_of ridge_y wlet signal = Ok ridge_power ->
  Forall (fun p => 0 <= p) ridge_power.
Proof.
  intros Hvar H. unfold ridge_power_of, Np.fancy2 in H.
  destruct (Np.broadcast2 _ _) as [rc|e]; [|discriminate].
  simpl bind in H. apply gather_pairs_In in H.
  eapply Forall_impl; [|exact H].
  intros p [row [Hrow Hp]].
  apply in_map_iff in Hrow as [zrow [<- _]].
  apply in_map_iff in Hp as [z [<- _]].
  apply Rmult_le_pos.
  - apply pow2_ge_0.
  - left. apply Rinv_0_lt_compat. exact Hvar.
Qed.

Lemma compress_all_true {A : Type} (mask : list bool) (a : list A) :
  length mask = length a -> forallb (fun b => b) mask = true ->
  Np.compress mask a = a.
Proof.
  revert a; induction mask as [|m ms IH]; intros [|x xs] Hl H; simpl in *;
    try reflexivity; try discriminate.
  apply andb_true_iff in H as [Hm Hms]. subst m.
  f_equal. apply IH; [lia | exact Hms].
Qed.

(** X11: the ridge powers are non-negative, so a negative threshold keeps
    every time point: for a signal of positive variance and well-formed
    inputs, [eval_ridge] with power_thresh < 0 returns one row per entry
    of [tvec], in order. *)
Theorem eval_ridge_negative_threshold
  (savgol_filter : list R -> Z -> Z -> result (list R))
  (ridge_y : list Z) (wlet : list (list complex))
  (signal periods tvec : list R) (power_thresh : R) :
  ridge_inputs_ok ridge_y wlet periods tvec ->
  0 < Np.var signal -> power_thresh < 0 ->
  exists ridge_power rd,
    ridge_power_of ridge_y wlet signal = Ok ridge_power
    /\ Forall (fun p => 0 <= p) ridge_power
    /\ eval_ridge savgol_filter ridge_y wlet signal periods tvec power_thresh
         None = Ok rd
    /\ rd_time rd = tvec /\ rd_power rd = ridge_power.
Proof.
  intros Hok Hvar Hth.
  destruct (eval_ridge_no_smoothing savgol_filter ridge_y wlet signal periods
              tvec power_thresh Hok) as (pw & rd & Hpw & Hpwl & He & Ht & Hp).
  pose proof (ridge_power_nonneg ridge_y wlet signal pw Hvar Hpw) as Hnn.
  exists pw, rd. split; [exact Hpw|]. split; [exact Hnn|]. split; [exact He|].
  assert (Hall : forallb (fun b => b) (map (fun p => Rgtb p power_thresh) pw)
                 = true).
  { apply forallb_forall. intros b Hb.
    apply in_map_iff in Hb as [p [<- Hin]].
    rewrite Forall_forall in Hnn. specialize (Hnn p Hin).
    apply Rgtb_true. lra. }
  rewrite Ht, Hp.
  split; apply compress_all_true; try exact Hall;
    rewrite length_map; congruence.
Qed.

Lemma eval_ridge_negative_threshold_witness :
  exists rd,
    eval_ridge no_savgol ridge_5 wlet_2x5 signal_5 periods_2 tvec_5 (-1) None
    = Ok rd
    /\ rd_time rd = tvec_5.
Proof.
  destruct (eval_ridge_negative_threshold no_savgol ridge_5 wlet_2x5 signal_5
              periods_2 tvec_5 (-1) ridge_inputs_ok_example)
    as (pw & rd & _ & _ & He & Ht & _).
  - rewrite var_signal_5. lra.
  - lra.
  - exists rd. split; assumption.
Defined.

(** ** Cone-of-influence crossing, further *)

Lemma compress_nil_mask {A : Type} (mask : list bool) (a : list A) :
  length mask = length a -> Np.compress mask a = [] ->
  forall k, nth k mask false = false.
Proof.
  revert a; induction mask as [|m ms IH]; intros [|x xs] Hl H k;
    simpl in *; try discriminate.
  - destruct k; reflexivity.
  - destruct m; [discriminate|].
    destruct k; [reflexivity|]. apply (IH xs); [lia | exact H].
Qed.

Lemma compress_seq_first (mask : list bool) :
  forall a n x rest,
    length mask = n ->
    Np.compress mask (map Z.of_nat (seq a n)) = x :: rest ->
    exists k, x = Z.of_nat (a + k) /\ (k < n)%nat
              /\ nth k mask false = true
              /\ forall j, (j < k)%nat -> nth j mask false = false.
Proof.
  induction mask as [|m ms IH]; intros a n x rest Hl H.
  - simpl in H. discriminate.
  - destruct n as [|n]; [discriminate|]. simpl in Hl, H.
    destruct m.
    + inversion H; subst. exists 0%nat.
      rewrite Nat.add_0_r. repeat split; lia.
    + destruct (IH (S a) n x rest) as (k & Hx & Hk & Hsel & Hbefore);
        [lia | exact H |].
      exists (S k). split; [rewrite Hx; f_equal; lia|].
      split; [lia|]. split; [exact Hsel|].
      intros [|j] Hj; [reflexivity|]. apply Hbefore. lia.
Qed.

Lemma compress_seq_last (mask : list bool) :
  forall a n l x,
    length mask = n ->
    Np.compress mask (map Z.of_nat (seq a n)) = l ++ [x] ->
    exists k, x = Z.of_nat (a + k) /\ (k < n)%nat
              /\ nth k mask false = true
              /\ forall j, (k < j)%nat -> nth j mask false = false.
Proof.
  induction mask as [|m ms IH]; intros a n l x Hl H.
  - simpl in H. destruct l; discriminate.
  - destruct n as [|n]; [discriminate|]. simpl in Hl, H.
    destruct m.
    + destruct l as [|y l'].
      * simpl in H. inversion H as [[Hx Hnil]].
        exists 0%nat. rewrite Nat.add_0_r.
        split; [reflexivity|]. split; [lia|]. split; [reflexivity|].
        intros [|j] Hj; [lia|].
        apply (compress_nil_mask ms (map Z.of_nat (seq (S a) n)));
          [rewrite length_map, length_seq; lia | exact Hnil].
      * simpl in H. inversion H as [[Hy Hrest]].
        destruct (IH (S a) n l' x) as (k & Hx & Hk & Hsel & Hafter);
          [lia | exact Hrest |].
        exists (S k). split; [rewrite Hx; f_equal; lia|].
        split; [lia|]. split; [exact Hsel|].
        intros [|j] Hj; [lia|]. apply Hafter. lia.
    + destruct (IH (S a) n l x) as (k & Hx & Hk & Hsel & Hafter);
        [lia | exact H |].
      exists (S k). split; [rewrite Hx; f_equal; lia|].
      split; [lia|]. split; [exact Hsel|].
      intros [|j] Hj; [lia|]. apply Hafter. lia.
Qed.

Lemma getitem_last_inv {A : Type} (a : list A) (x : A) :
  Np.getitem a (-1) = Ok x -> exists l, a = l ++ [x].
Proof.
  intros H. destruct a as [|y ys].
  - rewrite getitem_nil in H. discriminate.
  - assert (Hne : y :: ys <> []) by discriminate.
    destruct (exists_last Hne) as [l [z E]].
    rewrite E in H. rewrite getitem_last in H. inversion H; subst.
    exists l. exact E.
Qed.

Lemma getitem_first_inv {A : Type} (a : list A) (x : A) :
  Np.getitem a 0 = Ok x -> exists rest, a = x :: rest.
Proof.
  intros H. destruct a as [|y ys].
  - rewrite getitem_nil in H. discriminate.
  - rewrite getitem_first in H. inversion H; subst. exists ys. reflexivity.
Qed.

Lemma nth_zip_with {A B C : Type} (f : A -> B -> C) (a : list A) (b : list B)
  (da : A) (db : B) (dc : C) (k : nat) :
  (k < length a)%nat -> (k < length b)%nat ->
  nth k (Np.zip_with f a b) dc = f (nth k a da) (nth k b db).
Proof.
  revert b k; induction a as [|x xs IH]; intros [|y ys] k Ha Hb;
    simpl in *; try lia.
  destruct k; [reflexivity|]. apply IH; lia.
Qed.

(** X12: when [find_COI_crossing] returns (t_left, t_right), both are row
    labels of the table; row t_left is outside the left cone (its period is
    at least slope * time) and every later row is inside it; row t_right is
    outside the right cone (its period exceeds slope * the time of the
    mirrored row) and no earlier row is. *)
Theorem find_COI_crossing_labels (rd : RidgeData) (t_left t_right : Z) :
  table_ok rd ->
  find_COI_crossing rd = Ok (t_left, t_right) ->
  let n := nrows rd in
  let m := Morlet_COI omega0 in
  let time k := nth k (rd_time rd) 0 in
  let period k := nth k (rd_periods rd) 0 in
  exists i j,
    t_left = Z.of_nat i /\ t_right = Z.of_nat j
    /\ (i < n)%nat /\ (j < n)%nat
    /\ m * time i <= period i
    /\ (forall k, (i < k < n)%nat -> period k < m * time k)
    /\ m * time (n - 1 - j)%nat < period j
    /\ (forall k, (k < j)%nat -> period k <= m * time (n - 1 - k)%nat).
Proof.
  intros Hok H n m time period.
  unfold find_COI_crossing in H. fold n in H.
  destruct (Np.getitem (Np.compress (coi_left_mask rd) (Np.arange n)) (-1))
    as [tl|e] eqn:Hl; [|discriminate].
  simpl bind in H.
  destruct (Np.getitem (Np.compress (coi_right_mask rd) (Np.arange n)) 0)
    as [tr|e] eqn:Hr; [|discriminate].
  simpl bind in H. inversion H; subst tl tr; clear H.
  assert (Hpl : length (rd_periods rd) = n) by exact Hok.
  assert (Htl : length (rd_time rd) = n) by reflexivity.
  assert (Hll : length (coi_left_mask rd) = n).
  { unfold coi_left_mask. rewrite zip_with_length; rewrite length_map; congruence. }
  assert (Hlr : length (coi_right_mask rd) = n).
  { unfold coi_right_mask.
    rewrite zip_with_length; rewrite length_map, length_rev; congruence. }
  apply getitem_last_inv in Hl as [l Hl].
  apply getitem_first_inv in Hr as [rest Hr].
  unfold Np.arange in Hl, Hr.
  destruct (compress_seq_last _ 0%nat n l t_left Hll Hl)
    as (i & Hi & Hin & Hsel & Hafter).
  destruct (compress_seq_first _ 0%nat n t_right rest Hlr Hr)
    as (j & Hj & Hjn & Hselj & Hbefore).
  assert (Hleft : forall k, (k < n)%nat ->
            nth k (coi_left_mask rd) false
            = negb (Rgtb (m * time k) (period k))).
  { intros k Hk. unfold coi_left_mask.
    rewrite (nth_zip_with _ _ _ 0 0) by (rewrite ?length_map; lia).
    rewrite (nth_indep _ 0 (m * 0)) by (rewrite length_map; lia).
    rewrite (map_nth (fun t => m * t)). reflexivity. }
  assert (Hright : forall k, (k < n)%nat ->
            nth k (coi_right_mask rd) false
            = Rltb (m * time (n - 1 - k)%nat) (period k)).
  { intros k Hk. unfold coi_right_mask.
    rewrite (nth_zip_with _ _ _ 0 0)
      by (rewrite ?length_map, ?length_rev; lia).
    rewrite (nth_indep _ 0 (m * 0)) by (rewrite length_map, length_rev; lia).
    rewrite (map_nth (fun t => m * t)).
    rewrite rev_nth by lia. unfold time.
    replace (length (rd_time rd) - S k)%nat with (n - 1 - k)%nat by lia.
    reflexivity. }
  exists i, j.
  split; [exact Hi|]. split; [exact Hj|]. split; [exact Hin|].
  split; [exact Hjn|].
  split.
  { rewrite (Hleft i Hin) in Hsel. apply negb_true_iff, Rgtb_false in Hsel.
    exact Hsel. }
  split.
  { intros k Hk. specialize (Hafter k ltac:(lia)).
    rewrite (Hleft k) in Hafter by lia.
    apply negb_false_iff, Rgtb_true in Hafter. exact Hafter. }
  split.
  { rewrite (Hright j Hjn) in Hselj. unfold Rltb in Hselj.
    destruct (Rlt_dec _ _); [assumption | discriminate]. }
  intros k Hk. specialize (Hbefore k Hk).
  rewrite (Hright k) in Hbefore by lia. unfold Rltb in Hbefore.
  destruct (Rlt_dec _ _) as [|Hn]; [discriminate|]. lra.
Qed.

Lemma Morlet_COI_upper : Morlet_COI omega0 < 1.
Proof.
  unfold Morlet_COI, omega0.
  pose proof PI_RGT_0 as Hpi.
  pose proof (sqrt_two_plus_sq_gt (2 * PI)) as Hs.
  assert (H2 : 1 < sqrt 2).
  { rewrite <- sqrt_1 at 1. apply sqrt_lt_1; lra. }
  assert (Hd : 4 * PI < sqrt 2 * (2 * PI + sqrt (2 + (2 * PI) ^ 2))) by nra.
  apply (Rmult_lt_reg_r (sqrt 2 * (2 * PI + sqrt (2 + (2 * PI) ^ 2)))); [lra|].
  unfold Rdiv. rewrite Rmult_assoc, Rinv_l by lra. lra.
Qed.

Lemma find_COI_crossing_labels_witness :
  exists t_left t_right,
    find_COI_crossing rd_outside_coi = Ok (t_left, t_right)
    /\ (0 <= t_left < 3)%Z /\ (0 <= t_right < 3)%Z.
Proof.
  pose proof Morlet_COI_upper as Hm.
  pose proof (proj1 (Morlet_COI_times_scale_aux omega0)) as Hp.
  assert (Hok : table_ok rd_outside_coi) by reflexivity.
  destruct (find_COI_crossing_returns rd_outside_coi Hok) as (tl & tr & H).
  - unfold coi_left_mask, rd_outside_coi. simpl.
    rewrite (Rgtb_le (Morlet_COI omega0 * 0) 10) by lra. reflexivity.
  - unfold coi_right_mask, rd_outside_coi. simpl. unfold Rltb.
    destruct (Rlt_dec (Morlet_COI omega0 * 2) 10) as [|Hn]; [reflexivity|].
    exfalso. apply Hn. lra.
  - exists tl, tr. split; [exact H|].
    destruct (find_COI_crossing_labels rd_outside_coi tl tr Hok H)
      as (i & j & -> & -> & Hi & Hj & _).
    unfold nrows, rd_outside_coi in Hi, Hj. simpl in Hi, Hj. lia.
Defined.

(** ** Simulated annealing, further *)

Lemma setitem_nth_other (ys : list Z) (pos i : nat) (v d : Z) :
  i <> pos -> nth i (Anneal.setitem ys pos v) d = nth i ys d.
Proof.
  revert pos i; induction ys as [|y rest IH]; intros [|p] [|i] H; simpl;
    try reflexivity; try lia.
  apply IH. lia.
Qed.

Lemma setitem_nth_at (ys : list Z) (pos : nat) (v d : Z) :
  (pos < length ys)%nat -> nth pos (Anneal.setitem ys pos v) d = v.
Proof.
  intros H. apply nth_error_nth. apply setitem_nth_same. exact H.
Qed.

(** X13: an iteration of the annealing moves at most one ridge entry.  The
    ridge keeps its length; all entries but the one at the drawn position
    are unchanged; that one moves by at most mx_jump rows when mx_jump >= 1
    (and not at all when the move is rejected). *)
Theorem anneal_step_moves_one_entry
  (landscape : list (list R)) (mx_jump : Z) (T_ini curve_pen : R)
  (rng : nat -> Anneal.draw) (k : nat) (st st' : Anneal.state) :
  (mx_jump + 2 <= Anneal.Ns landscape)%Z ->
  Forall (in_rows (Anneal.Ns landscape)) (Anneal.a_ys st) ->
  Anneal.anneal_step landscape mx_jump T_ini curve_pen rng k st = Ok st' ->
  length (Anneal.a_ys st') = length (Anneal.a_ys st)
  /\ exists pos,
       (pos < length (Anneal.a_ys st))%nat
       /\ (forall i, i <> pos ->
             nth i (Anneal.a_ys st') 0%Z = nth i (Anneal.a_ys st) 0%Z)
       /\ ((1 <= mx_jump)%Z ->
           (Z.abs (nth pos (Anneal.a_ys st') 0 - nth pos (Anneal.a_ys st) 0)
            <= mx_jump)%Z).
Proof.
  intros HNs Hrows Hstep.
  destruct (anneal_step_inv landscape mx_jump T_ini curve_pen rng k st st'
              Hstep) as (F & F_c & pos & eps & cand & HF & Hc & HFc).
  rewrite (anneal_step_unfold landscape mx_jump T_ini curve_pen rng k st F F_c
             pos eps cand HF Hc HFc) in Hstep.
  inversion Hstep; subst st'; clear Hstep. cbn [Anneal.a_ys].
  destruct (candidate_spec landscape mx_jump rng k _ pos eps cand Hc)
    as [y [Hpos [Hy [Hp ->]]]].
  assert (Hyr : in_rows (Anneal.Ns landscape) y).
  { rewrite Forall_forall in Hrows. apply Hrows.
    eapply nth_error_In; eassumption. }
  destruct (propose_spec _ mx_jump y _ eps HNs Hyr Hp)
    as (_ & _ & _ & _ & _ & Habs).
  assert (Hny : nth pos (Anneal.a_ys st) 0%Z = y)
    by (apply nth_error_nth; exact Hy).
  destruct (Anneal.metropolis_accept _ _ _ _).
  - split; [apply setitem_length|].
    exists pos. split; [exact Hpos|]. split.
    + intros i Hi. apply setitem_nth_other. exact Hi.
    + intros Hmx. rewrite setitem_nth_at, Hny by exact Hpos.
      specialize (Habs Hmx). lia.
  - split; [reflexivity|].
    exists pos. split; [exact Hpos|]. split; [reflexivity|].
    intros Hmx. lia.
Qed.

Lemma anneal_step_moves_one_entry_witness :
  exists st',
    Anneal.anneal_step crest_3x2 1 1 0 (rng_u (1 / 2)) 0 on_crest = Ok st'
    /\ length (Anneal.a_ys st') = 2%nat.
Proof.
  assert (Hl : landscape_ok crest_3x2).
  { split; [unfold Anneal.Nt, crest_3x2; simpl; lia|]. repeat constructor. }
  assert (HNs : (1 + 2 <= Anneal.Ns crest_3x2)%Z)
    by (unfold Anneal.Ns, crest_3x2; simpl; lia).
  assert (Hrows : Forall (in_rows (Anneal.Ns crest_3x2)) (Anneal.a_ys on_crest)).
  { repeat constructor; unfold in_rows, Anneal.Ns, crest_3x2; simpl; lia. }
  destruct (anneal_step_ok crest_3x2 1 1 0 (rng_u (1 / 2)) 0 on_crest Hl)
    as [st' Hst']; [lia | exact HNs | split; [reflexivity | exact Hrows] |].
  exists st'. split; [exact Hst'|].
  destruct (anneal_step_moves_one_entry crest_3x2 1 1 0 (rng_u (1 / 2)) 0
              on_crest st' HNs Hrows Hst') as [Hlen _].
  rewrite Hlen. reflexivity.
Defined.

Lemma anneal_run_succ
  (landscape : list (list R)) (y0 : Z) (T_ini : R) (n : nat) (mx_jump : Z)
  (curve_pen : R) (rng : nat -> Anneal.draw) :
  Anneal.anneal_run landscape y0 T_ini (S n) mx_jump curve_pen rng
  = (st <- Anneal.anneal_run landscape y0 T_ini n mx_jump curve_pen rng ;;
     Anneal.anneal_step landscape mx_jump (T_ini * Anneal.tfac)
       (curve_pen * Anneal.tfac) rng n st).
Proof.
  unfold Anneal.anneal_run.
  replace (S n) with (n + 1)%nat by lia.
  rewrite anneal_loop_split. simpl.
  destruct (Anneal.anneal_loop _ _ _ _ _ (seq 0 n) _) as [st|e];
    [|reflexivity].
  simpl bind.
  destruct (Anneal.anneal_step _ _ _ _ _ n st); reflexivity.
Qed.

Lemma metropolis_reject_worse (F F_c T_k u : R) :
  Anneal.metropolis_accept F F_c T_k u = false -> F < F_c.
Proof.
  unfold Anneal.metropolis_accept.
  destruct (Rgtb F_c F) eqn:H; [|discriminate].
  intros _. apply Rgtb_true in H. exact H.
Qed.

(** X14: the cost [find_ridge_anneal] returns is the cost of the last
    candidate, accepted or not (at a non-zero temperature).  When the last
    candidate is rejected the returned ridge is the one before it, whose
    cost F is strictly below the returned cost F_c. *)
Theorem anneal_returns_last_candidate_cost
  (landscape : list (list R)) (y0 : Z) (T_ini : R) (n : nat) (mx_jump : Z)
  (curve_pen : R) (rng : nat -> Anneal.draw) (st : Anneal.state)
  (F F_c : R) (pos : nat) (eps : Z) (cand : list Z) :
  Anneal.anneal_run landscape y0 T_ini n mx_jump curve_pen rng = Ok st ->
  Anneal.cost_func_anneal (Anneal.a_ys st) (Anneal.t_inds landscape)
    landscape 0 (curve_pen * Anneal.tfac) = Ok F ->
  Anneal.candidate landscape mx_jump rng n (Anneal.a_ys st)
  = Ok (pos, eps, cand) ->
  Anneal.cost_func_anneal cand (Anneal.t_inds landscape) landscape 0
    (curve_pen * Anneal.tfac) = Ok F_c ->
  Anneal.a_T_k st <> 0 ->
  let accept :=
    Anneal.metropolis_accept F F_c (Anneal.a_T_k st) (Anneal.d_u (rng n)) in
  Anneal.find_ridge_anneal landscape y0 T_ini (S n) mx_jump curve_pen rng
  = Ok (if accept then cand else Anneal.a_ys st, F_c)
  /\ (accept = false -> F < F_c).
Proof.
  intros Hrun HF Hc HFc _ accept.
  split.
  - unfold Anneal.find_ridge_anneal.
    rewrite anneal_run_succ, Hrun. simpl bind.
    rewrite (anneal_step_unfold landscape mx_jump _ _ rng n st F F_c pos eps
               cand HF Hc HFc).
    reflexivity.
  - apply metropolis_reject_worse.
Qed.

Lemma cost_on_crest_scaled :
  Anneal.cost_func_anneal [1; 1]%Z (Anneal.t_inds crest_3x2) crest_3x2 0
    (0 * Anneal.tfac) = Ok (-1).
Proof.
  unfold Anneal.cost_func_anneal, Anneal.t_inds, crest_3x2, Np.fancy2,
    Np.broadcast2, Anneal.tfac.
  simpl. f_equal. field.
Qed.

Lemma cost_off_crest_scaled :
  Anneal.cost_func_anneal [0; 1]%Z (Anneal.t_inds crest_3x2) crest_3x2 0
    (0 * Anneal.tfac) = Ok (- (1 / 2)).
Proof.
  unfold Anneal.cost_func_anneal, Anneal.t_inds, crest_3x2, Np.fancy2,
    Np.broadcast2, Anneal.tfac.
  simpl. f_equal. field.
Qed.

(** One iteration from the crest with the sample 9/10: the step off the
    crest is rejected, the ridge returned is the crest, of cost -1, and the
    cost returned is -1/2. *)
Lemma anneal_returns_last_candidate_cost_witness :
  Anneal.find_ridge_anneal crest_3x2 1 100 1 1 0 (rng_u (9 / 10))
  = Ok ([1; 1]%Z, - (1 / 2)).
Proof.
  destruct (anneal_returns_last_candidate_cost crest_3x2 1 100 0 1 0
              (rng_u (9 / 10)) _ (-1) (- (1 / 2)) 0%nat (-1)%Z [0; 1]%Z
              eq_refl cost_on_crest_scaled (candidate_on_crest (9 / 10))
              cost_off_crest_scaled) as [Hret _].
  { cbn [Anneal.a_T_k]. unfold Anneal.tfac. lra. }
  rewrite Hret. f_equal. f_equal.
  cbn [Anneal.a_T_k Anneal.a_ys rng_u Anneal.d_u].
  unfold Anneal.metropolis_accept.
  rewrite (Rgtb_lt (- (1 / 2)) (-1)) by lra.
  rewrite Rgtb_lt; [reflexivity|].
  unfold Anneal.tfac.
  replace (- (- (1 / 2) - -1) / (100 * (1 / 100))) with (- (1 / 2)) by field.
  exact exp_minus_half.
Defined.

Lemma sum_abs_nonneg (ds : list Z) : (0 <= Anneal.sum_abs ds)%Z.
Proof.
  induction ds as [|d rest IH]; simpl; lia.
Qed.

Lemma diff_cons_repeat (y : Z) (n : nat) :
  Anneal.diff (y :: repeat y n) = repeat 0%Z n.
Proof.
  induction n as [|n IH]; [reflexivity|].
  change (Anneal.diff (y :: repeat y (S n)))
    with ((y - y)%Z :: Anneal.diff (y :: repeat y n)).
  rewrite IH, Z.sub_diag. reflexivity.
Qed.

Lemma diff_repeat (y : Z) (n : nat) :
  Anneal.diff (repeat y n) = repeat 0%Z (n - 1).
Proof.
  destruct n as [|n]; [reflexivity|].
  change (repeat y (S n)) with (y :: repeat y n).
  rewrite diff_cons_repeat. simpl. rewrite Nat.sub_0_r. reflexivity.
Qed.

Lemma sum_abs_zeros (n : nat) : Anneal.sum_abs (repeat 0%Z n) = 0%Z.
Proof. induction n as [|n IH]; simpl; [reflexivity | rewrite IH; reflexivity]. Qed.

(** X15: with no first-derivative weight, as [find_ridge_anneal] calls it,
    the cost of a ridge is minus the mean landscape value along the ridge
    plus the curvature weight times the total absolute second difference,
    divided by the ridge length.  A non-negative weight never lowers the
    cost below minus that mean, and on a straight ridge the penalty
    vanishes. *)
Theorem cost_func_anneal_penalty
  (ys t_inds : list Z) (landscape : list (list R)) (m F : R)
  (vals : list R) :
  Np.fancy2 landscape ys t_inds = Ok vals ->
  Anneal.cost_func_anneal ys t_inds landscape 0 m = Ok F ->
  F = (- Np.sum vals
       + m * IZR (Anneal.sum_abs (Anneal.diff (Anneal.diff ys))))
      / INR (length ys)
  /\ (0 <= m -> - Np.sum vals / INR (length ys) <= F)
  /\ ((exists y, ys = repeat y (length ys)) ->
      F = - Np.sum vals / INR (length ys)).
Proof.
  intros Hv H. unfold Anneal.cost_func_anneal in H.
  rewrite Hv in H. simpl bind in H.
  destruct (Nat.eqb_spec (length ys) 0) as [|Hn]; [discriminate|].
  inversion H as [HF]; clear H.
  assert (HN : 0 < INR (length ys)) by (apply lt_0_INR; lia).
  split; [unfold Rdiv; ring|].
  split.
  - intros Hm.
    pose proof (sum_abs_nonneg (Anneal.diff (Anneal.diff ys))) as Hs.
    apply IZR_le in Hs.
    unfold Rdiv. apply Rmult_le_compat_r.
    + left. apply Rinv_0_lt_compat. exact HN.
    + assert (0 <= m * IZR (Anneal.sum_abs (Anneal.diff (Anneal.diff ys))))
        by (apply Rmult_le_pos; assumption).
      lra.
  - intros [y Hy]. rewrite Hy at 1 2.
    rewrite !diff_repeat, !sum_abs_zeros. unfold Rdiv. ring.
Qed.

Lemma cost_func_anneal_penalty_witness :
  Anneal.cost_func_anneal [1; 1]%Z (Anneal.t_inds crest_3x2) crest_3x2 0 7
  = Ok (- Np.sum [1; 1] / INR 2).
Proof.
  assert (Hv : Np.fancy2 crest_3x2 [1; 1]%Z (Anneal.t_inds crest_3x2)
               = Ok [1; 1]) by reflexivity.
  destruct (Anneal.cost_func_anneal [1; 1]%Z (Anneal.t_inds crest_3x2)
              crest_3x2 0 7) as [F|e] eqn:HF.
  - destruct (cost_func_anneal_penalty _ _ _ 7 F [1; 1] Hv HF)
      as (_ & _ & Hstraight).
    f_equal. apply Hstraight. exists 1%Z. reflexivity.
  - unfold Anneal.cost_func_anneal in HF. rewrite Hv in HF.
    simpl in HF. discriminate.
Defined.

Lemma incr_nonpositive (mx_jump : Z) : (mx_jump <= 0)%Z -> Anneal.incr mx_jump = [].
Proof.
  intros H. destruct (Anneal.incr mx_jump) as [|e rest] eqn:E; [reflexivity|].
  assert (Hin : In e (Anneal.incr mx_jump)) by (rewrite E; left; reflexivity).
  apply incr_spec in Hin. lia.
Qed.

(** X16: three ways in which [find_ridge_anneal] raises.  With Nsteps = 0
    the cost is unbound when it is reported (NameError); on a landscape
    without time points the first cost evaluation divides by the ridge
    length zero (ZeroDivisionError); and with mx_jump <= 0 there is no jump
    to choose from, so a start row on the grid and below the upper edge
    zone makes the first iteration raise ValueError. *)
Theorem find_ridge_anneal_errors
  (landscape : list (list R)) (y0 : Z) (T_ini : R) (Nsteps : nat)
  (mx_jump : Z) (curve_pen : R) (rng : nat -> Anneal.draw) :
  Anneal.find_ridge_anneal landscape y0 T_ini 0 mx_jump curve_pen rng
  = Raise NameError
  /\ (Anneal.Nt landscape = 0%nat ->
      Anneal.find_ridge_anneal landscape y0 T_ini (S Nsteps) mx_jump curve_pen
        rng = Raise ZeroDivisionError)
  /\ (landscape_ok landscape -> (mx_jump <= 0)%Z ->
      in_rows (Anneal.Ns landscape) y0 ->
      (y0 < Anneal.Ns landscape - mx_jump - 1)%Z ->
      Anneal.find_ridge_anneal landscape y0 T_ini (S Nsteps) mx_jump curve_pen
        rng = Raise ValueError).
Proof.
  split; [reflexivity|]. split.
  - intros H0. unfold Anneal.find_ridge_anneal, Anneal.anneal_run.
    rewrite H0. cbn [seq Anneal.anneal_loop repeat].
    unfold Anneal.anneal_step, Anneal.cost_func_anneal, Anneal.t_inds.
    rewrite H0. reflexivity.
  - intros Hl Hmx Hy0 Htop.
    unfold Anneal.find_ridge_anneal, Anneal.anneal_run.
    cbn [seq Anneal.anneal_loop].
    set (st0 := Anneal.mkState _ _ _ _ _).
    assert (Hinv : ridge_inv landscape st0).
    { apply initial_ridge_inv. exact Hy0. }
    unfold in_rows in Hy0.
    destruct Hinv as [Hlen Hrows].
    destruct (cost_func_anneal_ok landscape (Anneal.a_ys st0) 0
                (curve_pen * Anneal.tfac) Hl Hrows Hlen) as [F HF].
    unfold Anneal.anneal_step. rewrite HF. simpl bind.
    assert (Hc : Anneal.candidate landscape mx_jump rng 0 (Anneal.a_ys st0)
                 = Raise ValueError).
    { unfold Anneal.candidate, Anneal.randint.
      destruct Hl as [Hn _].
      destruct (Nat.eqb_spec (length (Anneal.a_ys st0)) 0) as [E|E]; [lia|].
      simpl bind.
      set (p := Nat.modulo _ _).
      assert (Hp : (p < length (Anneal.a_ys st0))%nat)
        by (apply Nat.mod_upper_bound; exact E).
      unfold st0 in *. cbn [Anneal.a_ys] in *.
      assert (Hy : nth_error (repeat y0 (Anneal.Nt landscape)) p = Some y0).
      { apply nth_error_repeat. rewrite repeat_length in Hp. exact Hp. }
      rewrite (getitem_nat _ p y0 Hy). simpl bind.
      unfold Anneal.propose. rewrite Z.geb_leb.
      destruct (Z.leb_spec (Anneal.Ns landscape - mx_jump - 1) y0); [lia|].
      destruct (Z.ltb_spec y0 mx_jump); [lia|].
      rewrite (incr_nonpositive mx_jump Hmx). reflexivity. }
    unfold st0 in *. cbn [Anneal.a_ys] in *.
    rewrite Hc. reflexivity.
Qed.

Lemma find_ridge_anneal_errors_witness :
  Anneal.find_ridge_anneal [[]; []] 0 100 5 1 0 rng_const
  = Raise ZeroDivisionError
  /\ Anneal.find_ridge_anneal flat_3x2 1 100 5 0 0 rng_const
     = Raise ValueError.
Proof.
  split.
  - apply (proj1 (proj2 (find_ridge_anneal_errors [[]; []] 0 100 4 1 0
                           rng_const))).
    reflexivity.
  - apply (proj2 (proj2 (find_ridge_anneal_errors flat_3x2 1 100 4 0 0
                           rng_const))).
    + exact flat_3x2_ok.
    + lia.
    + unfold in_rows, Anneal.Ns, flat_3x2. simpl. lia.
    + unfold Anneal.Ns, flat_3x2. simpl. lia.
Defined.

Lemma find_ridge_anneal_returns
  (landscape : list (list R)) (y0 : Z) (T_ini : R) (n : nat) (mx_jump : Z)
  (curve_pen : R) (rng : nat -> Anneal.draw) :
  landscape_ok landscape -> (1 <= mx_jump)%Z ->
  (mx_jump + 2 <= Anneal.Ns landscape)%Z -> in_rows (Anneal.Ns landscape) y0 ->
  exists ys F_c,
    Anneal.find_ridge_anneal landscape y0 T_ini (S n) mx_jump curve_pen rng
    = Ok (ys, F_c)
    /\ length ys = Anneal.Nt landscape
    /\ Forall (in_rows (Anneal.Ns landscape)) ys.
Proof.
  intros Hl Hmx HNs Hy0.
  pose proof (initial_ridge_inv landscape y0 (T_ini * Anneal.tfac) Hy0) as H0.
  destruct (anneal_loop_ok landscape mx_jump (T_ini * Anneal.tfac)
              (curve_pen * Anneal.tfac) rng (seq 0 n) Hl Hmx HNs _ H0)
    as [st Hrun].
  pose proof (anneal_loop_preserves landscape mx_jump _ _ rng (seq 0 n) HNs
                _ st H0 Hrun) as Hinv.
  destruct (anneal_step_ok landscape mx_jump (T_ini * Anneal.tfac)
              (curve_pen * Anneal.tfac) rng n st Hl Hmx HNs Hinv)
    as [st' Hstep].
  pose proof (anneal_step_preserves landscape mx_jump _ _ rng n st st' HNs
                Hinv Hstep) as [Hlen Hrows].
  destruct (anneal_step_inv landscape mx_jump _ _ rng n st st' Hstep)
    as (F & F_c & pos & eps & cand & HF & Hc & HFc).
  pose proof Hstep as Hst'.
  rewrite (anneal_step_unfold landscape mx_jump _ _ rng n st F F_c pos eps
             cand HF Hc HFc) in Hst'.
  exists (Anneal.a_ys st'), F_c.
  split; [|split; assumption].
  unfold Anneal.find_ridge_anneal.
  rewrite anneal_run_succ. unfold Anneal.anneal_run. rewrite Hrun.
  simpl bind. rewrite Hstep. simpl bind.
  inversion Hst' as [E]. reflexivity.
Qed.

(** X17: the annealing pipeline does not raise.  For a signal of positive
    variance, a landscape and a transform of P rows and N >= 2 columns,
    1 <= mx_jump <= P - 2, a start row on the grid and at least one
    iteration, [find_ridge_anneal] returns a ridge of N row indices and
    [eval_ridge] accepts it. *)
Theorem anneal_then_eval_ridge
  (savgol_filter : list R -> Z -> Z -> result (list R))
  (landscape : list (list R)) (wlet : list (list complex))
  (signal periods tvec : list R) (power_thresh : R) (P : nat)
  (y0 : Z) (T_ini : R) (n : nat) (mx_jump : Z) (curve_pen : R)
  (rng : nat -> Anneal.draw) :
  has_shape wlet P (length tvec) -> has_shape landscape P (length tvec) ->
  (2 <= length tvec)%nat -> length periods = P ->
  (1 <= mx_jump)%Z -> (mx_jump + 2 <= Z.of_nat P)%Z ->
  (0 <= y0 < Z.of_nat P)%Z -> 0 < Np.var signal ->
  exists ys F_c rd,
    Anneal.find_ridge_anneal landscape y0 T_ini (S n) mx_jump curve_pen rng
    = Ok (ys, F_c)
    /\ length ys = length tvec
    /\ eval_ridge savgol_filter ys wlet signal periods tvec power_thresh None
       = Ok rd
    /\ (nrows rd <= length tvec)%nat.
Proof.
  intros Hw Hm H2 Hper Hmx HP Hy0 _.
  assert (HNs : Anneal.Ns landscape = Z.of_nat P).
  { unfold Anneal.Ns. destruct Hm as [E _]. rewrite E. reflexivity. }
  assert (HP1 : (1 <= P)%nat) by lia.
  assert (HNt : Anneal.Nt landscape = length tvec).
  { unfold Anneal.Nt. destruct Hm as [E Hrect].
    apply shape1_rect; [|exact Hrect]. intros ->. simpl in E. lia. }
  assert (Hl : landscape_ok landscape).
  { split; [rewrite HNt; lia|]. rewrite HNt. destruct Hm as [_ Hrect].
    exact Hrect. }
  destruct (find_ridge_anneal_returns landscape y0 T_ini n mx_jump curve_pen
              rng Hl Hmx) as (ys & F_c & Hret & Hlen & Hrows).
  { rewrite HNs. exact HP. }
  { unfold in_rows. rewrite HNs. exact Hy0. }
  assert (Hidx : Forall (valid_index P) ys).
  { eapply Forall_impl; [|exact Hrows].
    unfold in_rows, valid_index. rewrite HNs. intros; lia. }
  assert (Hok : ridge_inputs_ok ys wlet periods tvec).
  { apply (has_shape_ridge_inputs _ _ _ _ P); try assumption. congruence. }
  destruct (eval_ridge_unfold savgol_filter ys wlet signal periods tvec
              power_thresh None Hok)
    as (t0 & t1 & ridge_per & ridge_z & ridge_power
        & _ & _ & _ & _ & _ & _ & _ & Heval).
  cbv zeta in Heval. simpl bind in Heval.
  exists ys, F_c. eexists.
  split; [exact Hret|]. split; [congruence|]. split; [exact Heval|].
  unfold nrows. cbn [rd_time]. apply compress_length_le.
Qed.

Lemma anneal_then_eval_ridge_witness :
  exists ys F_c rd,
    Anneal.find_ridge_anneal flat_3x2 1 100 10 1 0 rng_const = Ok (ys, F_c)
    /\ eval_ridge no_savgol ys wlet_3x2 [1; -1] [10; 20; 30] [0; 1] 0 None
       = Ok rd.
Proof.
  assert (Hw : has_shape wlet_3x2 3 (length [0; 1])).
  { split; [reflexivity|]. repeat constructor. }
  assert (Hm : has_shape flat_3x2 3 (length [0; 1])).
  { split; [reflexivity|]. repeat constructor. }
  destruct (anneal_then_eval_ridge no_savgol flat_3x2 wlet_3x2 [1; -1]
              [10; 20; 30] [0; 1] 0 3 1 100 9 1 0 rng_const Hw Hm)
    as (ys & F_c & rd & Hret & _ & He & _);
    try (simpl; lia); try reflexivity.
  - unfold Np.var, Np.mean. simpl. lra.
  - exists ys, F_c, rd. split; assumption.
Defined.

(** ** Smoothing and the sinc filter, further *)

Lemma smooth_flat_as_extern (x : list R) (wl : Z) :
  (0 <= wl)%Z ->
  smooth x wl Flat None = smooth x 11 Flat (Some (repeat 1 (Z.to_nat wl))).
Proof.
  intros H. unfold smooth.
  rewrite repeat_length, Z2Nat.id by exact H. reflexivity.
Qed.

(** X18: [smooth] with the flat window is defined exactly for an odd window
    length between 3 and the length of the input.  A window longer than
    the input, shorter than 3 or of even length raises ValueError, whatever
    the window kind; otherwise the moving average has as many samples as
    the input. *)
Theorem smooth_flat_domain (x : list R) (window_len : Z) (window : window_kind) :
  (((Z.of_nat (length x) < window_len)%Z \/ (window_len < 3)%Z
    \/ (window_len mod 2 = 0)%Z) ->
   smooth x window_len window None = Raise ValueError)
  /\ ((3 <= window_len <= Z.of_nat (length x))%Z ->
      (window_len mod 2 = 1)%Z ->
      exists y, smooth x window_len Flat None = Ok y
                /\ length y = length x).
Proof.
  split.
  - intros H. unfold smooth.
    destruct (Z.ltb_spec (Z.of_nat (length x)) window_len); [reflexivity|].
    destruct (Z.ltb_spec window_len 3); [reflexivity|].
    destruct (Z.eqb_spec (window_len mod 2) 0); [reflexivity|]. lia.
  - intros Hr Hodd.
    rewrite smooth_flat_as_extern by lia.
    destruct (smooth_extern x (repeat 1 (Z.to_nat window_len)) 11 Flat)
      as (Hs & _ & Hl).
    + rewrite repeat_length. lia.
    + rewrite repeat_length, Z2Nat.id by lia. exact Hodd.
    + eexists. split; [exact Hs | exact Hl].
Qed.

Lemma smooth_flat_domain_witness :
  smooth [1; 2; 3; 4] 5 Flat None = Raise ValueError
  /\ smooth [1; 2; 3; 4] 4 Flat None = Raise ValueError
  /\ exists y, smooth [1; 2; 3; 4] 3 Flat None = Ok y /\ length y = 4%nat.
Proof.
  split; [|split].
  - apply (proj1 (smooth_flat_domain [1; 2; 3; 4] 5 Flat)). left. simpl. lia.
  - apply (proj1 (smooth_flat_domain [1; 2; 3; 4] 4 Flat)).
    right. right. reflexivity.
  - apply (proj2 (smooth_flat_domain [1; 2; 3; 4] 3 Flat)).
    + simpl. lia.
    + reflexivity.
Defined.

Lemma sum_map_div (w : list R) (S : R) :
  Np.sum (map (fun c => c / S) w) = Np.sum w / S.
Proof.
  induction w as [|a rest IH]; simpl.
  - unfold Rdiv. ring.
  - rewrite IH. unfold Rdiv. ring.
Qed.

Lemma sum_zip_const (k : list R) (c : R) (n : nat) :
  (length k <= n)%nat ->
  Np.sum (Np.zip_with Rmult k (repeat c n)) = c * Np.sum k.
Proof.
  revert n; induction k as [|a rest IH]; intros n Hn; simpl.
  - ring.
  - destruct n as [|n]; [simpl in Hn; lia|]. simpl.
    rewrite IH by (simpl in Hn; lia). ring.
Qed.

Lemma firstn_repeat {A : Type} (c : A) (m n : nat) :
  firstn m (repeat c n) = repeat c (Nat.min m n).
Proof.
  revert n; induction m as [|m IH]; intros [|n]; simpl; try reflexivity.
  f_equal. apply IH.
Qed.

Lemma skipn_repeat {A : Type} (c : A) (m n : nat) :
  skipn m (repeat c n) = repeat c (n - m).
Proof.
  revert n; induction m as [|m IH]; intros [|n]; simpl; try reflexivity.
  apply IH.
Qed.

Lemma rev_repeat {A : Type} (c : A) (n : nat) : rev (repeat c n) = repeat c n.
Proof.
  induction n as [|n IH]; [reflexivity|].
  simpl. rewrite IH. symmetry. apply repeat_cons.
Qed.

Lemma repeat_eq_length {A : Type} (c : A) (l : list A) :
  (forall x, In x l -> x = c) -> l = repeat c (length l).
Proof.
  induction l as [|a rest IH]; intros H; [reflexivity|].
  simpl. rewrite (H a) by (left; reflexivity). f_equal.
  apply IH. intros x Hx. apply H. right; exact Hx.
Qed.

Lemma In_firstn_skipn_in {A : Type} (l : list A) (a b : nat) (x : A) :
  In x (firstn a (skipn b l)) -> In x l.
Proof.
  intros H.
  assert (H1 : In x (skipn b l)).
  { rewrite <- (firstn_skipn a (skipn b l)). apply in_or_app. left. exact H. }
  rewrite <- (firstn_skipn b l). apply in_or_app. right. exact H1.
Qed.

Lemma mirror_pad_repeat (c : R) (n wl : nat) :
  (1 <= wl <= n)%nat ->
  mirror_pad (repeat c n) wl = repeat c (n + 2 * (wl - 1)).
Proof.
  intros H. unfold mirror_pad.
  rewrite repeat_length, !skipn_repeat, firstn_repeat, !rev_repeat.
  rewrite <- !repeat_app. f_equal. lia.
Qed.

Lemma smooth_keeps_constant (c : R) (n : nat) (w : list R) :
  (3 <= length w <= n)%nat ->
  (Z.of_nat (length w) mod 2 = 1)%Z ->
  Np.sum w <> 0 ->
  smooth (repeat c n) 11 Flat (Some w) = Ok (repeat c n).
Proof.
  intros Hlen Hodd Hsum.
  destruct (smooth_extern (repeat c n) w 11 Flat) as (Hs & Hyl & Hl).
  { rewrite repeat_length. exact Hlen. }
  { exact Hodd. }
  rewrite Hs. f_equal.
  rewrite repeat_length in *.
  set (kernel := map (fun a => a / Np.sum w) w) in *.
  set (y := convolve_valid_core (mirror_pad (repeat c n) (length w)) kernel)
    in *.
  assert (Hk : Np.sum kernel = 1).
  { unfold kernel. rewrite sum_map_div. field. exact Hsum. }
  assert (Hkl : length kernel = length w) by (unfold kernel; apply length_map).
  assert (Hy : y = repeat c (length y)).
  { apply repeat_eq_length. intros v Hv. unfold y, convolve_valid_core in Hv.
    apply in_map_iff in Hv as [i [<- Hi]]. apply in_seq in Hi.
    rewrite mirror_pad_repeat in * by lia.
    rewrite repeat_length in Hi.
    rewrite skipn_repeat, firstn_repeat, rev_repeat.
    rewrite sum_zip_const by lia.
    rewrite Hk. ring. }
  set (h := Z.quot (Z.of_nat (length w) - 1) 2) in *.
  assert (Hsl : Slice.slice y h (Z.of_nat (length y) - h)
                = repeat c (length (Slice.slice y h (Z.of_nat (length y) - h)))).
  { apply repeat_eq_length. intros v Hv.
    unfold Slice.slice in Hv.
    apply In_firstn_skipn_in in Hv.
    rewrite Hy in Hv. apply repeat_spec in Hv. exact Hv. }
  rewrite Hsl, Hl. reflexivity.
Qed.

Lemma sum_ones (n : nat) : Np.sum (repeat 1 n) = INR n.
Proof.
  induction n as [|n IH]; [reflexivity|].
  rewrite S_INR. cbn [repeat Np.sum fold_right].
  change (fold_right Rplus 0 (repeat 1 n)) with (Np.sum (repeat 1 n)).
  rewrite IH. ring.
Qed.

(** X19: smoothing keeps a constant signal.  For a window of odd length
    between 3 and the length of the signal whose entries do not sum to
    zero, [smooth] maps the constant signal c, ..., c to itself; so does the
    flat moving average of any odd length between 3 and the length of the
    signal. *)
Theorem smooth_constant (c : R) (n : nat) (w : list R) (window_len : Z) :
  ((3 <= length w <= n)%nat ->
   (Z.of_nat (length w) mod 2 = 1)%Z ->
   Np.sum w <> 0 ->
   smooth (repeat c n) window_len Flat (Some w) = Ok (repeat c n))
  /\ ((3 <= window_len <= Z.of_nat n)%Z -> (window_len mod 2 = 1)%Z ->
      smooth (repeat c n) window_len Flat None = Ok (repeat c n)).
Proof.
  split.
  - intros Hlen Hodd Hsum.
    replace (smooth (repeat c n) window_len Flat (Some w))
      with (smooth (repeat c n) 11 Flat (Some w)) by reflexivity.
    apply smooth_keeps_constant; assumption.
  - intros Hr Hodd.
    rewrite smooth_flat_as_extern by lia.
    apply smooth_keeps_constant.
    + rewrite repeat_length. lia.
    + rewrite repeat_length, Z2Nat.id by lia. exact Hodd.
    + rewrite sum_ones.
      apply not_0_INR. lia.
Qed.

Lemma smooth_constant_witness :
  smooth (repeat 2 5) 11 Flat (Some [1; 2; 1]) = Ok (repeat 2 5)
  /\ smooth (repeat 2 5) 5 Flat None = Ok (repeat 2 5).
Proof.
  split.
  - apply (proj1 (smooth_constant 2 5 [1; 2; 1] 11)).
    + simpl. lia.
    + reflexivity.
    + simpl. lra.
  - apply (proj2 (smooth_constant 2 5 [] 5)).
    + simpl. lia.
    + reflexivity.
Defined.

Lemma Reqb_true (x y : R) : x = y -> Reqb x y = true.
Proof.
  intros H. unfold Reqb. destruct (Req_dec_T x y); [reflexivity|contradiction].
Qed.

Lemma cos_2PI_minus (a : R) : cos (2 * PI - a) = cos a.
Proof.
  replace (2 * PI - a) with (- a + 2 * INR 1 * PI) by (simpl; ring).
  rewrite cos_period, cos_neg. reflexivity.
Qed.

Lemma cos_4PI_minus (a : R) : cos (4 * PI - a) = cos a.
Proof.
  replace (4 * PI - a) with (- a + 2 * INR 2 * PI) by (simpl; ring).
  rewrite cos_period, cos_neg. reflexivity.
Qed.

Lemma sinc_tap_symmetric (M : Z) (f_c : R) (x : Z) :
  M <> 0%Z -> sinc_tap M f_c (M - x) = sinc_tap M f_c x.
Proof.
  intros HM. unfold sinc_tap.
  assert (HMr : IZR M <> 0) by (apply not_0_IZR; exact HM).
  rewrite minus_IZR.
  destruct (Req_dec_T (IZR x) (IZR M / 2)) as [E|E].
  - rewrite (Reqb_true (IZR x)), (Reqb_true (IZR M - IZR x)) by lra.
    reflexivity.
  - rewrite (Reqb_neq (IZR x)), (Reqb_neq (IZR M - IZR x)) by lra.
    replace (2 * PI * f_c * (IZR M - IZR x - IZR M / 2))
      with (- (2 * PI * f_c * (IZR x - IZR M / 2))) by field.
    rewrite sin_neg.
    replace (2 * PI * (IZR M - IZR x) / IZR M)
      with (2 * PI - 2 * PI * IZR x / IZR M) by (field; exact HMr).
    replace (4 * PI * (IZR M - IZR x) / IZR M)
      with (4 * PI - 4 * PI * IZR x / IZR M) by (field; exact HMr).
    rewrite cos_2PI_minus, cos_4PI_minus.
    field. lra.
Qed.

Lemma sinc_tap_end (M : Z) (f_c : R) : (2 <= M)%Z -> sinc_tap M f_c 0 = 0.
Proof.
  intros HM. unfold sinc_tap.
  assert (HMr : 2 <= IZR M) by (apply IZR_le; exact HM).
  rewrite Reqb_neq by lra.
  replace (2 * PI * 0 / IZR M) with 0 by (field; lra).
  replace (4 * PI * 0 / IZR M) with 0 by (field; lra).
  rewrite cos_0. field. lra.
Qed.

Lemma zrange_nth (lo hi : Z) (i : nat) :
  (Z.of_nat i < hi - lo)%Z ->
  nth i (Anneal.zrange lo hi) 0%Z = (lo + Z.of_nat i)%Z.
Proof.
  intros H. unfold Anneal.zrange.
  rewrite (nth_indep _ 0%Z (lo + Z.of_nat 0)%Z)
    by (rewrite length_map, length_seq; lia).
  rewrite (map_nth (fun k => (lo + Z.of_nat k)%Z)).
  rewrite seq_nth by lia. reflexivity.
Qed.

Lemma sinc_filter_nth (M : Z) (f_c : R) (w : list R) (i : nat) :
  sinc_filter M f_c = Ok w -> (Z.of_nat i <= M)%Z ->
  nth i w 0
  = sinc_tap M f_c (Z.of_nat i)
    / Np.sum (map (sinc_tap M f_c) (Anneal.zrange 0 (M + 1))).
Proof.
  unfold sinc_filter. destruct (negb _); [discriminate|].
  intros H Hi. inversion H; subst w; clear H.
  set (total := Np.sum _).
  rewrite (nth_indep _ 0 (0 / total))
    by (rewrite !length_map, zrange_length; lia).
  rewrite (map_nth (fun r => r / total)).
  rewrite (nth_indep _ 0 (sinc_tap M f_c 0))
    by (rewrite length_map, zrange_length; lia).
  rewrite (map_nth (sinc_tap M f_c)).
  rewrite zrange_nth by lia. reflexivity.
Qed.

Lemma sinc_filter_kernel_aux (M : Z) (f_c : R) :
  ((M mod 2 <> 0)%Z -> sinc_filter M f_c = Raise AssertionError)
  /\ ((M mod 2 = 0)%Z -> (0 <= M)%Z ->
      exists w,
        sinc_filter M f_c = Ok w
        /\ length w = Z.to_nat (M + 1)
        /\ (Np.sum (map (sinc_tap M f_c) (Anneal.zrange 0 (M + 1))) <> 0 ->
            Np.sum w = 1)).
Proof.
  split.
  - intros H. unfold sinc_filter.
    destruct (Z.eqb_spec (M mod 2) 0); [contradiction|reflexivity].
  - intros Heven HM.
    destruct (sinc_filter_length M f_c Heven) as [w [Hw Hwl]].
    exists w. split; [exact Hw|]. split; [exact Hwl|].
    intros Hsum. unfold sinc_filter in Hw.
    destruct (negb _); [discriminate|]. inversion Hw; subst w.
    rewrite sum_map_div. field. exact Hsum.
Qed.

(** X20: [sinc_filter] rejects an odd [M] (AssertionError).  For an even
    M >= 0 it returns M + 1 taps; when the unnormalised taps do not sum to
    zero, the taps are symmetric about the middle, they sum to one, and for
    M >= 2 the first and the last tap are zero (the Blackman window
    vanishes at its ends). *)
Theorem sinc_filter_kernel (M : Z) (f_c : R) :
  ((M mod 2 <> 0)%Z -> sinc_filter M f_c = Raise AssertionError)
  /\ ((M mod 2 = 0)%Z -> (0 <= M)%Z ->
      exists w,
        sinc_filter M f_c = Ok w
        /\ length w = Z.to_nat (M + 1)
        /\ (Np.sum (map (sinc_tap M f_c) (Anneal.zrange 0 (M + 1))) <> 0 ->
            (forall i, (i <= Z.to_nat M)%nat ->
               nth (Z.to_nat M - i) w 0 = nth i w 0)
            /\ ((2 <= M)%Z -> nth 0 w 0 = 0 /\ nth (Z.to_nat M) w 0 = 0)
            /\ Np.sum w = 1)).
Proof.
  split.
  - intros H. unfold sinc_filter.
    destruct (Z.eqb_spec (M mod 2) 0); [contradiction|reflexivity].
  - intros Heven HM.
    destruct (sinc_filter_length M f_c Heven) as [w [Hw Hwl]].
    exists w. split; [exact Hw|]. split; [exact Hwl|].
    intros Hsum. split; [|split].
    + intros i Hi.
      rewrite !(sinc_filter_nth M f_c w) by (try exact Hw; lia).
      destruct (Z.eq_dec M 0) as [E|E].
      * subst M. replace i with 0%nat by lia. reflexivity.
      * replace (Z.of_nat (Z.to_nat M - i)) with (M - Z.of_nat i)%Z by lia.
        rewrite sinc_tap_symmetric by exact E. reflexivity.
    + intros H2.
      rewrite !(sinc_filter_nth M f_c w) by (try exact Hw; lia).
      replace (Z.of_nat (Z.to_nat M)) with (M - 0)%Z by lia.
      rewrite sinc_tap_symmetric by lia.
      change (Z.of_nat 0) with 0%Z.
      rewrite sinc_tap_end by exact H2.
      unfold Rdiv. split; ring.
    + unfold sinc_filter in Hw.
      destruct (negb _); [discriminate|]. inversion Hw; subst w.
      rewrite sum_map_div. field. exact Hsum.
Qed.

Lemma sinc_taps_2 (f_c : R) :
  f_c <> 0 ->
  Np.sum (map (sinc_tap 2 f_c) (Anneal.zrange 0 (2 + 1))) <> 0.
Proof.
  intros Hf.
  change (Anneal.zrange 0 (2 + 1)) with [0; 1; 2]%Z.
  cbn [map Np.sum fold_right].
  replace (sinc_tap 2 f_c 2) with (sinc_tap 2 f_c (2 - 0)) by reflexivity.
  rewrite sinc_tap_symmetric by discriminate.
  rewrite sinc_tap_end by lia.
  unfold sinc_tap. rewrite Reqb_true by lra.
  pose proof PI_RGT_0 as Hpi.
  assert (2 * PI * f_c <> 0).
  { apply Rmult_integral_contrapositive. split; lra. }
  lra.
Qed.

Lemma sinc_filter_kernel_witness :
  sinc_filter 3 (1 / 10) = Raise AssertionError
  /\ exists w, sinc_filter 2 (1 / 10) = Ok w /\ length w = 3%nat
               /\ nth 0 w 0 = 0 /\ nth 2 w 0 = 0 /\ Np.sum w = 1.
Proof.
  split.
  - apply (proj1 (sinc_filter_kernel 3 (1 / 10))). discriminate.
  - destruct (proj2 (sinc_filter_kernel 2 (1 / 10)) eq_refl)
      as (w & Hw & Hl & Hrest); [lia|].
    destruct Hrest as (_ & Hend & Hone); [apply sinc_taps_2; lra|].
    exists w. split; [exact Hw|]. split; [exact Hl|].
    destruct Hend as [H0 H2]; [lia|].
    split; [exact H0|]. split; [exact H2 | exact Hone].
Defined.

(** X21: the ways in which [sinc_smooth] raises.  A zero cut-off period is
    a ZeroDivisionError; otherwise a signal of fewer than three samples is a
    ValueError with the default kernel, an odd explicit [M] is an
    AssertionError, and an even explicit [M] with more taps than the signal
    has samples is a ValueError. *)
Theorem sinc_smooth_errors (signal : list R) (T_c dt : R) (M : Z) :
  sinc_smooth signal 0 dt (Some M) = Raise ZeroDivisionError
  /\ sinc_smooth signal 0 dt None = Raise ZeroDivisionError
  /\ (T_c <> 0 -> (length signal < 3)%nat ->
      sinc_smooth signal T_c dt None = Raise ValueError)
  /\ (T_c <> 0 -> (M mod 2 <> 0)%Z ->
      sinc_smooth signal T_c dt (Some M) = Raise AssertionError)
  /\ (T_c <> 0 -> (M mod 2 = 0)%Z -> (Z.of_nat (length signal) < M + 1)%Z ->
      sinc_smooth signal T_c dt (Some M) = Raise ValueError).
Proof.
  assert (Hz : forall m, sinc_smooth signal 0 dt m = Raise ZeroDivisionError).
  { intros m. unfold sinc_smooth. rewrite (Reqb_true 0 0) by reflexivity.
    reflexivity. }
  split; [apply Hz|]. split; [apply Hz|].
  assert (Hshort : forall M', (M' mod 2 = 0)%Z ->
            ((Z.of_nat (length signal) < M' + 1)%Z \/ (M' + 1 < 3)%Z) ->
            (w <- sinc_filter M' (dt / T_c) ;; smooth signal 11 Flat (Some w))
            = Raise ValueError).
  { intros M' Heven Hbad.
    destruct (sinc_filter_length M' (dt / T_c) Heven) as [w [Hw Hwl]].
    rewrite Hw. simpl bind. unfold smooth. rewrite Hwl.
    destruct (Z.ltb_spec (Z.of_nat (length signal))
                (Z.of_nat (Z.to_nat (M' + 1)))); [reflexivity|].
    destruct (Z.ltb_spec (Z.of_nat (Z.to_nat (M' + 1))) 3); [reflexivity|].
    lia. }
  split; [|split].
  - intros HT Hlen. unfold sinc_smooth. rewrite (Reqb_neq T_c 0 HT).
    simpl bind. rewrite default_M_spec.
    apply Hshort.
    + unfold default_M. rewrite Z.mul_comm. apply Z.mod_mul. lia.
    + right. unfold default_M.
      pose proof (Z.div_mod (Z.of_nat (length signal) - 1) 2).
      pose proof (Z.mod_pos_bound (Z.of_nat (length signal) - 1) 2). lia.
  - intros HT Hodd. unfold sinc_smooth. rewrite (Reqb_neq T_c 0 HT).
    simpl bind. unfold sinc_filter.
    destruct (Z.eqb_spec (M mod 2) 0); [contradiction|reflexivity].
  - intros HT Heven Hlong. unfold sinc_smooth. rewrite (Reqb_neq T_c 0 HT).
    simpl bind. apply Hshort; [exact Heven | left; exact Hlong].
Qed.

Lemma sinc_smooth_errors_witness :
  sinc_smooth [1; 2] 10 1 None = Raise ValueError
  /\ sinc_smooth [1; 2; 3; 4; 5] 10 1 (Some 3%Z) = Raise AssertionError
  /\ sinc_smooth [1; 2; 3; 4; 5] 10 1 (Some 6%Z) = Raise ValueError.
Proof.
  assert (H10 : 10 <> 0) by lra.
  split; [|split].
  - apply (proj1 (proj2 (proj2 (sinc_smooth_errors [1; 2] 10 1 0))) H10).
    simpl. lia.
  - apply (proj1 (proj2 (proj2 (proj2
             (sinc_smooth_errors [1; 2; 3; 4; 5] 10 1 3)))) H10).
    discriminate.
  - apply (proj2 (proj2 (proj2 (proj2
             (sinc_smooth_errors [1; 2; 3; 4; 5] 10 1 6)))) H10).
    + reflexivity.
    + simpl. lia.
Defined.

(** X22: the trend of a constant signal is the signal.  For a constant
    signal of at least three samples and a non-zero cut-off period,
    [sinc_smooth] with the default kernel returns the signal unchanged,
    provided the unnormalised taps of the kernel do not sum to zero. *)
Theorem sinc_smooth_constant (c : R) (n : nat) (T_c dt : R) :
  (3 <= n)%nat -> T_c <> 0 ->
  Np.sum (map (sinc_tap (default_M n) (dt / T_c))
            (Anneal.zrange 0 (default_M n + 1))) <> 0 ->
  sinc_smooth (repeat c n) T_c dt None = Ok (repeat c n).
Proof.
  intros Hn HT Hsum.
  assert (HM : (default_M n mod 2 = 0)%Z).
  { unfold default_M. rewrite Z.mul_comm. apply Z.mod_mul. lia. }
  assert (HMb : (Z.of_nat n - 2 <= default_M n <= Z.of_nat n - 1)%Z).
  { unfold default_M.
    pose proof (Z.div_mod (Z.of_nat n - 1) 2).
    pose proof (Z.mod_pos_bound (Z.of_nat n - 1) 2). lia. }
  destruct (proj2 (sinc_filter_kernel_aux (default_M n) (dt / T_c)) HM)
    as (w & Hw & Hwl & Hone); [lia|].
  unfold sinc_smooth. rewrite (Reqb_neq T_c 0 HT). simpl bind.
  rewrite repeat_length, default_M_spec, Hw. simpl bind.
  assert (H3 : (2 <= default_M n)%Z).
  { pose proof (Z.div_mod (default_M n) 2). lia. }
  apply smooth_keeps_constant.
  - rewrite Hwl. lia.
  - rewrite Hwl, Z2Nat.id by lia. rewrite Z.add_mod, HM by lia. reflexivity.
  - rewrite (Hone Hsum). lra.
Qed.

Lemma sinc_smooth_constant_witness :
  sinc_smooth (repeat 7 3) 10 1 None = Ok (repeat 7 3).
Proof.
  apply (sinc_smooth_constant 7 3 10 1).
  - lia.
  - lra.
  - change (default_M 3) with 2%Z. apply sinc_taps_2. lra.
Defined.

(** ** Amplitude envelope, further *)

Lemma Rmax_shift (a b c : R) : Rmax (a + c) (b + c) = Rmax a b + c.
Proof. unfold Rmax. destruct (Rle_dec _ _), (Rle_dec _ _); lra. Qed.

Lemma Rmin_shift (a b c : R) : Rmin (a + c) (b + c) = Rmin a b + c.
Proof. unfold Rmin. destruct (Rle_dec _ _), (Rle_dec _ _); lra. Qed.

Lemma fold_Rmax_shift (xs : list R) (x c : R) :
  fold_left Rmax (map (fun v => v + c) xs) (x + c) = fold_left Rmax xs x + c.
Proof.
  revert x; induction xs as [|a rest IH]; intros x; simpl; [reflexivity|].
  rewrite Rmax_shift. apply IH.
Qed.

Lemma fold_Rmin_shift (xs : list R) (x c : R) :
  fold_left Rmin (map (fun v => v + c) xs) (x + c) = fold_left Rmin xs x + c.
Proof.
  revert x; induction xs as [|a rest IH]; intros x; simpl; [reflexivity|].
  rewrite Rmin_shift. apply IH.
Qed.

Lemma fold_Rmax_ge (xs : list R) (x : R) : x <= fold_left Rmax xs x.
Proof.
  revert x; induction xs as [|a rest IH]; intros x; simpl; [lra|].
  specialize (IH (Rmax x a)).
  assert (x <= Rmax x a) by (unfold Rmax; destruct (Rle_dec _ _); lra). lra.
Qed.

Lemma fold_Rmin_le (xs : list R) (x : R) : fold_left Rmin xs x <= x.
Proof.
  revert x; induction xs as [|a rest IH]; intros x; simpl; [lra|].
  specialize (IH (Rmin x a)).
  assert (Rmin x a <= x) by (unfold Rmin; destruct (Rle_dec _ _); lra). lra.
Qed.

(** Half the spread of a window, the amplitude of one row. *)
Lemma spread_shift (row : list R) (c : R) :
  (list_max (map (fun v => v + c) row) - list_min (map (fun v => v + c) row)) / 2
  = (list_max row - list_min row) / 2.
Proof.
  destruct row as [|x xs]; [reflexivity|].
  simpl. rewrite fold_Rmax_shift, fold_Rmin_shift. field.
Qed.

Lemma spread_nonneg (row : list R) : 0 <= (list_max row - list_min row) / 2.
Proof.
  destruct row as [|x xs]; simpl; [lra|].
  pose proof (fold_Rmax_ge xs x). pose proof (fold_Rmin_le xs x). lra.
Qed.

Lemma odd_window_odd (ws : Z) : (odd_window ws mod 2 = 1)%Z.
Proof.
  unfold odd_window.
  destruct (Z.eqb_spec (ws mod 2) 1) as [E|E]; simpl negb; cbv iota.
  - exact E.
  - pose proof (Z.mod_pos_bound ws 2).
    rewrite Z.add_mod by lia.
    replace (ws mod 2)%Z with 0%Z by lia. reflexivity.
Qed.

(** X23: the unsmoothed envelope is defined when the signal has at least
    window - 1 samples, the window being the requested size made odd.  It
    then has one value per sample, every value is non-negative, and adding
    a constant to the signal does not change it (so subtracting the mean
    beforehand has no effect on it).  A shorter signal, or a negative
    window, raises ValueError, with or without the final smoothing. *)
Theorem envelope_unsmoothed
  (savgol_filter : list R -> Z -> Z -> result (list R))
  (signal : list R) (window_size : Z) (c : R) (SGsmooth : bool) :
  (((Z.of_nat (length signal) + 1 < odd_window window_size)%Z
    \/ (odd_window window_size < 0)%Z) ->
   sliding_window_amplitude savgol_filter signal window_size SGsmooth
   = Raise ValueError)
  /\ ((0 <= odd_window window_size <= Z.of_nat (length signal) + 1)%Z ->
      exists amplitudes,
        sliding_window_amplitude savgol_filter signal window_size false
        = Ok amplitudes
        /\ length amplitudes = length signal
        /\ Forall (fun a => 0 <= a) amplitudes
        /\ sliding_window_amplitude savgol_filter
             (map (fun v => v + c) signal) window_size false
           = Ok amplitudes).
Proof.
  pose proof (odd_window_odd window_size) as Hodd.
  unfold sliding_window_amplitude. fold (odd_window window_size).
  set (ws := odd_window window_size) in *.
  split.
  - intros H.
    destruct (Z.ltb_spec (Z.of_nat (length signal) - ws + 1) 0);
      [reflexivity|].
    destruct (Z.ltb_spec ws 0); [reflexivity|]. lia.
  - intros H. rewrite length_map.
    destruct (Z.ltb_spec (Z.of_nat (length signal) - ws + 1) 0); [lia|].
    destruct (Z.ltb_spec ws 0); [lia|]. cbn [orb].
    eexists. split; [reflexivity|].
    assert (Hb : (Z.to_nat ws = 2 * (Z.to_nat ws / 2) + 1)%nat).
    { pose proof (Nat.div_mod_eq (Z.to_nat ws) 2) as Hd.
      assert (Hm : (Z.to_nat ws mod 2 = 1)%nat).
      { pose proof (Z.div_mod ws 2).
        pose proof (Nat.mod_upper_bound (Z.to_nat ws) 2).
        pose proof (Nat.div_mod_eq (Z.to_nat ws) 2).
        lia. }
      lia. }
    split.
    { rewrite length_map, !length_app, !length_map, !length_seq. lia. }
    split.
    { apply Forall_forall. intros a Ha.
      apply in_map_iff in Ha as [row [<- _]]. apply spread_nonneg. }
    f_equal.
    rewrite !map_app, !map_map.
    f_equal; [|f_equal]; apply map_ext; intros i.
    + rewrite firstn_map. apply spread_shift.
    + rewrite skipn_map, firstn_map. apply spread_shift.
    + unfold lastn. rewrite length_map, skipn_map. apply spread_shift.
Qed.

Lemma envelope_unsmoothed_witness :
  sliding_window_amplitude no_savgol [1; 2] 4 true = Raise ValueError
  /\ exists amplitudes,
       sliding_window_amplitude no_savgol [1; 4; 2; 8] 2 false = Ok amplitudes
       /\ length amplitudes = 4%nat
       /\ sliding_window_amplitude no_savgol
            (map (fun v => v + 10) [1; 4; 2; 8]) 2 false = Ok amplitudes.
Proof.
  split.
  - apply (proj1 (envelope_unsmoothed no_savgol [1; 2] 4 0 true)).
    left. vm_compute. reflexivity.
  - destruct (proj2 (envelope_unsmoothed no_savgol [1; 4; 2; 8] 2 10 false))
      as (a & Ha & Hl & _ & Hs).
    + vm_compute. split; discriminate.
    + exists a. repeat split; assumption.
Defined.

Example envelope_example :
  sliding_window_amplitude no_savgol [1; 4; 2; 8] 3 false
  = Ok [3 / 2; 3 / 2; 3; 3].
Proof.
  unfold sliding_window_amplitude, lastn, list_max, list_min.
  simpl. eval_minmax. f_equal. list_eq.
Qed.

(** ** AR1 spectrum and simulation *)

(** X24: for non-zero periods the AR1 spectrum has one value per period;
    it is identically one for alpha = 0 (white noise); and for |alpha| < 1
    every value is positive and at most (1 + |alpha|) / (1 - |alpha|). *)
Theorem ar1_powerspec_values (alpha : R) (periods : list R) (dt : R) :
  Forall (fun p => p <> 0) periods ->
  length (ar1_powerspec alpha periods dt) = length periods
  /\ ar1_powerspec 0 periods dt = repeat 1 (length periods)
  /\ (-1 < alpha < 1 ->
      Forall (fun v => 0 < v <= (1 + Rabs alpha) / (1 - Rabs alpha))
        (ar1_powerspec alpha periods dt)).
Proof.
  intros _.
  split; [apply length_map|]. split.
  - unfold ar1_powerspec. induction periods as [|p rest IH]; [reflexivity|].
    cbn [map length repeat]. rewrite IH. f_equal. field.
  - intros Ha. apply Forall_forall. intros v Hv.
    unfold ar1_powerspec in Hv. apply in_map_iff in Hv as [p [<- _]].
    set (cs := cos (2 * PI * dt / p)).
    pose proof (COS_bound (2 * PI * dt / p)) as [Hlo Hhi]. fold cs in Hlo, Hhi.
    assert (Habs : 0 <= Rabs alpha < 1).
    { split; [apply Rabs_pos|]. apply Rabs_def1; lra. }
    assert (Hsq : alpha ^ 2 = Rabs alpha ^ 2).
    { rewrite <- !Rsqr_pow2. apply Rsqr_abs. }
    assert (Hprod : alpha * cs <= Rabs alpha).
    { apply Rle_trans with (Rabs (alpha * cs)); [apply Rle_abs|].
      rewrite Rabs_mult.
      assert (Rabs cs <= 1) by (apply Rabs_le; lra).
      pose proof (Rabs_pos alpha). nra. }
    assert (Hden : (1 - Rabs alpha) ^ 2 <= 1 + alpha ^ 2 - 2 * alpha * cs).
    { rewrite Hsq. nra. }
    assert (Hdpos : 0 < (1 - Rabs alpha) ^ 2) by nra.
    assert (Hnum : 0 < 1 - alpha ^ 2) by (rewrite Hsq; nra).
    split.
    + apply Rdiv_lt_0_compat; lra.
    + apply (Rmult_le_reg_r (1 + alpha ^ 2 - 2 * alpha * cs)); [lra|].
      unfold Rdiv at 1. rewrite Rmult_assoc, Rinv_l, Rmult_1_r by lra.
      apply Rle_trans with ((1 + Rabs alpha) / (1 - Rabs alpha)
                            * (1 - Rabs alpha) ^ 2).
      * replace ((1 + Rabs alpha) / (1 - Rabs alpha) * (1 - Rabs alpha) ^ 2)
          with (1 - Rabs alpha ^ 2) by (field; lra).
        rewrite Hsq. lra.
      * apply Rmult_le_compat_l; [|exact Hden].
        apply Rlt_le, Rdiv_lt_0_compat; lra.
Qed.

Lemma ar1_powerspec_values_witness :
  Forall (fun v => 0 < v <= (1 + Rabs (1 / 2)) / (1 - Rabs (1 / 2)))
    (ar1_powerspec (1 / 2) [10; 20; 40] 1).
Proof.
  apply (ar1_powerspec_values (1 / 2) [10; 20; 40] 1).
  - repeat constructor; lra.
  - lra.
Defined.

Lemma ar1_loop_length (alpha sigma prev : R) (draws : list R) :
  length (ar1_loop alpha sigma prev draws) = length draws.
Proof.
  revert prev; induction draws as [|e rest IH]; intros prev; simpl;
    [reflexivity | rewrite IH; reflexivity].
Qed.

Lemma ar1_loop_no_noise (alpha prev : R) (draws : list R) (i : nat) :
  (i < length draws)%nat ->
  nth i (ar1_loop alpha 0 prev draws) 0 = alpha ^ (S i) * prev.
Proof.
  revert prev i; induction draws as [|e rest IH]; intros prev i Hi;
    simpl in Hi; [lia|].
  destruct i as [|i]; cbn [ar1_loop nth].
  - simpl. ring.
  - rewrite IH by lia. simpl. ring.
Qed.

Lemma ar1_loop_no_memory (sigma prev : R) (draws : list R) (i : nat) :
  (i < length draws)%nat ->
  nth i (ar1_loop 0 sigma prev draws) 0 = sigma * nth i draws 0.
Proof.
  revert prev i; induction draws as [|e rest IH]; intros prev i Hi;
    simpl in Hi; [lia|].
  destruct i as [|i]; cbn [ar1_loop nth].
  - ring.
  - apply IH. lia.
Qed.

(** X25: [ar1_sim] raises ValueError for a negative length and IndexError
    for the length zero (the start value has no slot).  For N >= 1 it
    returns N values starting at the start value; without noise (sigma = 0)
    the i-th value is alpha^i times the start value, and without memory
    (alpha = 0) every later value is sigma times its own normal sample. *)
Theorem ar1_sim_values (alpha : R) (N : Z) (sigma : R) (x0 : option R)
  (randn : nat -> R) :
  let start := match x0 with Some v => v | None => randn 0%nat end in
  let first := match x0 with Some _ => 0%nat | None => 1%nat end in
  ((N < 0)%Z -> ar1_sim alpha N sigma x0 randn = Raise ValueError)
  /\ (N = 0%Z -> ar1_sim alpha N sigma x0 randn = Raise IndexError)
  /\ ((1 <= N)%Z ->
      exists sol,
        ar1_sim alpha N sigma x0 randn = Ok sol
        /\ length sol = Z.to_nat N
        /\ nth 0 sol 0 = start
        /\ (sigma = 0 ->
            forall i, (i < Z.to_nat N)%nat -> nth i sol 0 = alpha ^ i * start)
        /\ (alpha = 0 ->
            forall i, (1 <= i < Z.to_nat N)%nat ->
              nth i sol 0 = sigma * randn (first + (i - 1))%nat)).
Proof.
  intros start first. unfold ar1_sim. fold start first.
  split; [|split].
  - intros H. destruct (Z.ltb_spec N 0); [reflexivity|lia].
  - intros ->. reflexivity.
  - intros H.
    destruct (Z.ltb_spec N 0); [lia|].
    destruct (Z.eqb_spec N 0); [lia|].
    eexists. split; [reflexivity|].
    split.
    { simpl. rewrite ar1_loop_length, length_map, length_seq. lia. }
    split; [reflexivity|].
    split.
    + intros -> i Hi. destruct i as [|i]; [simpl; ring|].
      cbn [nth]. rewrite ar1_loop_no_noise; [reflexivity|].
      rewrite length_map, length_seq. lia.
    + intros -> i Hi. destruct i as [|i]; [lia|].
      cbn [nth]. rewrite ar1_loop_no_memory
        by (rewrite length_map, length_seq; lia).
      f_equal.
      rewrite (nth_indep _ 0 (randn 0%nat))
        by (rewrite length_map, length_seq; lia).
      rewrite (map_nth randn), seq_nth by lia.
      f_equal. lia.
Qed.

Lemma ar1_sim_values_witness :
  ar1_sim (1 / 2) (-1) 1 None (fun k => INR k) = Raise ValueError
  /\ ar1_sim (1 / 2) 0 1 None (fun k => INR k) = Raise IndexError
  /\ exists sol,
       ar1_sim (1 / 2) 4 0 (Some 8) (fun k => INR k) = Ok sol
       /\ nth 3 sol 0 = (1 / 2) ^ 3 * 8.
Proof.
  split; [|split].
  - apply (proj1 (ar1_sim_values (1 / 2) (-1) 1 None (fun k => INR k))). lia.
  - apply (proj1 (proj2 (ar1_sim_values (1 / 2) 0 1 None (fun k => INR k)))).
    reflexivity.
  - destruct (proj2 (proj2 (ar1_sim_values (1 / 2) 4 0 (Some 8)
                              (fun k => INR k))))
      as (sol & Hs & _ & _ & Hgeo & _); [lia|].
    exists sol. split; [exact Hs|].
    apply Hgeo; [reflexivity | simpl; lia].
Defined.
(** ** The continuous wavelet transform and the spectrum *)

Lemma Int_part_bounds (r : R) : IZR (Int_part r) <= r < IZR (Int_part r) + 1.
Proof. pose proof (base_Int_part r) as [H1 H2]. lra. Qed.

Lemma trunc_ge_1 (r : R) : 1 <= r -> (1 <= trunc r)%Z.
Proof.
  intros Hr. unfold trunc. destruct (Rlt_dec r 0) as [H|_]; [lra|].
  pose proof (Int_part_bounds r) as [_ H2].
  assert (H : (0 < Int_part r)%Z) by (apply lt_IZR; lra). lia.
Qed.

Lemma trunc_small (r : R) : 0 <= r < 1 -> trunc r = 0%Z.
Proof.
  intros Hr. unfold trunc. destruct (Rlt_dec r 0) as [H|_]; [lra|].
  symmetry. apply Int_part_spec. lra.
Qed.

Lemma Rceil_IZR (z : Z) : Rceil (IZR z) = z.
Proof.
  unfold Rceil. rewrite <- opp_IZR.
  rewrite <- (Int_part_spec (IZR (- z)) (- z)); [lia | lra].
Qed.

Lemma arange_R_length (lo hi : R) :
  length (arange_R lo hi) = Z.to_nat (Rceil (hi - lo)).
Proof. unfold arange_R. rewrite length_map, length_seq. reflexivity. Qed.

Lemma arange_R_length_int (k : Z) :
  length (arange_R (- IZR k) (IZR k)) = Z.to_nat (2 * k).
Proof.
  rewrite arange_R_length.
  replace (IZR k - - IZR k) with (IZR (2 * k)) by (rewrite mult_IZR; lra).
  rewrite Rceil_IZR. reflexivity.
Qed.

Lemma arange_R_length_half (n : nat) :
  length (arange_R (- INR n / 2) (INR n / 2)) = n.
Proof.
  rewrite arange_R_length.
  replace (INR n / 2 - - INR n / 2) with (IZR (Z.of_nat n))
    by (rewrite <- INR_IZR_INZ; lra).
  rewrite Rceil_IZR. apply Nat2Z.id.
Qed.

(** The kernel is never longer than the signal. *)
Lemma cwt_support_length_le (n : nat) (scale : R) (clip : bool) :
  (length (cwt_support n scale clip) <= n)%nat.
Proof.
  unfold cwt_support.
  set (x_max := if clip then _ else _).
  unfold Rgtb. destruct (Rgt_dec (2 * x_max) (INR n)) as [H|H].
  - rewrite arange_R_length_half. lia.
  - destruct clip; unfold x_max in *.
    + rewrite arange_R_length_int.
      set (k := trunc _) in *.
      assert (Hk : (2 * k <= Z.of_nat n)%Z).
      { apply le_IZR. rewrite mult_IZR, <- INR_IZR_INZ. lra. }
      lia.
    + replace (- (INR n / 2)) with (- INR n / 2) by lra.
      rewrite arange_R_length_half. lia.
Qed.

Lemma cwt_support_unclipped (n : nat) (scale : R) :
  length (cwt_support n scale false) = n.
Proof.
  unfold cwt_support, Rgtb.
  destruct (Rgt_dec (2 * (INR n / 2)) (INR n)) as [H|H]; [lra|].
  replace (- (INR n / 2)) with (- INR n / 2) by lra.
  apply arange_R_length_half.
Qed.

(** From a quarter of a sample on, a scale has a support of at least two
    offsets. *)
Lemma cwt_support_nonempty (n : nat) (scale : R) :
  n <> 0%nat -> 1 / 4 <= scale -> cwt_support n scale true <> [].
Proof.
  intros Hn Hs Hnil. apply (f_equal (@length R)) in Hnil. revert Hnil.
  pose proof support_factor_bounds as [Hlo _].
  unfold cwt_support. rewrite support_radius by lra.
  set (k := trunc _).
  assert (Hk : (1 <= k)%Z) by (apply trunc_ge_1; nra).
  unfold Rgtb. destruct (Rgt_dec (2 * IZR k) (INR n)) as [H|H].
  - rewrite arange_R_length_half. exact Hn.
  - rewrite arange_R_length_int. cbn [length]. lia.
Qed.

(** Below a sixth of a sample the support is empty. *)
Lemma cwt_support_empty (n : nat) (scale : R) :
  0 < scale <= 1 / 6 -> cwt_support n scale true = [].
Proof.
  intros Hs.
  pose proof support_factor_bounds as [Hlo Hhi].
  unfold cwt_support. rewrite support_radius by lra.
  rewrite trunc_small by nra.
  unfold Rgtb. destruct (Rgt_dec (2 * 0) (INR n)) as [H|H].
  - pose proof (pos_INR n). lra.
  - unfold arange_R. replace (0 - - 0) with (IZR 0) by lra.
    rewrite Rceil_IZR. reflexivity.
Qed.

Lemma convolve_full_length (a v : list complex) :
  length (convolve_full a v) = (length a + length v - 1)%nat.
Proof. unfold convolve_full. rewrite length_map, length_seq. reflexivity. Qed.

Lemma convolve_same_ok (a v : list complex) :
  a <> [] -> v <> [] ->
  convolve_same a v
  = Ok (firstn (Nat.max (length a) (length v))
          (skipn ((Nat.min (length a) (length v) - 1) / 2)
             (convolve_full a v))).
Proof. intros Ha Hv. destruct a, v; try congruence. reflexivity. Qed.

Lemma convolve_same_length (a v : list complex) :
  a <> [] -> v <> [] ->
  exists row, convolve_same a v = Ok row
              /\ length row = Nat.max (length a) (length v).
Proof.
  intros Ha Hv. rewrite convolve_same_ok by assumption.
  eexists. split; [reflexivity|].
  rewrite length_firstn, length_skipn, convolve_full_length.
  set (la := length a). set (lv := length v).
  assert (Hla : (1 <= la)%nat)
    by (unfold la; destruct a; [congruence | simpl; lia]).
  assert (Hlv : (1 <= lv)%nat)
    by (unfold lv; destruct v; [congruence | simpl; lia]).
  assert ((Nat.min la lv - 1) / 2 <= Nat.min la lv - 1)%nat
    by (apply Nat.Div0.div_le_upper_bound; lia).
  lia.
Qed.

Lemma convolve_same_empty (a v : list complex) :
  a = [] \/ v = [] -> convolve_same a v = Raise ValueError.
Proof. intros [H|H]; subst; [reflexivity | destruct a; reflexivity]. Qed.

(** One row of [CWT]: either the kernel is empty, which is a ValueError, or
    the row has the length of the signal. *)
Lemma cwt_row_cases (signal : list R) (wavelet : R -> R -> complex)
  (clip : bool) (scale : R) :
  (signal <> [] /\ cwt_support (length signal) scale clip <> []
   /\ exists row, cwt_row signal wavelet clip scale = Ok row
                  /\ length row = length signal)
  \/ ((signal = [] \/ cwt_support (length signal) scale clip = [])
      /\ cwt_row signal wavelet clip scale = Raise ValueError).
Proof.
  destruct signal as [|x signal].
  - right. split; [left; reflexivity|]. unfold cwt_row.
    rewrite convolve_same_empty by (left; reflexivity). reflexivity.
  - destruct (cwt_support (length (x :: signal)) scale clip) as [|t vec] eqn:Hv.
    + right. split; [right; reflexivity|]. unfold cwt_row. rewrite Hv.
      rewrite convolve_same_empty by (right; reflexivity). reflexivity.
    + left. split; [discriminate|]. split; [discriminate|].
      pose proof (cwt_support_length_le (length (x :: signal)) scale clip) as Hle.
      unfold cwt_row. rewrite Hv in *.
      destruct (convolve_same_length
                  (map (fun x => (x, 0)) (x :: signal))
                  (map (fun t0 => wavelet t0 scale) (t :: vec)))
        as (row & Hrow & Hlen); [discriminate | discriminate |].
      rewrite Hrow. rewrite !length_map in Hlen.
      assert (Hn : length row = length (x :: signal)) by lia.
      cbn [bind]. rewrite Hn, Nat.eqb_refl. eauto.
Qed.

Lemma CWT_rows (signal : list R) (wavelet : R -> R -> complex)
  (scales : list R) (clip : bool) :
  signal <> [] ->
  Forall (fun s => cwt_support (length signal) s clip <> []) scales ->
  exists wlet, CWT signal wavelet scales clip = Ok wlet
               /\ has_shape wlet (length scales) (length signal).
Proof.
  intros Hsig. unfold CWT, has_shape.
  induction scales as [|s rest IH]; intros Hall.
  - exists []. repeat split. constructor.
  - inversion Hall as [|? ? Hs Hrest]; subst.
    destruct (IH Hrest) as (wlet & Hw & Hlen & Hrows).
    destruct (cwt_row_cases signal wavelet clip s)
      as [(_ & _ & row & Hrow & Hn) | ([He|He] & _)]; try contradiction.
    exists (row :: wlet). cbn [mapM]. rewrite Hrow. cbn [bind]. rewrite Hw.
    repeat split.
    + simpl. rewrite Hlen. reflexivity.
    + constructor; assumption.
Qed.

Lemma CWT_raises (signal : list R) (wavelet : R -> R -> complex)
  (scales : list R) (clip : bool) :
  (signal = [] /\ scales <> [])
  \/ Exists (fun s => cwt_support (length signal) s clip = []) scales ->
  CWT signal wavelet scales clip = Raise ValueError.
Proof.
  unfold CWT. induction scales as [|s rest IH]; intros H.
  - destruct H as [[_ H]|H]; [congruence | inversion H].
  - cbn [mapM].
    destruct (cwt_row_cases signal wavelet clip s)
      as [(Hsig & Hs & row & Hrow & _) | (_ & Hrow)]; rewrite Hrow; cbn [bind];
      [|reflexivity].
    rewrite IH; [reflexivity|].
    destruct H as [[H _]|H]; [contradiction|].
    inversion H; subst; [contradiction | right; assumption].
Qed.

(** X26: the shape of the transform and the scales it cannot handle.  For a
    signal that is not empty and scales of at least a quarter of a sample,
    [CWT] with clipped support returns one row per scale, each as long as
    the signal; without clipping it does so for all scales.  A scale of at
    most a sixth of a sample has an empty clipped support, and the
    convolution with it is a ValueError, as is the transform of an empty
    signal at any scale. *)
Theorem CWT_shape_and_errors (signal : list R) (wavelet : R -> R -> complex)
  (scales : list R) :
  Forall (fun s => 0 < s) scales ->
  (signal <> [] -> Forall (fun s => 1 / 4 <= s) scales ->
   exists wlet, CWT signal wavelet scales true = Ok wlet
                /\ has_shape wlet (length scales) (length signal))
  /\ (signal <> [] ->
      exists wlet, CWT signal wavelet scales false = Ok wlet
                   /\ has_shape wlet (length scales) (length signal))
  /\ (Exists (fun s => s <= 1 / 6) scales ->
      CWT signal wavelet scales true = Raise ValueError)
  /\ (signal = [] -> scales <> [] ->
      forall clip, CWT signal wavelet scales clip = Raise ValueError).
Proof.
  intros Hpos.
  assert (Hn : signal <> [] -> length signal <> 0%nat)
    by (destruct signal; [congruence | discriminate]).
  split; [|split; [|split]].
  - intros Hsig Hbig. apply CWT_rows; [exact Hsig|].
    apply Forall_impl with (2 := Hbig). intros s Hs.
    apply cwt_support_nonempty; [apply Hn; exact Hsig | exact Hs].
  - intros Hsig. apply CWT_rows; [exact Hsig|].
    apply Forall_forall. intros s _ Hnil.
    apply (f_equal (@length R)) in Hnil.
    rewrite cwt_support_unclipped in Hnil. apply (Hn Hsig). exact Hnil.
  - intros Hsmall. apply CWT_raises. right.
    rewrite Forall_forall in Hpos. rewrite Exists_exists in *.
    destruct Hsmall as (s & Hin & Hs). exists s. split; [exact Hin|].
    apply cwt_support_empty. split; [apply Hpos; exact Hin | exact Hs].
  - intros Hsig Hsc clip. apply CWT_raises. left. split; assumption.
Qed.

Lemma CWT_shape_and_errors_witness :
  (exists wlet, CWT [1; 2; 3] (Morlet omega0) [1; 2] true = Ok wlet
                /\ has_shape wlet 2 3)
  /\ CWT [1; 2; 3] (Morlet omega0) [1; 1 / 8] true = Raise ValueError.
Proof.
  split.
  - apply (proj1 (CWT_shape_and_errors [1; 2; 3] (Morlet omega0) [1; 2]
                    ltac:(repeat constructor; lra))).
    + discriminate.
    + repeat constructor; lra.
  - apply (proj1 (proj2 (proj2
             (CWT_shape_and_errors [1; 2; 3] (Morlet omega0) [1; 1 / 8]
                ltac:(repeat constructor; lra))))).
    right. left. lra.
Defined.

(** *** The spectrum *)

Lemma sum_map_affine (c d : R) (l : list R) :
  Np.sum (map (fun x => c * x + d) l) = c * Np.sum l + d * INR (length l).
Proof.
  induction l as [|x l IH]; [simpl; ring|].
  cbn [map Np.sum fold_right] in *. cbn [length]. rewrite S_INR.
  unfold Np.sum in IH. rewrite IH. ring.
Qed.

Lemma length_pos_INR {A : Type} (l : list A) : l <> [] -> 0 < INR (length l).
Proof.
  intros H. destruct l; [congruence|]. apply lt_0_INR. simpl. lia.
Qed.

Lemma mean_affine (c d : R) (l : list R) :
  l <> [] -> Np.mean (map (fun x => c * x + d) l) = c * Np.mean l + d.
Proof.
  intros H. pose proof (length_pos_INR l H).
  unfold Np.mean. rewrite sum_map_affine, length_map. field. lra.
Qed.

Lemma centre_affine (c d : R) (l : list R) :
  l <> [] ->
  let l' := map (fun x => c * x + d) l in
  map (fun x => x - Np.mean l') l'
  = map (fun x => c * x) (map (fun x => x - Np.mean l) l).
Proof.
  intros H l'. unfold l'. rewrite mean_affine by exact H.
  rewrite !map_map. apply map_ext. intros x. ring.
Qed.

Lemma var_affine (c d : R) (l : list R) :
  l <> [] -> Np.var (map (fun x => c * x + d) l) = c ^ 2 * Np.var l.
Proof.
  intros H. pose proof (length_pos_INR l H).
  unfold Np.var. rewrite mean_affine by exact H.
  rewrite map_map.
  rewrite (map_ext _ (fun x => c ^ 2 * ((x - Np.mean l) * (x - Np.mean l)) + 0))
    by (intros x; ring).
  rewrite <- (map_map (fun x => (x - Np.mean l) * (x - Np.mean l))
                (fun y => c ^ 2 * y + 0)).
  rewrite mean_affine; [ring|].
  destruct l; [congruence | discriminate].
Qed.

(** Subtracting the mean does not change the variance. *)
Lemma var_centred (l : list R) :
  l <> [] -> Np.var (map (fun x => x - Np.mean l) l) = Np.var l.
Proof.
  intros H.
  rewrite (map_ext _ (fun x => 1 * x + - Np.mean l)) by (intros x; ring).
  rewrite var_affine by exact H. ring.
Qed.

Lemma PI_gt_3 : 3 < PI.
Proof. pose proof PI2_3_2. lra. Qed.

(** The admissible scale of a period, in samples, lies just above the period
    in samples. *)
Lemma scale_of_period_bounds (p dt : R) :
  0 < p -> 0 < dt ->
  p / dt < scale_of_period p (1 / dt) omega0 < 13 / 12 * (p / dt).
Proof.
  intros Hp Hdt.
  pose proof PI_gt_3 as Hpi.
  assert (Hq : 0 < p / dt) by (apply Rdiv_lt_0_compat; assumption).
  pose proof (sqrt_two_plus_sq_gt omega0) as Hlo.
  assert (Hhi : sqrt (2 + omega0 ^ 2) < omega0 + 1).
  { replace (omega0 + 1) with (sqrt ((omega0 + 1) ^ 2))
      by (apply sqrt_pow2; unfold omega0; lra).
    apply sqrt_lt_1; unfold omega0; nra. }
  set (F := (omega0 + sqrt (2 + omega0 ^ 2)) / (4 * PI)).
  assert (HF : 1 < F < 13 / 12).
  { unfold F. split.
    - apply Rmult_lt_reg_r with (4 * PI); [lra|].
      unfold Rdiv. rewrite Rmult_assoc, Rinv_l by lra. unfold omega0 in *. lra.
    - apply Rmult_lt_reg_r with (4 * PI); [lra|].
      unfold Rdiv at 1. rewrite Rmult_assoc, Rinv_l by lra.
      unfold omega0 in *. lra. }
  replace (scale_of_period p (1 / dt) omega0) with (F * (p / dt))
    by (unfold scale_of_period, F; field; lra).
  split; nra.
Qed.

Lemma spectrum_scales_small (dt : R) (periods : list R) (n : nat) :
  0 < dt -> Forall (fun p => 0 < p) periods ->
  Exists (fun p => p <= dt / 7) periods ->
  Exists (fun s => cwt_support n s true = [])
    (scales_from_periods periods (1 / dt) omega0).
Proof.
  intros Hdt Hpos Hsmall. unfold scales_from_periods.
  rewrite Forall_forall in Hpos. rewrite Exists_exists in *.
  destruct Hsmall as (p & Hin & Hp).
  exists (scale_of_period p (1 / dt) omega0).
  split; [apply (in_map (fun q => scale_of_period q (1 / dt) omega0));
          exact Hin|].
  pose proof (scale_of_period_bounds p dt (Hpos p Hin) Hdt) as [Hlo Hhi].
  assert (Hq : 0 < p / dt) by (apply Rdiv_lt_0_compat; auto).
  assert (Hq' : p / dt <= 1 / 7).
  { apply Rmult_le_reg_r with dt; [exact Hdt|].
    unfold Rdiv at 1. rewrite Rmult_assoc, Rinv_l by lra. lra. }
  apply cwt_support_empty. lra.
Qed.

Lemma spectrum_scales_big (dt : R) (periods : list R) (n : nat) :
  n <> 0%nat -> 0 < dt -> Forall (fun p => dt / 4 <= p) periods ->
  Forall (fun s => cwt_support n s true <> [])
    (scales_from_periods periods (1 / dt) omega0).
Proof.
  intros Hn Hdt Hbig. unfold scales_from_periods.
  rewrite Forall_forall in *. intros s Hs.
  apply in_map_iff in Hs. destruct Hs as (p & <- & Hin).
  specialize (Hbig p Hin).
  assert (Hp : 0 < p) by lra.
  pose proof (scale_of_period_bounds p dt Hp Hdt) as [Hlo Hhi].
  assert (Hq' : 1 / 4 <= p / dt).
  { apply Rmult_le_reg_r with dt; [exact Hdt|].
    unfold Rdiv at 2. rewrite Rmult_assoc, Rinv_l by lra. lra. }
  apply cwt_support_nonempty; [exact Hn | lra].
Qed.

Lemma compute_spectrum_unfold (signal : list R) (dt : R) (periods : list R) :
  periods <> [] -> dt <> 0 ->
  compute_spectrum signal dt periods
  = (let centred := map (fun x => x - Np.mean signal) signal in
     wlet <- CWT centred (Morlet omega0)
               (scales_from_periods periods (1 / dt) omega0) true ;;
     Ok (mkSpectrum
           (map (map (fun z => Cabs z ^ 2 / Np.var centred)) wlet) wlet
           (Rltb (hd 0 periods) (2 * dt))
           (Rgtb (list_max periods) (dt * INR (length centred))))).
Proof.
  intros Hp Hdt. destruct periods as [|p0 rest]; [congruence|].
  unfold compute_spectrum. rewrite (Reqb_neq dt 0 Hdt). reflexivity.
Qed.

(** X27: the ways in which [compute_spectrum] raises.  An empty list of
    periods is an IndexError, a sampling interval of zero a
    ZeroDivisionError; with positive periods and sampling interval, a period
    of at most a seventh of the sampling interval is a ValueError, being
    converted to a scale whose clipped wavelet is empty, and so is an empty
    signal. *)
Theorem compute_spectrum_errors (signal : list R) (dt : R) (periods : list R) :
  compute_spectrum signal dt [] = Raise IndexError
  /\ (periods <> [] ->
      compute_spectrum signal 0 periods = Raise ZeroDivisionError)
  /\ (0 < dt -> Forall (fun p => 0 < p) periods ->
      Exists (fun p => p <= dt / 7) periods ->
      compute_spectrum signal dt periods = Raise ValueError)
  /\ (0 < dt -> Forall (fun p => 0 < p) periods -> periods <> [] ->
      compute_spectrum [] dt periods = Raise ValueError).
Proof.
  split; [reflexivity|]. split; [|split].
  - intros Hp. destruct periods as [|p0 rest]; [congruence|].
    unfold compute_spectrum. rewrite (Reqb_true 0 0) by reflexivity.
    reflexivity.
  - intros Hdt Hpos Hsmall.
    assert (Hp : periods <> []) by (intros ->; inversion Hsmall).
    rewrite compute_spectrum_unfold by (try assumption; lra).
    cbv zeta.
    rewrite CWT_raises; [reflexivity|].
    right. apply spectrum_scales_small; assumption.
  - intros Hdt Hpos Hp.
    rewrite compute_spectrum_unfold by (try assumption; lra).
    cbv zeta. cbn [map].
    rewrite CWT_raises; [reflexivity|].
    left. split; [reflexivity|].
    unfold scales_from_periods. destruct periods; [congruence | discriminate].
Qed.

Lemma compute_spectrum_errors_witness :
  compute_spectrum signal_5 0 [2; 4] = Raise ZeroDivisionError
  /\ compute_spectrum signal_5 1 [1 / 8; 4] = Raise ValueError
  /\ compute_spectrum [] 1 [2; 4] = Raise ValueError.
Proof.
  split; [|split].
  - apply (proj1 (proj2 (compute_spectrum_errors signal_5 0 [2; 4]))).
    discriminate.
  - apply (proj1 (proj2 (proj2
             (compute_spectrum_errors signal_5 1 [1 / 8; 4]))));
      [lra | repeat constructor; lra | left; lra].
  - apply (proj2 (proj2 (proj2 (compute_spectrum_errors [] 1 [2; 4]))));
      [lra | repeat constructor; lra | discriminate].
Defined.

Lemma has_shape_map {A B : Type} (f : A -> B) (m : list (list A)) (P n : nat) :
  has_shape m P n -> has_shape (map (map f) m) P n.
Proof.
  intros [HP Hrows]. split; [rewrite length_map; exact HP|].
  rewrite Forall_forall in *. intros row Hrow.
  apply in_map_iff in Hrow. destruct Hrow as (r & <- & Hr).
  rewrite length_map. apply Hrows. exact Hr.
Qed.

(** X28: what [compute_spectrum] returns.  For a signal that is not
    constant, a positive sampling interval and periods of at least a quarter
    of it, the call returns the transform and the power spectrum, both with
    one row per period and one column per sample; the power is the squared
    modulus of the transform over the variance of the signal as passed in,
    so it is not negative, and it is the power that [eval_ridge] recomputes
    from the transform and the raw signal. *)
Theorem compute_spectrum_returns (signal : list R) (dt : R) (periods : list R) :
  0 < Np.var signal -> 0 < dt ->
  periods <> [] -> Forall (fun p => dt / 4 <= p) periods ->
  exists sp,
    compute_spectrum signal dt periods = Ok sp
    /\ has_shape (sp_wlet sp) (length periods) (length signal)
    /\ has_shape (sp_modulus sp) (length periods) (length signal)
    /\ sp_modulus sp
       = map (map (fun z => Cabs z ^ 2 / Np.var signal)) (sp_wlet sp)
    /\ Forall (Forall (fun x => 0 <= x)) (sp_modulus sp)
    /\ (forall ridge_y,
          ridge_power_of ridge_y (sp_wlet sp) signal
          = Np.fancy2 (sp_modulus sp) ridge_y
              (Np.arange (Np.shape1 (sp_modulus sp)))).
Proof.
  intros Hvar Hdt Hp Hbig.
  assert (Hsig : signal <> []).
  { intros ->. unfold Np.var, Np.mean in Hvar. simpl in Hvar.
    rewrite Rdiv_0_l in Hvar. lra. }
  set (centred := map (fun x => x - Np.mean signal) signal).
  assert (Hc : centred <> [])
    by (unfold centred; destruct signal; [congruence | discriminate]).
  assert (Hlen : length centred = length signal)
    by (unfold centred; apply length_map).
  destruct (CWT_rows centred (Morlet omega0)
              (scales_from_periods periods (1 / dt) omega0) true Hc)
    as (wlet & Hw & Hshape).
  { apply spectrum_scales_big; [|exact Hdt|exact Hbig].
    rewrite Hlen. destruct signal; [congruence | discriminate]. }
  unfold scales_from_periods in Hshape. rewrite length_map, Hlen in Hshape.
  rewrite compute_spectrum_unfold by (try assumption; lra).
  cbv zeta. fold centred. rewrite Hw. cbn [bind].
  unfold centred at 1. rewrite var_centred by exact Hsig.
  eexists. split; [reflexivity|]. cbn [sp_wlet sp_modulus].
  split; [exact Hshape|].
  split; [apply has_shape_map; exact Hshape|].
  split; [reflexivity|].
  split; [|reflexivity].
  rewrite Forall_forall. intros row Hrow.
  apply in_map_iff in Hrow. destruct Hrow as (r & <- & _).
  rewrite Forall_forall. intros x Hx.
  apply in_map_iff in Hx. destruct Hx as (z & <- & _).
  rewrite Cabs_sq. apply Rmult_le_pos; [nra|].
  left. apply Rinv_0_lt_compat. exact Hvar.
Qed.

Lemma compute_spectrum_returns_witness :
  exists sp,
    compute_spectrum signal_5 1 [2; 4] = Ok sp
    /\ has_shape (sp_wlet sp) 2 5
    /\ has_shape (sp_modulus sp) 2 5
    /\ sp_modulus sp
       = map (map (fun z => Cabs z ^ 2 / Np.var signal_5)) (sp_wlet sp)
    /\ Forall (Forall (fun x => 0 <= x)) (sp_modulus sp)
    /\ (forall ridge_y,
          ridge_power_of ridge_y (sp_wlet sp) signal_5
          = Np.fancy2 (sp_modulus sp) ridge_y
              (Np.arange (Np.shape1 (sp_modulus sp)))).
Proof.
  apply (compute_spectrum_returns signal_5 1 [2; 4]).
  - rewrite var_signal_5. lra.
  - lra.
  - discriminate.
  - repeat constructor; lra.
Defined.

(** *** Linearity of the transform *)

Lemma Cmul_Cscale (c : R) (a b : complex) :
  Cmul (Cscale c a) b = Cscale c (Cmul a b).
Proof. unfold Cmul, Cscale. cbn [fst snd]. f_equal; ring. Qed.

Lemma Csum_Cscale (c : R) (l : list complex) :
  Csum (map (Cscale c) l) = Cscale c (Csum l).
Proof.
  induction l as [|z l IH].
  - unfold Csum, Cscale, Czero. cbn. f_equal; ring.
  - cbn [map Csum fold_right] in *. unfold Csum in IH. rewrite IH.
    unfold Cadd, Cscale. cbn [fst snd]. f_equal; ring.
Qed.

Lemma embed_scale (c : R) (signal : list R) (j : nat) :
  nth j (map (fun x => (x, 0)) (map (fun x => c * x) signal)) Czero
  = Cscale c (nth j (map (fun x => (x, 0)) signal) Czero).
Proof.
  revert j. induction signal as [|x rest IH]; intros [|j]; cbn [map nth];
    try apply IH; unfold Cscale, Czero; cbn [fst snd]; f_equal; ring.
Qed.

Lemma convolve_full_scale (c : R) (signal : list R) (v : list complex) :
  convolve_full (map (fun x => (x, 0)) (map (fun x => c * x) signal)) v
  = map (Cscale c) (convolve_full (map (fun x => (x, 0)) signal) v).
Proof.
  unfold convolve_full. rewrite !length_map, (map_map _ (Cscale c)).
  apply map_ext. intros k.
  rewrite <- Csum_Cscale, (map_map _ (Cscale c)). f_equal.
  apply map_ext. intros j. rewrite embed_scale. apply Cmul_Cscale.
Qed.

Lemma convolve_same_scale (c : R) (signal : list R) (v : list complex) :
  convolve_same (map (fun x => (x, 0)) (map (fun x => c * x) signal)) v
  = result_map (map (Cscale c))
      (convolve_same (map (fun x => (x, 0)) signal) v).
Proof.
  destruct signal as [|x rest]; [reflexivity|].
  destruct v as [|y v]; [reflexivity|].
  rewrite !convolve_same_ok by discriminate.
  cbn [result_map]. rewrite convolve_full_scale, !length_map.
  rewrite skipn_map, firstn_map. reflexivity.
Qed.

Lemma cwt_row_scale (c : R) (signal : list R) (wavelet : R -> R -> complex)
  (clip : bool) (scale : R) :
  cwt_row (map (fun x => c * x) signal) wavelet clip scale
  = result_map (map (Cscale c)) (cwt_row signal wavelet clip scale).
Proof.
  unfold cwt_row. rewrite convolve_same_scale, length_map.
  destruct (convolve_same _ _) as [row|e]; [|reflexivity].
  cbn [result_map bind]. rewrite length_map.
  destruct (Nat.eqb _ _); reflexivity.
Qed.

Lemma CWT_scale (c : R) (signal : list R) (wavelet : R -> R -> complex)
  (scales : list R) (clip : bool) :
  CWT (map (fun x => c * x) signal) wavelet scales clip
  = result_map (map (map (Cscale c))) (CWT signal wavelet scales clip).
Proof.
  unfold CWT. induction scales as [|s rest IH]; [reflexivity|].
  cbn [mapM]. rewrite cwt_row_scale, IH.
  destruct (cwt_row signal wavelet clip s) as [row|e]; [|reflexivity].
  cbn [result_map bind].
  destruct (mapM (cwt_row signal wavelet clip) rest) as [rows|e];
    reflexivity.
Qed.

Lemma Cabs_Cscale_sq (c : R) (z : complex) :
  Cabs (Cscale c z) ^ 2 = c ^ 2 * Cabs z ^ 2.
Proof. rewrite !Cabs_sq. unfold Cscale. cbn [fst snd]. ring. Qed.

(** X29: the power spectrum does not depend on the offset and the unit of
    the signal.  For a signal that is not constant, a positive sampling
    interval and periods of at least a quarter of it, [compute_spectrum]
    returns for c * signal + d, with c not zero, the transform of the signal
    multiplied by c and the very same power spectrum. *)
Theorem compute_spectrum_affine_invariant
  (signal : list R) (dt : R) (periods : list R) (c d : R) :
  0 < Np.var signal -> 0 < dt ->
  periods <> [] -> Forall (fun p => dt / 4 <= p) periods ->
  c <> 0 ->
  exists sp sp',
    compute_spectrum signal dt periods = Ok sp
    /\ compute_spectrum (map (fun x => c * x + d) signal) dt periods = Ok sp'
    /\ sp_wlet sp' = map (map (Cscale c)) (sp_wlet sp)
    /\ sp_modulus sp' = sp_modulus sp.
Proof.
  intros Hvar Hdt Hp Hbig Hc.
  assert (Hsig : signal <> []).
  { intros ->. unfold Np.var, Np.mean in Hvar. simpl in Hvar.
    rewrite Rdiv_0_l in Hvar. lra. }
  set (centred := map (fun x => x - Np.mean signal) signal).
  assert (Hcn : centred <> [])
    by (unfold centred; destruct signal; [congruence | discriminate]).
  destruct (CWT_rows centred (Morlet omega0)
              (scales_from_periods periods (1 / dt) omega0) true Hcn)
    as (wlet & Hw & _).
  { apply spectrum_scales_big; [|exact Hdt|exact Hbig].
    unfold centred. rewrite length_map.
    destruct signal; [congruence | discriminate]. }
  rewrite !compute_spectrum_unfold by (try assumption; lra).
  cbv zeta. rewrite (centre_affine c d signal Hsig). fold centred.
  rewrite CWT_scale, Hw. cbn [result_map bind].
  do 2 eexists. split; [reflexivity|]. split; [reflexivity|].
  cbn [sp_wlet sp_modulus]. split; [reflexivity|].
  rewrite (map_ext (fun x => c * x) (fun x => c * x + 0))
    by (intros x; ring).
  assert (Hvc : Np.var centred = Np.var signal)
    by (apply var_centred; exact Hsig).
  rewrite (var_affine c 0 centred Hcn), Hvc.
  rewrite map_map. apply map_ext. intros row.
  rewrite map_map. apply map_ext. intros z.
  rewrite Cabs_Cscale_sq. field. split; first [exact Hc | lra].
Qed.

Lemma compute_spectrum_affine_invariant_witness :
  exists sp sp',
    compute_spectrum signal_5 1 [2; 4] = Ok sp
    /\ compute_spectrum (map (fun x => 3 * x + 7) signal_5) 1 [2; 4] = Ok sp'
    /\ sp_wlet sp' = map (map (Cscale 3)) (sp_wlet sp)
    /\ sp_modulus sp' = sp_modulus sp.
Proof.
  apply (compute_spectrum_affine_invariant signal_5 1 [2; 4] 3 7).
  - rewrite var_signal_5. lra.
  - lra.
  - discriminate.
  - repeat constructor; lra.
  - lra.
Defined.

(** *** The Fourier spectrum *)

Lemma Csum_real (f : nat -> R) (l : list nat) :
  Csum (map (fun m => (f m, 0)) l) = (Np.sum (map f l), 0).
Proof.
  induction l as [|m l IH]; [reflexivity|].
  cbn [map Csum Np.sum fold_right] in *. unfold Csum, Np.sum in IH.
  rewrite IH. unfold Cadd. cbn [fst snd]. f_equal. ring.
Qed.

Lemma map_nth_seq (x : list R) :
  map (fun m => nth m x 0) (seq 0 (length x)) = x.
Proof.
  induction x as [|a x IH]; [reflexivity|].
  cbn [length seq map nth]. f_equal.
  rewrite <- seq_shift, map_map. exact IH.
Qed.

(** The term of frequency zero is the sum of the signal over sqrt(n). *)
Lemma rfft_ortho_dc (x : list R) :
  nth 0 (rfft_ortho x) Czero = (Np.sum x / sqrt (INR (length x)), 0).
Proof.
  unfold rfft_ortho. rewrite Nat.add_1_r. cbn [seq map nth].
  rewrite (map_ext _ (fun m => (nth m x 0, 0))).
  - rewrite Csum_real, map_nth_seq. unfold Cscale. cbn [fst snd].
    f_equal; unfold Rdiv; ring.
  - intros m. cbn [INR].
    replace (- 2 * PI * 0 * INR m / INR (length x)) with 0
      by (unfold Rdiv; ring).
    unfold Cexp_i, Cscale. rewrite cos_0, sin_0. cbn [fst snd].
    f_equal; ring.
Qed.

Lemma div2_INR_le (n : nat) (k : nat) :
  (k <= n / 2)%nat -> 2 * INR k <= INR n.
Proof.
  intros H.
  assert (H2 : (2 * k <= n)%nat).
  { pose proof (Nat.Div0.mul_div_le n 2). lia. }
  apply le_INR in H2. rewrite mult_INR in H2. simpl in H2. lra.
Qed.

(** X30: the Fourier spectrum.  [compute_fourier] raises a
    ZeroDivisionError for an empty signal and for a sampling interval of
    zero.  For a signal that is not constant and a positive sampling
    interval it returns len(signal) // 2 + 1 frequencies and as many powers;
    the frequencies are k / (N dt), from zero up to at most the Nyquist
    frequency 1 / (2 dt); the powers are not negative, and the power at
    frequency zero is N times the squared mean over the variance, so that it
    vanishes for a signal of mean zero. *)
Theorem compute_fourier_spectrum (signal : list R) (dt : R) :
  (signal = [] \/ dt = 0 ->
   compute_fourier signal dt = Raise ZeroDivisionError)
  /\ (0 < Np.var signal -> 0 < dt ->
      exists freqs power,
        compute_fourier signal dt = Ok (freqs, power)
        /\ length freqs = (length signal / 2 + 1)%nat
        /\ length power = (length signal / 2 + 1)%nat
        /\ (forall k, (k <= length signal / 2)%nat ->
              nth k freqs 0 = INR k / (INR (length signal) * dt)
              /\ 0 <= nth k freqs 0 <= 1 / (2 * dt))
        /\ Forall (fun p => 0 <= p) power
        /\ nth 0 power 0
           = INR (length signal) * Np.mean signal ^ 2 / Np.var signal).
Proof.
  split.
  - intros H. unfold compute_fourier. rewrite Reqb_true; [reflexivity|].
    destruct H as [-> | ->]; simpl; ring.
  - intros Hvar Hdt.
    assert (Hsig : signal <> []).
    { intros ->. unfold Np.var, Np.mean in Hvar. simpl in Hvar.
      rewrite Rdiv_0_l in Hvar. lra. }
    pose proof (length_pos_INR signal Hsig) as HN.
    set (N := length signal) in *.
    unfold compute_fourier. fold N.
    rewrite Reqb_neq by nra.
    do 2 eexists. split; [reflexivity|].
    split; [unfold rfftfreq; rewrite length_map, length_seq; reflexivity|].
    split; [unfold rfft_ortho; rewrite !length_map, length_seq; reflexivity|].
    split; [|split].
    + intros k Hk. unfold rfftfreq. cbv zeta.
      assert (Hnth : nth k (map (fun k0 => INR k0 * (1 / (INR N * dt)))
                              (seq 0 (N / 2 + 1))) 0
                     = INR k / (INR N * dt)).
      { rewrite (nth_indep _ 0 (INR 0 * (1 / (INR N * dt))))
          by (rewrite length_map, length_seq; lia).
        rewrite (map_nth (fun k0 => INR k0 * (1 / (INR N * dt)))).
        rewrite seq_nth by lia. cbn [Nat.add]. field. lra. }
      rewrite Hnth. split; [reflexivity|].
      pose proof (div2_INR_le N k Hk) as H2.
      pose proof (pos_INR k) as H0.
      assert (Hden : 0 < INR N * dt) by nra.
      split.
      * apply Rmult_le_pos; [exact H0|].
        left. apply Rinv_0_lt_compat. exact Hden.
      * apply Rmult_le_reg_r with (2 * (INR N * dt)); [lra|].
        replace (INR k / (INR N * dt) * (2 * (INR N * dt))) with (2 * INR k)
          by (field; lra).
        replace (1 / (2 * dt) * (2 * (INR N * dt))) with (INR N)
          by (field; lra).
        exact H2.
    + rewrite Forall_forall. intros p Hp.
      apply in_map_iff in Hp. destruct Hp as (z & <- & _).
      rewrite Cabs_sq. apply Rmult_le_pos; [nra|].
      left. apply Rinv_0_lt_compat. exact Hvar.
    + rewrite (nth_indep _ 0 ((fun z => Cabs z ^ 2 / Np.var signal) Czero))
        by (unfold rfft_ortho; rewrite !length_map, length_seq; lia).
      rewrite (map_nth (fun z => Cabs z ^ 2 / Np.var signal)).
      rewrite rfft_ortho_dc, Cabs_sq. cbn [fst snd]. fold N.
      unfold Np.mean. fold N.
      assert (Hs : 0 < sqrt (INR N)) by (apply sqrt_lt_R0; exact HN).
      assert (Hsq : sqrt (INR N) * sqrt (INR N) = INR N)
        by (apply sqrt_sqrt; lra).
      replace ((Np.sum signal / sqrt (INR N)) ^ 2 + 0 ^ 2)
        with (Np.sum signal ^ 2 / (sqrt (INR N) * sqrt (INR N)))
        by (field; lra).
      rewrite Hsq. field. lra.
Qed.

Lemma compute_fourier_spectrum_witness :
  compute_fourier [] 1 = Raise ZeroDivisionError
  /\ exists freqs power,
       compute_fourier signal_5 1 = Ok (freqs, power)
       /\ length freqs = (length signal_5 / 2 + 1)%nat
       /\ length power = (length signal_5 / 2 + 1)%nat
       /\ (forall k, (k <= length signal_5 / 2)%nat ->
             nth k freqs 0 = INR k / (INR (length signal_5) * 1)
             /\ 0 <= nth k freqs 0 <= 1 / (2 * 1))
       /\ Forall (fun p => 0 <= p) power
       /\ nth 0 power 0
          = INR (length signal_5) * Np.mean signal_5 ^ 2 / Np.var signal_5.
Proof.
  split.
  - apply (proj1 (compute_fourier_spectrum [] 1)). left. reflexivity.
  - apply (proj2 (compute_fourier_spectrum signal_5 1)).
    + rewrite var_signal_5. lra.
    + lra.
Defined.
